(** * proto-srv-generator: a shallow embedding of [generator.ts]

    The generator reads a protobuf service description, scans it with three
    regular expressions, and writes handler stubs, a NATS service module, a
    client module, [package.json] and [tsconfig.json].

    Conventions of the embedding.
    - A JavaScript string is a [string]: a sequence of UTF-16 code units, here
      restricted to the code units below 256 (one [ascii] each).  The
      character classes and [toLowerCase] are the JavaScript ones on that
      range.
    - The file system is a flat store from paths to nodes, with paths
      compared character by character as on a case-sensitive file system;
      [Deno.stat], [Deno.mkdir], [Deno.readTextFile] and
      [Deno.writeTextFile] act on it.  The directories above a path are not
      tracked: a write fails only when its target is a directory.
    - Asynchronous code is awaited in program order, so [async] functions are
      sequential computations in a state-and-exception monad.
    - The functions of the path library ([join], [basename], [extname]) are
      a parameter of the program ([PathLib]); [join] is [path_join] here,
      since [join] names the join of an array.
    - The repository holds two variants of the program: [generator.ts], which
      emits one service module and one client module for the whole file, and
      a per-service variant, which emits them for each service; the latter
      lives in [Module PerService]. *)

From Stdlib Require Import Ascii.
From stdpp Require Import gmap strings list sorting.

(** ** Strings and characters *)

Definition code (c : ascii) : N := Ascii.N_of_ascii c.

Definition between (lo hi n : N) : bool := (lo <=? n)%N && (n <=? hi)%N.

(** [\w] : [A-Za-z0-9_]. *)
Definition isWord (c : ascii) : bool :=
  let n := code c in
  between 48 57 n || between 65 90 n || (n =? 95)%N || between 97 122 n.

(** [\s] : the white space and line terminator code units below 256. *)
Definition isSpace (c : ascii) : bool :=
  let n := code c in between 9 13 n || (n =? 32)%N || (n =? 160)%N.

(** [\S]. *)
Definition isNonSpace (c : ascii) : bool := negb (isSpace c).

(** [[\s\S]]. *)
Definition isAny (c : ascii) : bool := isSpace c || isNonSpace c.

(** [String.prototype.toLowerCase] on one code unit below 256. *)
Definition lowerChar (c : ascii) : ascii :=
  let n := code c in
  if between 65 90 n || between 192 214 n || between 216 222 n
  then Ascii.ascii_of_N (n + 32) else c.

Fixpoint toLowerCase (s : string) : string :=
  match s with
  | EmptyString => EmptyString
  | String c s' => String (lowerChar c) (toLowerCase s')
  end.

(** [Array.prototype.join]. *)
Definition join (sep : string) (parts : list string) : string :=
  String.concat sep parts.

(** The double quote, and a new line. *)
Definition dq : string := String (Ascii.ascii_of_N 34) EmptyString.
Definition nl : string := String (Ascii.ascii_of_N 10) EmptyString.

(** [strip_prefix l s] is [Some t] when [s = l +:+ t]. *)
Fixpoint strip_prefix (l s : string) : option string :=
  match l with
  | EmptyString => Some s
  | String a l' =>
      match s with
      | String b s' => if Ascii.eqb a b then strip_prefix l' s' else None
      | EmptyString => None
      end
  end.

(** [p] occurs in [t]. *)
Definition Occurs (p t : string) : Prop := exists a b, t = a +:+ p +:+ b.

(** ** The regular expressions of the program

    The three patterns of [parseProto] are sequences of literals and of
    repetitions of one character class, some of them inside a capturing
    group.  [rmatch] is the backtracking matcher of the language for this
    fragment: a greedy [+] tries the longest run first and gives characters
    back one at a time, a lazy [*?] tries the shortest run first. *)

Inductive quant := OneOrMore | LazyStar.

Inductive atom :=
| Lit (l : string)
| Rep (cls : ascii -> bool) (q : quant)
| Cap (cls : ascii -> bool) (q : quant).

Definition regex := list atom.

(** captures in group order, the matched text, and the text after it *)
Definition mres : Type := list string * string * string.

Fixpoint greedyPlus (cls : ascii -> bool) (next : string -> option mres)
    (s : string) : option (string * mres) :=
  match s with
  | String c s' =>
      if cls c then
        match greedyPlus cls next s' with
        | Some (w, r) => Some (String c w, r)
        | None =>
            match next s' with
            | Some r => Some (String c EmptyString, r)
            | None => None
            end
        end
      else None
  | EmptyString => None
  end.

Fixpoint lazyStar (cls : ascii -> bool) (next : string -> option mres)
    (s : string) : option (string * mres) :=
  match next s with
  | Some r => Some (EmptyString, r)
  | None =>
      match s with
      | String c s' =>
          if cls c then
            match lazyStar cls next s' with
            | Some (w, r) => Some (String c w, r)
            | None => None
            end
          else None
      | EmptyString => None
      end
  end.

Definition repeat_ (cls : ascii -> bool) (q : quant) :
    (string -> option mres) -> string -> option (string * mres) :=
  match q with
  | OneOrMore => greedyPlus cls
  | LazyStar => lazyStar cls
  end.

(** Match [re] at the start of [s]. *)
Fixpoint rmatch (re : regex) (s : string) : option mres :=
  match re with
  | [] => Some ([], EmptyString, s)
  | Lit l :: re' =>
      match strip_prefix l s with
      | Some s' =>
          match rmatch re' s' with
          | Some (caps, m, rest) => Some (caps, l +:+ m, rest)
          | None => None
          end
      | None => None
      end
  | Rep cls q :: re' =>
      match repeat_ cls q (rmatch re') s with
      | Some (w, (caps, m, rest)) => Some (caps, w +:+ m, rest)
      | None => None
      end
  | Cap cls q :: re' =>
      match repeat_ cls q (rmatch re') s with
      | Some (w, (caps, m, rest)) => Some (w :: caps, w +:+ m, rest)
      | None => None
      end
  end.

(** [RegExp.prototype.exec] from the start of [s]: the leftmost position at
    which the pattern matches; the result carries the text skipped before
    the match. *)
Fixpoint search (re : regex) (s : string) : option (string * mres) :=
  match rmatch re s with
  | Some r => Some (EmptyString, r)
  | None =>
      match s with
      | String c s' =>
          match search re s' with
          | Some (pre, r) => Some (String c pre, r)
          | None => None
          end
      | EmptyString => None
      end
  end.

(** The successive matches of a pattern with the [g] flag: each search
    resumes at [lastIndex], the end of the previous match ([skip] counts the
    characters of that match still to pass; after an empty match the search
    resumes one character further).  Lemma [scan_search] below states it as
    the loop of [search] calls. *)
Fixpoint scan (re : regex) (skip : nat) (s : string) : list mres :=
  match skip with
  | S k =>
      match s with
      | String _ s' => scan re k s'
      | EmptyString => []
      end
  | O =>
      match rmatch re s with
      | Some (caps, m, rest) =>
          (caps, m, rest) ::
          match s with
          | String _ s' => scan re (String.length m - 1) s'
          | EmptyString => []
          end
      | None =>
          match s with
          | String _ s' => scan re 0 s'
          | EmptyString => []
          end
      end
  end.

Definition captures (r : mres) : list string := r.1.1.
Definition matched (r : mres) : string := r.1.2.

(** [String.prototype.match] with a [g] pattern: the matched texts, or
    [null] when there is none. *)
Definition matchG (re : regex) (s : string) : option (list string) :=
  match scan re 0 s with
  | [] => None
  | ms => Some (map matched ms)
  end.

(** [/package\s+(\w+)([\s\S]*?)/] *)
Definition packageRE : regex :=
  [Lit "package"; Rep isSpace OneOrMore; Cap isWord OneOrMore; Cap isAny LazyStar].

(** [/service\s+(\w+)([\s\S]*?)}\n}/mg] *)
Definition servicesRE : regex :=
  [Lit "service"; Rep isSpace OneOrMore; Cap isWord OneOrMore; Cap isAny LazyStar;
   Lit ("}" +:+ nl +:+ "}")].

(** [/rpc\s+(\w+)\((\S+)\)\s+returns\s+\((\S+)\)\s+\{}/] *)
Definition rpcRE : regex :=
  [Lit "rpc"; Rep isSpace OneOrMore; Cap isWord OneOrMore;
   Lit "("; Cap isNonSpace OneOrMore; Lit ")"; Rep isSpace OneOrMore;
   Lit "returns"; Rep isSpace OneOrMore;
   Lit "("; Cap isNonSpace OneOrMore; Lit ")"; Rep isSpace OneOrMore; Lit "{}"].

(** [rpcLineRE]: the same pattern with the flag [m] instead of [g], for
    the groups of one line. *)
Definition rpcLineRE : regex := rpcRE.

(** ** Data model *)

Module Rpc.
Record t := mk { name : string; inType : string; outType : string }.
End Rpc.

Module Service.
Record t := mk { name : string; rpcs : list Rpc.t }.
End Service.

Abbreviation ProtoRpc := Rpc.t.
Abbreviation ProtoService := Service.t.

Record ProtoParse := mkParse { packageName : string; services : list ProtoService }.

(** ** Exceptions

    [Error] and [TypeError] carry their message.  The errors of the runtime
    ([Deno.errors.NotFound] and the like) carry the path they are about,
    which stands for their message as well. *)

Inductive exn :=
| Error (message : string)
| TypeError (message : string)
| NotFound (path : string)
| IsADirectory (path : string)
| AlreadyExists (path : string).

(** ** [parseProto] on the text of the schema file *)

(** How a value that is [undefined] prints in a template.  No capture of
    [rpcOfLine] is ever undefined (lemma [rpcOfLine_defined] below). *)
Definition undefined : string := "undefined".

(** [m?.[i]] for the result [m] of a match. *)
Definition group (m : option (string * mres)) (i : nat) : string :=
  match m with
  | Some (_, (caps, _, _)) => nth (i - 1) caps undefined
  | None => undefined
  end.

(** The callback of [lines.map]: the line is matched once more, without the
    [g] flag, for its three groups. *)
Definition rpcOfLine (line : string) : ProtoRpc :=
  let m := search rpcLineRE line in
  Rpc.mk (group m 1) (group m 2) (group m 3).

Definition noRpcEntries : exn :=
  Error "expected rpc entries like `rpc fn(T) returns (T) {}`".

(** [r.services?.[0].name]: reading [name] of the first service, which is
    [undefined] while the list is still empty. *)
Definition undefinedName : exn :=
  TypeError "Cannot read properties of undefined (reading 'name')".

Definition firstServiceName (r : ProtoParse) : exn + string :=
  match services r with
  | [] => inl undefinedName
  | s0 :: _ => inr (Service.name s0)
  end.

(** The body of the [while] loop, over the successive matches of
    [servicesRE]. *)
Fixpoint servicesLoop (ms : list mres) (r : ProtoParse) : exn + ProtoParse :=
  match ms with
  | [] => inr r
  | (caps, m0, _) :: ms' =>
      let name := nth 0 caps undefined in
      match matchG rpcRE m0 with
      | None => inl noRpcEntries
      | Some lines =>
          let rpcs := map rpcOfLine lines in
          if String.eqb (packageName r) "" then
            match firstServiceName r with
            | inl e => inl e
            | inr p =>
                servicesLoop ms' (mkParse p (services r ++ [Service.mk name rpcs]))
            end
          else
            servicesLoop ms'
              (mkParse (packageName r) (services r ++ [Service.mk name rpcs]))
      end
  end.

(** The model after the package stage: [r.packageName = m[1]] when
    [packageRE] matches, the empty name otherwise. *)
Definition packageStage (proto : string) : ProtoParse :=
  match search packageRE proto with
  | Some m => mkParse (group (Some m) 1) []
  | None => mkParse "" []
  end.

Definition parseProtoText (proto : string) : exn + ProtoParse :=
  servicesLoop (scan servicesRE 0 proto) (packageStage proto).

(** ** Import lists *)

(** [Array.prototype.indexOf] on strings. *)
Fixpoint indexOf (l : list string) (e : string) : Z :=
  match l with
  | [] => (-1)%Z
  | x :: l' =>
      if String.eqb x e then 0%Z
      else let i := indexOf l' e in if (i <? 0)%Z then (-1)%Z else (i + 1)%Z
  end.

(** [Array.prototype.filter] with the element and its index. *)
Fixpoint filter_from (p : string -> nat -> bool) (idx : nat) (l : list string)
    : list string :=
  match l with
  | [] => []
  | e :: l' =>
      if p e idx then e :: filter_from p (S idx) l' else filter_from p (S idx) l'
  end.

Definition filter_idx (p : string -> nat -> bool) (l : list string) : list string :=
  filter_from p 0 l.

(** [types.filter((e, idx) => types.indexOf(e) === idx)] *)
Definition dedup (types : list string) : list string :=
  filter_idx (fun e idx => (indexOf types e =? Z.of_nat idx)%Z) types.

(** [Array.prototype.sort] without a comparator, on strings: ascending in
    the order of the code units. *)
Definition sort (l : list string) : list string := merge_sort String.le l.

Definition generateImport (types : list string) (protoLibName : string) : string :=
  let types := dedup types in
  "import { " +:+ join ", " (sort types) +:+ " } from " +:+ dq +:+ "./" +:+
  protoLibName +:+ ".js" +:+ dq +:+ ";".

(** the array filled by [a.push(r.outType, r.inType)] *)
Definition rpcTypes (rs : list ProtoRpc) : list string :=
  flat_map (fun r => [Rpc.outType r; Rpc.inType r]) rs.

Definition generateServiceImports (srv : ProtoService) (protoLibName : string)
    : string :=
  generateImport (rpcTypes (Service.rpcs srv)) protoLibName.

Definition generateAllProtoImports (parse : ProtoParse) (protoLibName : string)
    : string :=
  generateImport (flat_map (fun s => rpcTypes (Service.rpcs s)) (services parse))
    protoLibName.

(** ** Emitters: the text of each artifact *)

Definition generateHandler (h : ProtoRpc) : string :=
  nl +:+
  "    export function " +:+ Rpc.name h +:+ "Handler(r: " +:+ Rpc.inType h +:+ "): Promise<" +:+ Rpc.outType h +:+ ">{" +:+ nl +:+
  "        // add your code here" +:+ nl +:+
  "        return Promise.reject(new Error(" +:+ dq +:+ "not implemented" +:+ dq +:+ "));" +:+ nl +:+
  "    }" +:+ nl.

Definition generateHandlerImport (fn : string) (parse : ProtoService) : string :=
  "import { " +:+ Service.name parse +:+ " } from " +:+ dq +:+ "./" +:+ toLowerCase fn +:+ "_handlers.js" +:+ dq +:+ ";".

Definition createService (srv : ProtoParse) : string :=
  "const nc = await connect();" +:+ nl +:+
  "const srv = await nc.services.add({" +:+ nl +:+
  "  name: " +:+ dq +:+ packageName srv +:+ dq +:+ "," +:+ nl +:+
  "  version: " +:+ dq +:+ "0.0.1" +:+ dq +:+ "," +:+ nl +:+
  "});" +:+ nl +:+
  nl +:+
  "srv.stopped.then((err) => {" +:+ nl +:+
  "  console.log(" +:+ dq +:+ "service stopped:" +:+ dq +:+ ", err?.message);" +:+ nl +:+
  "});" +:+ nl.

Definition addEndpoint (srv : ProtoService) (h : ProtoRpc) : string :=
  toLowerCase (Service.name srv) +:+ ".addEndpoint(" +:+ dq +:+ Rpc.name h +:+ dq +:+ ", (err, m) => {" +:+ nl +:+
  "  // if we get an error from the subscription, stop" +:+ nl +:+
  "  if(err) {" +:+ nl +:+
  "    srv.stop(err);" +:+ nl +:+
  "    return;" +:+ nl +:+
  "  }" +:+ nl +:+
  "  const input = " +:+ Rpc.inType h +:+ ".decode(m?.data);" +:+ nl +:+
  "  " +:+ Service.name srv +:+ "." +:+ Rpc.name h +:+ "Handler(input)" +:+ nl +:+
  "    .then((o) => {" +:+ nl +:+
  "      m.respond(" +:+ Rpc.outType h +:+ ".encode(o).finish())" +:+ nl +:+
  "    })" +:+ nl +:+
  "    .catch((err) => {" +:+ nl +:+
  "      m.respondError(500, err.message);" +:+ nl +:+
  "    });" +:+ nl +:+
  "});" +:+ nl.

(** the [sections] array of [generateStubs] *)
Definition stubSections (service : ProtoService) (genLibPath : string) : list string :=
  ["// edit your services here"] ++
  [generateServiceImports service genLibPath] ++
  ["export namespace " +:+ Service.name service +:+ " {"] ++
  map generateHandler (Service.rpcs service) ++
  ["}"].

Definition stubsText (service : ProtoService) (genLibPath : string) : string :=
  join nl (stubSections service genLibPath).

Definition mainBanner (parse : ProtoParse) : string :=
  nl +:+
  "// This file implements the NATS service portion of your service." +:+ nl +:+
  "// The handlers for the various operations are defined in" +:+ nl +:+
  "// <service>_handlers.ts file." +:+ nl +:+
  "// To build the service run: 'npm run generate'" +:+ nl +:+
  "// To start the service do: 'node " +:+ toLowerCase (packageName parse) +:+ "_service.js'" +:+ nl +:+
  "//" +:+ nl +:+
  "// THE CONTENTS OF FILE IS GENERATED AND SHOULDN'T BE EDITED" +:+ nl +:+
  "// THIS TECHNOLOGY IS EXPERIMENTAL USE AT YOUR OWN RISK" +:+ nl.

Definition addGroup (srv : ProtoService) : string :=
  "const " +:+ toLowerCase (Service.name srv) +:+ " = srv.addGroup(" +:+ dq +:+ Service.name srv +:+ dq +:+ ");".

(** the [sections] array of [generateMain] *)
Definition mainSections (parse : ProtoParse) (genLibPath : string) : list string :=
  [mainBanner parse] ++
  ["import { connect, ServiceError } from " +:+ dq +:+ "nats" +:+ dq +:+ ";"] ++
  [generateAllProtoImports parse genLibPath] ++
  map (fun srv => generateHandlerImport (Service.name srv) srv) (services parse) ++
  [createService parse] ++
  flat_map (fun srv => addGroup srv :: map (addEndpoint srv) (Service.rpcs srv))
    (services parse).

Definition mainText (parse : ProtoParse) (genLibPath : string) : string :=
  join nl (mainSections parse genLibPath).

Definition clientBanner : string :=
  "// THE CONTENTS OF FILE IS GENERATED AND SHOULDN'T BE EDITED" +:+ nl +:+
  "// THIS TECHNOLOGY IS EXPERIMENTAL USE AT YOUR OWN RISK" +:+ nl.

Definition clientClassOpen (srv : ProtoService) : string :=
  nl +:+
  "export class " +:+ Service.name srv +:+ "Client {" +:+ nl +:+
  "  nc: NatsConnection;" +:+ nl +:+
  "  constructor(nc: NatsConnection) {" +:+ nl +:+
  "    this.nc = nc;" +:+ nl +:+
  "  }" +:+ nl.

Definition clientMethod (srv : ProtoService) (rpc : ProtoRpc) : string :=
  "  async " +:+ Rpc.name rpc +:+ "(data: " +:+ Rpc.inType rpc +:+ "): Promise<" +:+ Rpc.outType rpc +:+ "> {" +:+ nl +:+
  "    const r = await this.nc.request(" +:+ dq +:+ Service.name srv +:+ "." +:+ Rpc.name rpc +:+ dq +:+ ", " +:+ Rpc.inType rpc +:+ ".encode(data).finish());" +:+ nl +:+
  "    return " +:+ Rpc.outType rpc +:+ ".decode(r.data);" +:+ nl +:+
  "  }" +:+ nl.

(** the [parts] array of [generateClient] *)
Definition clientParts (parse : ProtoParse) (protoLibName : string) : list string :=
  [clientBanner] ++
  [generateAllProtoImports parse protoLibName] ++
  ["import { NatsConnection, ServiceError } from " +:+ dq +:+ "nats" +:+ dq] ++
  flat_map
    (fun srv =>
       clientClassOpen srv :: map (clientMethod srv) (Service.rpcs srv) ++ ["}"])
    (services parse).

Definition clientText (parse : ProtoParse) (protoLibName : string) : string :=
  join nl (clientParts parse protoLibName).

(** ** [JSON.stringify]

    Values as the two configuration objects need them, and their text as
    [JSON.stringify(data, undefined, " ")] prints it: one property per line,
    each nesting level indented by one more space. *)

#[local] Unset Elimination Schemes.
Inductive json :=
| JString (s : string)
| JBool (b : bool)
| JArray (items : list json)
| JObject (props : list (string * json)).
#[local] Set Elimination Schemes.

Definition hexDigit (n : N) : ascii :=
  Ascii.ascii_of_N (if (n <? 10)%N then 48 + n else 87 + n).

(** One code unit inside a JSON string literal. *)
Definition jsonEscape (c : ascii) : string :=
  let n := code c in
  if (n =? 8)%N then "\b"
  else if (n =? 9)%N then "\t"
  else if (n =? 10)%N then "\n"
  else if (n =? 12)%N then "\f"
  else if (n =? 13)%N then "\r"
  else if (n =? 34)%N then "\" +:+ dq
  else if (n =? 92)%N then "\\"
  else if (n <? 32)%N then
    "\u00" +:+ String (hexDigit (n / 16)) (String (hexDigit (n mod 16)) EmptyString)
  else String c EmptyString.

Fixpoint jsonEscapes (s : string) : string :=
  match s with
  | EmptyString => EmptyString
  | String c s' => jsonEscape c +:+ jsonEscapes s'
  end.

Definition jsonQuote (s : string) : string := dq +:+ jsonEscapes s +:+ dq.

Fixpoint stringifyAt (indent : string) (j : json) : string :=
  let inner := indent +:+ " " in
  match j with
  | JString s => jsonQuote s
  | JBool b => if b then "true" else "false"
  | JArray [] => "[]"
  | JArray items =>
      "[" +:+ nl +:+ inner +:+
      join ("," +:+ nl +:+ inner) (map (stringifyAt inner) items) +:+
      nl +:+ indent +:+ "]"
  | JObject [] => "{}"
  | JObject props =>
      "{" +:+ nl +:+ inner +:+
      join ("," +:+ nl +:+ inner)
        (map (fun kv => jsonQuote kv.1 +:+ ": " +:+ stringifyAt inner kv.2) props) +:+
      nl +:+ indent +:+ "}"
  end.

Definition stringify (j : json) : string := stringifyAt "" j.

(** Property lookup in an object. *)
Fixpoint get (k : string) (props : list (string * json)) : option json :=
  match props with
  | [] => None
  | (k', v) :: props' => if String.eqb k' k then Some v else get k props'
  end.

Definition prop (k : string) (j : json) : option json :=
  match j with
  | JObject props => get k props
  | _ => None
  end.

(** ** The path library

    [join], [basename] and [extname] come from Deno's standard library; the
    program is modelled over any implementation of them. *)

Class PathLib := {
  path_join : string -> string -> string;
  basename : string -> string;
  extname : string -> string
}.

(** The [build] script of the manifest. *)
Definition buildScript {P : PathLib} (protoPath : string) : string :=
  "protoc --plugin=./node_modules/.bin/protoc-gen-ts_proto --ts_proto_opt=importSuffix=.js --ts_proto_opt=esModuleInterop=true --ts_proto_out=. ./" +:+
  basename protoPath +:+ " && tsc".

Definition testScript : string :=
  "echo " +:+ dq +:+ "Error: no test specified" +:+ dq +:+ " && exit 1".

(** the object [pkg] of [generateNodePackage] *)
Definition pkg {P : PathLib} (protoPath : string) : json :=
  JObject
    [("name", JString "service");
     ("version", JString "1.0.0");
     ("description", JString "");
     ("main", JString "index.js");
     ("type", JString "module");
     ("scripts",
       JObject [("build", JString (buildScript protoPath));
                ("test", JString testScript)]);
     ("dependencies",
       JObject [("ts-proto", JString "^1.137.0");
                ("typescript", JString "^4.9.4");
                ("nats", JString "^2.13.1")]);
     ("keywords", JArray []);
     ("author", JString "");
     ("license", JString "ISC")].

(** the object [config] of [generateTscConfig] *)
Definition tscConfig : json :=
  JObject
    [("compilerOptions",
       JObject [("target", JString "esnext");
                ("lib", JArray []);
                ("module", JString "esnext");
                ("esModuleInterop", JBool true);
                ("forceConsistentCasingInFileNames", JBool true);
                ("strict", JBool true);
                ("moduleResolution", JString "node");
                ("skipLibCheck", JBool true)])].

(** ** Files, the console, and sequential code that may throw *)

Inductive node := File (data : string) | Dir.

Inductive event :=
| Wrote (path data : string)
| MadeDir (path : string)
| Log (line : string)
| LogError (line : string).

(** The state a run acts on: the file store, the module variable [clobber],
    and what the run did so far, oldest first. *)
Record world := mkWorld {
  fs : gmap string node;
  clobber : bool;
  trace : list event
}.

Definition io (A : Type) : Type := world -> (exn + A) * world.

Definition ret {A} (a : A) : io A := fun w => (inr a, w).

Definition throw {A} (e : exn) : io A := fun w => (inl e, w).

Definition bind {A B} (m : io A) (k : A -> io B) : io B :=
  fun w =>
    match m w with
    | (inl e, w') => (inl e, w')
    | (inr a, w') => k a w'
    end.

(** [m.catch(h)] *)
Definition catch {A} (m : io A) (h : exn -> io A) : io A :=
  fun w =>
    match m w with
    | (inl e, w') => h e w'
    | (inr a, w') => (inr a, w')
    end.

Notation "'let*' x := m 'in' k" := (bind m (fun x => k))
  (at level 10, x name, m at level 100, k at level 200).
Notation "m ;; k" := (bind m (fun _ => k))
  (at level 100, k at level 200, right associativity).

Definition errMessage (e : exn) : string :=
  match e with
  | Error m | TypeError m | NotFound m | IsADirectory m | AlreadyExists m => m
  end.

Definition emit (ev : event) : io unit :=
  fun w => (inr tt, mkWorld (fs w) (clobber w) (trace w ++ [ev])).

Definition console_log (line : string) : io unit := emit (Log line).
Definition console_error (line : string) : io unit := emit (LogError line).

Definition setClobber (b : bool) : io unit :=
  fun w => (inr tt, mkWorld (fs w) b (trace w)).

Definition getClobber : io bool := fun w => (inr (clobber w), w).

(** [Deno.stat] inside [exists]: [true] for a file or a directory, [false]
    when [Deno.errors.NotFound] is caught; the store is only read. *)
Definition exists_ (path : string) : io bool :=
  fun w => (inr (bool_decide (is_Some (fs w !! path))), w).

(** [Deno.mkdir] *)
Definition mkdir (path : string) : io unit :=
  fun w =>
    match fs w !! path with
    | Some _ => (inl (AlreadyExists path), w)
    | None =>
        (inr tt, mkWorld (<[path := Dir]> (fs w)) (clobber w) (trace w ++ [MadeDir path]))
    end.

(** [Deno.readTextFile] *)
Definition readTextFile (path : string) : io string :=
  fun w =>
    match fs w !! path with
    | Some (File d) => (inr d, w)
    | Some Dir => (inl (IsADirectory path), w)
    | None => (inl (NotFound path), w)
    end.

(** [save], that is [Deno.writeTextFile]: creates or replaces the file. *)
Definition save (filePath data : string) : io unit :=
  fun w =>
    match fs w !! filePath with
    | Some Dir => (inl (IsADirectory filePath), w)
    | _ =>
        (inr tt,
         mkWorld (<[filePath := File data]> (fs w)) (clobber w)
           (trace w ++ [Wrote filePath data]))
    end.

Definition saveJSON (filePath : string) (data : json) : io unit :=
  save filePath (stringify data).

Definition copy (pathA pathB : string) : io unit :=
  let* d := readTextFile pathA in save pathB d.

(** [for (const x of l) { body }] *)
Fixpoint forOf {A} (l : list A) (body : A -> io unit) : io unit :=
  match l with
  | [] => ret tt
  | x :: l' => body x ;; forOf l' body
  end.

(** ** The generator *)

Definition parseProto (filePath : string) : io ProtoParse :=
  let* proto := readTextFile filePath in
  match parseProtoText proto with
  | inl e => throw e
  | inr r => ret r
  end.

Definition generateStubs {P : PathLib} (fn : string) (service : ProtoService)
    (genLibPath : string) : io unit :=
  save (path_join fn (toLowerCase (Service.name service) +:+ "_handlers.ts"))
    (stubsText service genLibPath).

Definition generateMain {P : PathLib} (dir : string) (parse : ProtoParse)
    (genLibPath : string) : io unit :=
  save (path_join dir (toLowerCase (packageName parse) +:+ "_service.ts"))
    (mainText parse genLibPath).

Definition generateClient {P : PathLib} (outDir : string) (parse : ProtoParse)
    (protoLibName : string) : io unit :=
  save (path_join outDir (toLowerCase (packageName parse) +:+ "_clients.ts"))
    (clientText parse protoLibName).

Definition generateNodePackage {P : PathLib} (filePath protoPath : string) : io unit :=
  saveJSON filePath (pkg protoPath).

Definition generateTscConfig (filePath : string) : io unit :=
  saveJSON filePath tscConfig.

Record Flags := mkFlags { out : string; force : bool; proto : string }.

(** The back-up step of the loop over the services. *)
Definition backupHandlers {P : PathLib} (outDir : string) (s : ProtoService) : io unit :=
  let handlersPath := path_join outDir (Service.name s +:+ "_handlers.ts") in
  let* e := exists_ handlersPath in
  let* c := getClobber in
  if e && c then
    let bak := path_join outDir (toLowerCase (Service.name s) +:+ "_handlers.bak") in
    copy handlersPath bak ;;
    console_log
      (handlersPath +:+ " was backed up to " +:+ bak +:+
       " - subsequent runs will destroy the backup!")
  else ret tt.

(** The [run] callback of the command. *)
Definition run {P : PathLib} (flags : Flags) : io Z :=
  let outDir := out flags in
  setClobber (force flags) ;;
  let protoPath := proto flags in
  if String.eqb protoPath "" then throw (Error "--proto is required") else
  let protoName := basename protoPath in
  let ext := extname protoName in
  let genLib :=
    String.substring 0 (String.length protoName - String.length ext) protoName in
  let* parse := parseProto protoPath in
  let* e := exists_ outDir in
  (if e then
     let* c := getClobber in
     if negb c then throw (Error (outDir +:+ " exists --force to overwrite"))
     else ret tt
   else
     catch (mkdir outDir)
       (fun err =>
          console_error ("failed to create " +:+ outDir +:+ ": " +:+ errMessage err) ;;
          throw err)) ;;
  copy protoPath (path_join outDir (basename protoPath)) ;;
  forOf (services parse)
    (fun s => backupHandlers outDir s ;; generateStubs outDir s genLib) ;;
  generateMain outDir parse genLib ;;
  generateClient outDir parse genLib ;;
  generateNodePackage (path_join outDir "package.json") protoPath ;;
  generateTscConfig (path_join outDir "tsconfig.json") ;;
  console_log "'npm install', edit handlers path, 'npm run build'" ;;
  ret 0%Z.

(** ** The per-service variant

    The second program of the repository: [parseProto] returns the list of
    services (it reads no package name), and the loop of [run] writes a
    handlers file, a service module and a client module for each service. *)

Module PerService.

Abbreviation ServiceRpc := Rpc.t.
Abbreviation ServiceParse := Service.t.

Definition generateImports (services : list ServiceRpc) (protoLibName : string)
    : string :=
  let a := rpcTypes services in
  let types := dedup a in
  let protoImports :=
    "import {" +:+ join ", " (sort types) +:+ "} from " +:+ dq +:+ "./" +:+ protoLibName +:+ ".js" +:+ dq +:+ ";" in
  join nl [protoImports].

Definition generateHandler (h : ServiceRpc) : string :=
  "export function " +:+ Rpc.name h +:+ "Handler(r: " +:+ Rpc.inType h +:+ "): Promise<" +:+ Rpc.outType h +:+ ">{" +:+ nl +:+
  "  // add your code here" +:+ nl +:+
  "  return Promise.reject(new Error(" +:+ dq +:+ "not implemented" +:+ dq +:+ "));" +:+ nl +:+
  "}" +:+ nl.

Definition generateHandlerImport (name : string) (parse : list ServiceRpc) : string :=
  let handlers := map (fun p => Rpc.name p +:+ "Handler") parse in
  "import {" +:+ join ", " handlers +:+ "} from " +:+ dq +:+ "./" +:+ toLowerCase name +:+ "_handlers.js" +:+ dq +:+ ";".

Definition createService (service : ServiceParse) : string :=
  "  " +:+ nl +:+
  "const nc = await connect();" +:+ nl +:+
  "const srv = await nc.services.add({" +:+ nl +:+
  "  name: " +:+ dq +:+ Service.name service +:+ dq +:+ "," +:+ nl +:+
  "  version: " +:+ dq +:+ "0.0.1" +:+ dq +:+ "," +:+ nl +:+
  "  endpoint: {" +:+ nl +:+
  "    subject: " +:+ dq +:+ Service.name service +:+ dq +:+ "," +:+ nl +:+
  "    handler: null" +:+ nl +:+
  "  }" +:+ nl +:+
  "});" +:+ nl +:+
  nl +:+
  "srv.stopped.then((err) => {" +:+ nl +:+
  "  console.log(" +:+ dq +:+ "service stopped:" +:+ dq +:+ ", err?.message);" +:+ nl +:+
  "});" +:+ nl.

Definition addEndpoint (h : ServiceRpc) : string :=
  nl +:+
  "srv.addEndpoint(" +:+ dq +:+ Rpc.name h +:+ dq +:+ ", (err, m) => {" +:+ nl +:+
  "  // if we get an error from the subscription, stop" +:+ nl +:+
  "  if(err) {" +:+ nl +:+
  "    srv.stop(err);" +:+ nl +:+
  "    return;" +:+ nl +:+
  "  }" +:+ nl +:+
  "  const input = " +:+ Rpc.inType h +:+ ".decode(m?.data);" +:+ nl +:+
  "  " +:+ Rpc.name h +:+ "Handler(input)" +:+ nl +:+
  "    .then((o) => { " +:+ nl +:+
  "      m.respond(" +:+ Rpc.outType h +:+ ".encode(o).finish())" +:+ nl +:+
  "    })" +:+ nl +:+
  "    .catch((err) => { " +:+ nl +:+
  "      m.respondError(500, err.message); " +:+ nl +:+
  "    });" +:+ nl +:+
  "});" +:+ nl.

(** the [sections] array of [generateHandlers] *)
Definition handlerSections (service : ServiceParse) (genLibPath : string) : list string :=
  ["// edit your services here"] ++
  [generateImports (Service.rpcs service) genLibPath] ++
  map generateHandler (Service.rpcs service).

Definition handlersText (service : ServiceParse) (genLibPath : string) : string :=
  join nl (handlerSections service genLibPath).

Definition mainBanner (srv : ServiceParse) : string :=
  nl +:+
  "// This file implements the NATS service portion of your service." +:+ nl +:+
  "// The handlers for the various operations are defined in" +:+ nl +:+
  "// " +:+ toLowerCase (Service.name srv) +:+ "_handlers.ts file." +:+ nl +:+
  "// To build the service run: 'npm run generate'" +:+ nl +:+
  "// To start the service do: 'node " +:+ toLowerCase (Service.name srv) +:+ "_service.js' " +:+ nl +:+
  "// " +:+ nl +:+
  "// THE CONTENTS OF FILE IS GENERATED AND SHOULDN'T BE EDITED" +:+ nl +:+
  "// THIS TECHNOLOGY IS EXPERIMENTAL USE AT YOUR OWN RISK" +:+ nl.

(** the [sections] array of [generateMain] *)
Definition mainSections (srv : ServiceParse) (genLibPath : string) : list string :=
  [mainBanner srv] ++
  [generateHandlerImport (Service.name srv) (Service.rpcs srv)] ++
  [generateImports (Service.rpcs srv) genLibPath] ++
  ["import { connect, ServiceError } from " +:+ dq +:+ "nats" +:+ dq +:+ ";"] ++
  [createService srv] ++
  map addEndpoint (Service.rpcs srv).

Definition mainText (srv : ServiceParse) (genLibPath : string) : string :=
  join nl (mainSections srv genLibPath).

Definition clientClassOpen (srv : ServiceParse) : string :=
  nl +:+
  "export class " +:+ Service.name srv +:+ "Client {" +:+ nl +:+
  "  nc: NatsConnection;" +:+ nl +:+
  "  constructor(nc: NatsConnection) {" +:+ nl +:+
  "    this.nc = nc;" +:+ nl +:+
  "  }  " +:+ nl.

Definition clientMethod (srv : ServiceParse) (rpc : ServiceRpc) : string :=
  "  async " +:+ Rpc.name rpc +:+ "(data: " +:+ Rpc.inType rpc +:+ "): Promise<" +:+ Rpc.outType rpc +:+ "> {" +:+ nl +:+
  "    const r = await this.nc.request(" +:+ dq +:+ Service.name srv +:+ "." +:+ Rpc.name rpc +:+ dq +:+ ", " +:+ Rpc.inType rpc +:+ ".encode(data).finish());" +:+ nl +:+
  "    return " +:+ Rpc.outType rpc +:+ ".decode(r.data);" +:+ nl +:+
  "  }  " +:+ nl.

(** the [parts] array of [generateClient] *)
Definition clientParts (srv : ServiceParse) (protoLibName : string) : list string :=
  [clientBanner] ++
  [generateImports (Service.rpcs srv) protoLibName] ++
  ["import { NatsConnection, ServiceError } from " +:+ dq +:+ "nats" +:+ dq] ++
  [clientClassOpen srv] ++
  map (clientMethod srv) (Service.rpcs srv) ++
  ["}"].

Definition clientText (srv : ServiceParse) (protoLibName : string) : string :=
  join nl (clientParts srv protoLibName).

(** the object [pkg] of [generateNodePackage] *)
Definition pkg {P : PathLib} (protoPath : string) : json :=
  JObject
    [("name", JString "service");
     ("version", JString "1.0.0");
     ("description", JString "");
     ("main", JString "index.js");
     ("type", JString "module");
     ("scripts",
       JObject [("build", JString (buildScript protoPath));
                ("test", JString testScript)]);
     ("dependencies",
       JObject [("ts-proto", JString "^1.137.0");
                ("typescript", JString "^4.9.4")]);
     ("keywords", JArray []);
     ("author", JString "");
     ("license", JString "ISC")].

(** The body of the [while] loop of [parseProto]. *)
Fixpoint servicesLoop (ms : list mres) (services : list ServiceParse)
    : exn + list ServiceParse :=
  match ms with
  | [] => inr services
  | (caps, m0, _) :: ms' =>
      let name := nth 0 caps undefined in
      match matchG rpcRE m0 with
      | None => inl noRpcEntries
      | Some lines =>
          let rpcs := map rpcOfLine lines in
          servicesLoop ms' (services ++ [Service.mk name rpcs])
      end
  end.

Definition parseProtoText (proto : string) : exn + list ServiceParse :=
  servicesLoop (scan servicesRE 0 proto) [].

Definition parseProto (filePath : string) : io (list ServiceParse) :=
  let* proto := readTextFile filePath in
  match parseProtoText proto with
  | inl e => throw e
  | inr r => ret r
  end.

Definition generateHandlers {P : PathLib} (fn : string) (service : ServiceParse)
    (genLibPath : string) : io unit :=
  save (path_join fn (toLowerCase (Service.name service) +:+ "_handlers.ts"))
    (handlersText service genLibPath).

Definition generateMain {P : PathLib} (dir : string) (srv : ServiceParse)
    (genLibPath : string) : io unit :=
  save (path_join dir (toLowerCase (Service.name srv) +:+ "_service.ts"))
    (mainText srv genLibPath).

Definition generateClient {P : PathLib} (outDir : string) (srv : ServiceParse)
    (protoLibName : string) : io unit :=
  save (path_join outDir (toLowerCase (Service.name srv) +:+ "_client.ts"))
    (clientText srv protoLibName).

Definition generateNodePackage {P : PathLib} (filePath protoPath : string) : io unit :=
  saveJSON filePath (pkg protoPath).

Definition run {P : PathLib} (flags : Flags) : io Z :=
  let outDir := out flags in
  setClobber (force flags) ;;
  let protoPath := proto flags in
  if String.eqb protoPath "" then throw (Error "--proto is required") else
  let protoName := basename protoPath in
  let ext := extname protoName in
  let genLib :=
    String.substring 0 (String.length protoName - String.length ext) protoName in
  let* services := parseProto protoPath in
  let* e := exists_ outDir in
  (if e then
     let* c := getClobber in
     if negb c then throw (Error (outDir +:+ " exists --force to overwrite"))
     else ret tt
   else mkdir outDir) ;;
  copy protoPath (path_join outDir (basename protoPath)) ;;
  forOf services
    (fun s =>
       backupHandlers outDir s ;;
       generateHandlers outDir s genLib ;;
       generateMain outDir s genLib ;;
       generateClient outDir s genLib) ;;
  generateNodePackage (path_join outDir "package.json") protoPath ;;
  generateTscConfig (path_join outDir "tsconfig.json") ;;
  console_log "edit handlers path and run 'npm run build' to build" ;;
  ret 0%Z.

End PerService.

(** ** Sample inputs *)

(** A path library for inputs that are already in normal form: [join] puts
    a slash between its operands, [basename] is what follows the last
    slash, [extname] starts at the last dot of the base name (a leading
    dot starts no extension). *)
Fixpoint afterLast (sep : ascii) (s : string) : option string :=
  match s with
  | EmptyString => None
  | String c s' =>
      match afterLast sep s' with
      | Some t => Some t
      | None => if Ascii.eqb c sep then Some s' else None
      end
  end.

Definition simpleBasename (p : string) : string :=
  default p (afterLast "/" p).

Definition simpleExtname (p : string) : string :=
  match simpleBasename p with
  | EmptyString => EmptyString
  | String c b =>
      match afterLast "." b with
      | Some e => String "." e
      | None => EmptyString
      end
  end.

Definition simplePath : PathLib :=
  {| path_join a b := a +:+ "/" +:+ b;
     basename := simpleBasename;
     extname := simpleExtname |}.

Definition calcProto : string :=
  "syntax = 'proto3';
package Calc;
service Calc {
  rpc Add(AddRequest) returns (CalcResponse) {}
  rpc Average(AverageRequest) returns (CalcResponse) {}
}
".

(** ** Auxiliary definitions for the proofs *)

(** The elements of [l] in order, without those seen before. *)
Fixpoint firsts (seen l : list string) : list string :=
  match l with
  | [] => []
  | x :: l' =>
      if decide (x ∈ seen) then firsts seen l' else x :: firsts (seen ++ [x]) l'
  end.


(** Every character of [s] is in the class. *)
Fixpoint allb (cls : ascii -> bool) (s : string) : bool :=
  match s with
  | EmptyString => true
  | String c s' => cls c && allb cls s'
  end.

(** The first character of [s] is in the class. *)
Definition startsWith (cls : ascii -> bool) (s : string) : bool :=
  match s with
  | EmptyString => false
  | String c _ => cls c
  end.

(** The longest prefix of [s] in the class, and what follows it. *)
Fixpoint span (cls : ascii -> bool) (s : string) : string * string :=
  match s with
  | EmptyString => (EmptyString, EmptyString)
  | String c s' =>
      if cls c then let '(w, r) := span cls s' in (String c w, r)
      else (EmptyString, s)
  end.

(** The texts a pattern denotes, whatever the order in which the matcher
    tries them. *)
Fixpoint Lang (re : regex) (m : string) : Prop :=
  match re with
  | [] => m = EmptyString
  | Lit l :: re' => exists m', m = l +:+ m' /\ Lang re' m'
  | Rep cls q :: re' | Cap cls q :: re' =>
      exists w m', m = w +:+ m' /\ allb cls w = true /\
        (q = OneOrMore -> w <> EmptyString) /\ Lang re' m'
  end.

(** The number of capturing groups of a pattern. *)
Fixpoint groups (re : regex) : nat :=
  match re with
  | [] => 0
  | Cap _ _ :: re' => S (groups re')
  | _ :: re' => groups re'
  end.

(** [p] occurs in [t], as a test. *)
Fixpoint occursb (p t : string) : bool :=
  match strip_prefix p t with
  | Some _ => true
  | None =>
      match t with
      | String _ t' => occursb p t'
      | EmptyString => false
      end
  end.

(** The service a match of [servicesRE] yields, when its text has [rpc]
    lines. *)
Definition serviceOf (r : mres) : option ProtoService :=
  match matchG rpcRE (matched r) with
  | None => None
  | Some lines => Some (Service.mk (nth 0 (captures r) undefined) (map rpcOfLine lines))
  end.

(** [q] starts with a package declaration: the word [package], white
    space, and a word character. *)
Definition StartsPackageDecl (q : string) : Prop :=
  exists ws c tail,
    q = "package" +:+ ws +:+ String c tail /\
    ws <> EmptyString /\ allb isSpace ws = true /\ isWord c = true.

(** A declaration header at the start of [s]: the keyword, the longest run
    of white space, the longest run of word characters; both runs are not
    empty. *)
Definition declAt (kw s : string) : option (string * string * string) :=
  match strip_prefix kw s with
  | None => None
  | Some s1 =>
      let '(ws, s2) := span isSpace s1 in
      let '(id, rest) := span isWord s2 in
      match ws, id with
      | EmptyString, _ => None
      | _, EmptyString => None
      | _, _ => Some (ws, id, rest)
      end
  end.

(** The services of a list of matches of [servicesRE], when each has [rpc]
    lines. *)
Fixpoint servicesOf (ms : list mres) : option (list ProtoService) :=
  match ms with
  | [] => Some []
  | r :: ms' =>
      match serviceOf r, servicesOf ms' with
      | Some s, Some ss => Some (s :: ss)
      | _, _ => None
      end
  end.

(** A schema without a package line, and one without a service. *)
Definition noPackageProto : string :=
  "syntax = 'proto3';
service Calc {
  rpc Add(AddRequest) returns (CalcResponse) {}
}
".

Definition noServiceProto : string :=
  "syntax = 'proto3';
package Calc;
message AddRequest { repeated double Values = 1; }
".

(** A schema whose second service block has no [rpc] line of the
    recognized shape (its only one is a streaming RPC). *)
Definition emptyBlockProto : string :=
  "package Calc;
service Calc {
  rpc Add(AddRequest) returns (CalcResponse) {}
}
service Feed {
  rpc Watch(WatchRequest) returns (stream Tick) {
  }
}
".

(** The model of [calcProto]. *)
Definition addRpc : ProtoRpc := Rpc.mk "Add" "AddRequest" "CalcResponse".
Definition averageRpc : ProtoRpc := Rpc.mk "Average" "AverageRequest" "CalcResponse".
Definition calcService : ProtoService := Service.mk "Calc" [addRpc; averageRpc].
Definition calcModel : ProtoParse := mkParse "Calc" [calcService].


(** An output directory of an earlier run, with an edited stub file. *)
Definition editedStub : string := "// my handlers, edited by hand".

Definition editedWorld : world :=
  mkWorld
    (<["service.proto" := File calcProto]>
       (<["out" := Dir]>
          (<["out/calc_handlers.ts" := File editedStub]> ∅)))
    false [].

Definition forcedFlags : Flags := mkFlags "out" true "service.proto".
Definition plainFlags : Flags := mkFlags "out" false "service.proto".

(** The same schema with the service named in lower case. *)
Definition lowerProto : string :=
  "syntax = 'proto3';
package calc;
service calc {
  rpc Add(AddRequest) returns (CalcResponse) {}
}
".

Definition lowerWorld : world :=
  mkWorld
    (<["service.proto" := File lowerProto]>
       (<["out" := Dir]>
          (<["out/calc_handlers.ts" := File editedStub]> ∅)))
    false [].

(** [ev] is a write to the path [p]. *)
Definition wroteTo (p : string) (ev : event) : bool :=
  match ev with
  | Wrote q _ => String.eqb q p
  | _ => false
  end.

(** A schema with two services. *)
Definition twoServicesProto : string :=
  "syntax = 'proto3';
package Calc;
service Calc {
  rpc Add(AddRequest) returns (CalcResponse) {}
}
service Stats {
  rpc Average(AverageRequest) returns (CalcResponse) {}
}
".

Definition twoServicesWorld : world :=
  mkWorld (<["service.proto" := File twoServicesProto]> ∅) false [].
(** ** Reading the model off the text *)

(** The texts a pattern denotes, with what its groups capture. *)
Fixpoint LangC (re : regex) (caps : list string) (m : string) : Prop :=
  match re with
  | [] => caps = [] /\ m = EmptyString
  | Lit l :: re' => exists m', m = l +:+ m' /\ LangC re' caps m'
  | Rep cls q :: re' =>
      exists w m', m = w +:+ m' /\ allb cls w = true /\
        (q = OneOrMore -> w <> EmptyString) /\ LangC re' caps m'
  | Cap cls q :: re' =>
      exists w caps' m', caps = w :: caps' /\ m = w +:+ m' /\ allb cls w = true /\
        (q = OneOrMore -> w <> EmptyString) /\ LangC re' caps' m'
  end.

(** The successive matches of a pattern in a text, as the loop over [exec]
    finds them: before the first match no text of the pattern starts, the
    match is a text of the pattern, and the next ones are those of the
    text after it; where the list ends no text of the pattern is left. *)
Inductive Scanned (re : regex) : string -> list string -> Prop :=
| Scanned_nil (s : string) :
    (forall pre m post, s = pre +:+ m +:+ post -> ~ Lang re m) ->
    Scanned re s []
| Scanned_cons (gap m rest : string) (ms : list string) :
    Lang re m -> m <> EmptyString ->
    (forall p q x y, gap = p +:+ q -> q <> EmptyString ->
       q +:+ m +:+ rest = x +:+ y -> ~ Lang re x) ->
    Scanned re rest ms ->
    Scanned re (gap +:+ m +:+ rest) (m :: ms).

Definition spaces (ws : string) : Prop := ws <> EmptyString /\ allb isSpace ws = true.
Definition identifier (id : string) : Prop := id <> EmptyString /\ allb isWord id = true.
Definition typeName (t : string) : Prop := t <> EmptyString /\ allb isNonSpace t = true.

(** [line] declares the RPC [rpc] in the shape [rpcRE] recognizes. *)
Definition IsRpcLine (rpc : ProtoRpc) (line : string) : Prop :=
  exists ws1 ws2 ws3 ws4,
    line = "rpc" +:+ ws1 +:+ Rpc.name rpc +:+ "(" +:+ Rpc.inType rpc +:+ ")" +:+ ws2 +:+
           "returns" +:+ ws3 +:+ "(" +:+ Rpc.outType rpc +:+ ")" +:+ ws4 +:+ "{}"
    /\ spaces ws1 /\ spaces ws2 /\ spaces ws3 /\ spaces ws4
    /\ identifier (Rpc.name rpc)
    /\ typeName (Rpc.inType rpc) /\ typeName (Rpc.outType rpc).

(** the two closing braces that end a service block *)
Definition closing : string := "}" +:+ nl +:+ "}".

(** [block] is the block of the service [s]: the header with the whole
    identifier as the name, the text up to the first [closing], and the
    successive RPC lines of the block are those of [s], in order. *)
Definition IsServiceBlock (s : ProtoService) (block : string) : Prop :=
  exists ws body lines,
    block = "service" +:+ ws +:+ Service.name s +:+ body +:+ closing
    /\ spaces ws /\ identifier (Service.name s)
    /\ startsWith isWord body = false
    /\ (forall p q, body +:+ closing = p +:+ closing +:+ q -> q = EmptyString)
    /\ Scanned rpcRE block lines
    /\ Forall2 IsRpcLine (Service.rpcs s) lines
    /\ lines <> [].

(** ** What a run may touch *)

(** The suffixes of the generated file names, in [generator.ts] and in the
    per-service variant. *)
Definition suffixes : list string :=
  ["_handlers.ts"; "_handlers.bak"; "_service.ts"; "_clients.ts"].

Definition perServiceSuffixes : list string :=
  ["_handlers.ts"; "_handlers.bak"; "_service.ts"; "_client.ts"].

(** The names of the files a run may write under the output directory:
    the base name of the schema, the manifest, the compiler
    configuration, and a name made of word characters, in lower case,
    followed by one of the suffixes. *)
Definition OutputName {P : PathLib} (sfx : list string) (protoPath x : string) : Prop :=
  x = basename protoPath \/ x = "package.json" \/ x = "tsconfig.json"
  \/ exists n suffix,
       allb isWord n = true /\ suffix ∈ sfx /\ x = toLowerCase n +:+ suffix.

(** The events a run may leave: making the output directory, writing a
    file with an output name directly under it, and console lines. *)
Definition outputEvent {P : PathLib} (sfx : list string) (outDir protoPath : string)
    (ev : event) : Prop :=
  match ev with
  | Wrote p _ => exists x, OutputName sfx protoPath x /\ p = path_join outDir x
  | MadeDir p => p = outDir
  | Log _ | LogError _ => True
  end.

(** From [w] to [w'] only [outDir] and the output names under it have
    changed, nothing was removed, and the trace grew by output events. *)
Definition Within {P : PathLib} (sfx : list string) (outDir protoPath : string)
    (w w' : world) : Prop :=
  (forall p, p <> outDir ->
     (forall x, OutputName sfx protoPath x -> p <> path_join outDir x) ->
     fs w' !! p = fs w !! p)
  /\ (forall p, is_Some (fs w !! p) -> is_Some (fs w' !! p))
  /\ (exists evs, trace w' = trace w ++ evs
        /\ Forall (outputEvent sfx outDir protoPath) evs).

Definition Confined {P : PathLib} {A} (sfx : list string) (outDir protoPath : string)
    (m : io A) : Prop :=
  forall w, Within sfx outDir protoPath w (m w).2.

(** The file names a run generates for a model, besides the copy of the
    schema. *)
Definition generatedNames (parse : ProtoParse) : list string :=
  map (fun s => toLowerCase (Service.name s) +:+ "_handlers.ts") (services parse) ++
  map (fun s => toLowerCase (Service.name s) +:+ "_handlers.bak") (services parse) ++
  [toLowerCase (packageName parse) +:+ "_service.ts";
   toLowerCase (packageName parse) +:+ "_clients.ts";
   "package.json"; "tsconfig.json"].

(** [genLib] of [run]: the base name of the schema without its extension. *)
Definition genLibOf {P : PathLib} (protoPath : string) : string :=
  let protoName := basename protoPath in
  let ext := extname protoName in
  String.substring 0 (String.length protoName - String.length ext) protoName.

(** The names of the stub file and of its back-up. *)
Definition stubName (s : ProtoService) : string :=
  toLowerCase (Service.name s) +:+ "_handlers.ts".

Definition bakName (s : ProtoService) : string :=
  toLowerCase (Service.name s) +:+ "_handlers.bak".

(** The body of the loop of [run] over the services, in [generator.ts]
    and in the per-service variant. *)
Definition stubStep {P : PathLib} (outDir genLib : string) (s : ProtoService) : io unit :=
  backupHandlers outDir s ;; generateStubs outDir s genLib.

Definition perServiceStep {P : PathLib} (outDir genLib : string) (s : ProtoService)
    : io unit :=
  backupHandlers outDir s ;;
  PerService.generateHandlers outDir s genLib ;;
  PerService.generateMain outDir s genLib ;;
  PerService.generateClient outDir s genLib.

(** ** Strings: append, join, occurrence *)

Lemma sapp_nil_l (s : string) : "" +:+ s = s.
Proof. reflexivity. Qed.

Lemma sapp_cons (c : ascii) (s t : string) : String c s +:+ t = String c (s +:+ t).
Proof. reflexivity. Qed.

Lemma sapp_nil_r (s : string) : s +:+ "" = s.
Proof. induction s as [|c s IH]; [reflexivity|]. rewrite sapp_cons, IH. reflexivity. Qed.

Lemma sapp_assoc (s t u : string) : (s +:+ t) +:+ u = s +:+ t +:+ u.
Proof.
  induction s as [|c s IH]; [reflexivity|].
  rewrite !sapp_cons, IH. reflexivity.
Qed.

Lemma slength_app (s t : string) :
  String.length (s +:+ t) = String.length s + String.length t.
Proof.
  induction s as [|c s IH]; [reflexivity|].
  rewrite sapp_cons. simpl. rewrite IH. reflexivity.
Qed.

Lemma join_cons (sep x : string) (l : list string) :
  join sep (x :: l) = match l with [] => x | _ => x +:+ sep +:+ join sep l end.
Proof. destruct l; reflexivity. Qed.

Lemma join_cons_ne (sep x : string) (l : list string) :
  l <> [] -> join sep (x :: l) = x +:+ sep +:+ join sep l.
Proof. by destruct l. Qed.

Lemma join_empty_cons (x : string) (l : list string) :
  join "" (x :: l) = x +:+ join "" l.
Proof. destruct l; [by rewrite sapp_nil_r|done]. Qed.

Lemma join_app (sep : string) (l1 l2 : list string) :
  l1 <> [] -> l2 <> [] ->
  join sep (l1 ++ l2) = join sep l1 +:+ sep +:+ join sep l2.
Proof.
  intros H1 H2. induction l1 as [|x l1 IH]; [done|].
  destruct l1 as [|y l1].
  - simpl. destruct l2; [done|]. reflexivity.
  - change ((x :: y :: l1) ++ l2) with (x :: (y :: l1) ++ l2).
    rewrite (join_cons sep x ((y :: l1) ++ l2)). simpl app at 1.
    rewrite IH by done. rewrite (join_cons sep x (y :: l1)).
    rewrite !sapp_assoc. reflexivity.
Qed.

Lemma Occurs_refl (s : string) : Occurs s s.
Proof. exists "", "". rewrite sapp_nil_r. reflexivity. Qed.

Lemma Occurs_app_r (p s t : string) : Occurs p t -> Occurs p (s +:+ t).
Proof.
  intros (a & b & ->). exists (s +:+ a), b. rewrite !sapp_assoc. reflexivity.
Qed.

Lemma Occurs_app_l (p s t : string) : Occurs p s -> Occurs p (s +:+ t).
Proof.
  intros (a & b & ->). exists a, (b +:+ t). rewrite !sapp_assoc. reflexivity.
Qed.

Lemma Occurs_trans (p q t : string) : Occurs p q -> Occurs q t -> Occurs p t.
Proof.
  intros (a & b & ->) (c & d & ->). exists (c +:+ a), (b +:+ d).
  rewrite !sapp_assoc. reflexivity.
Qed.

Lemma Occurs_join (sep x : string) (l : list string) :
  x ∈ l -> Occurs x (join sep l).
Proof.
  induction l as [|y l IH]; intros Hin; [by apply elem_of_nil in Hin|].
  rewrite join_cons. apply elem_of_cons in Hin as [->|Hin].
  - destruct l; [apply Occurs_refl|apply Occurs_app_l, Occurs_refl].
  - destruct l as [|z l]; [by apply elem_of_nil in Hin|].
    apply Occurs_app_r, Occurs_app_r, IH, Hin.
Qed.

Lemma strip_prefix_Some (l s t : string) :
  strip_prefix l s = Some t <-> s = l +:+ t.
Proof.
  revert s. induction l as [|a l IH]; intros s; simpl.
  - rewrite sapp_nil_l. split; congruence.
  - destruct s as [|b s]; [split; [done|by rewrite sapp_cons]|].
    rewrite sapp_cons. destruct (Ascii.eqb_spec a b) as [->|Hne].
    + rewrite IH. split; congruence.
    + split; [done|]. intros [=]. done.
Qed.

Lemma strip_prefix_app (l t : string) : strip_prefix l (l +:+ t) = Some t.
Proof. by apply strip_prefix_Some. Qed.

Lemma occursb_Occurs (p t : string) : occursb p t = true <-> Occurs p t.
Proof.
  induction t as [|c t IH].
  - simpl. destruct (strip_prefix p "") as [r|] eqn:E.
    + apply strip_prefix_Some in E. split; [|done]. intros _.
      exists "", r. by rewrite sapp_nil_l.
    + split; [done|]. intros (a & b & H). destruct a; [|done].
      rewrite sapp_nil_l in H. apply strip_prefix_Some in H. congruence.
  - simpl. destruct (strip_prefix p (String c t)) as [r|] eqn:E.
    + apply strip_prefix_Some in E. split; [|done]. intros _.
      exists "", r. by rewrite sapp_nil_l.
    + rewrite IH. split.
      * intros (a & b & ->). exists (String c a), b. by rewrite sapp_cons.
      * intros (a & b & H). destruct a as [|c' a].
        -- rewrite sapp_nil_l in H. apply strip_prefix_Some in H. congruence.
        -- rewrite sapp_cons in H. injection H as _ ->. by exists a, b.
Qed.

Lemma join_mid (sep x : string) (l1 l2 : list string) :
  exists a b, join sep (l1 ++ x :: l2) = a +:+ x +:+ b
    /\ (forall l0, l0 <> [] -> join sep (l0 ++ l1 ++ x :: l2) = join sep l0 +:+ sep +:+ a +:+ x +:+ b).
Proof.
  assert (Hone : exists a b, join sep (l1 ++ x :: l2) = a +:+ x +:+ b).
  { destruct (Occurs_join sep x (l1 ++ x :: l2)) as (a & b & H).
    - apply elem_of_app. right. by left.
    - by exists a, b. }
  destruct Hone as (a & b & H). exists a, b. split; [done|].
  intros l0 Hl0. rewrite join_app; [|done|by destruct l1]. by rewrite H.
Qed.

(** Two sections, the first before the second. *)
Lemma join_two (sep x y : string) (l1 l2 l3 : list string) :
  exists a b c, join sep (l1 ++ x :: l2 ++ y :: l3) = a +:+ x +:+ b +:+ y +:+ c.
Proof.
  destruct (join_mid sep y l2 l3) as (b & c & Hb & _).
  destruct l1 as [|z l1].
  - exists "", (sep +:+ b), c. simpl app. rewrite join_cons.
    destruct (l2 ++ y :: l3) eqn:E; [by destruct l2|]. rewrite Hb.
    rewrite sapp_nil_l, !sapp_assoc. reflexivity.
  - exists (join sep (z :: l1) +:+ sep), (sep +:+ b), c.
    rewrite join_app; [|done..]. rewrite (join_cons sep x).
    destruct (l2 ++ y :: l3) eqn:E; [by destruct l2|]. rewrite Hb.
    rewrite !sapp_assoc. reflexivity.
Qed.

(** Finding an occurrence among the pieces of a template. *)
Lemma occurs_skip (x t a r : string) : t = a +:+ r -> x +:+ t = (x +:+ a) +:+ r.
Proof. intros ->. by rewrite sapp_assoc. Qed.

Lemma occurs_stop (t r : string) : t = r -> t = "" +:+ r.
Proof. by intros ->. Qed.

Lemma prefix_step (a t p c : string) : t = p +:+ c -> a +:+ t = (a +:+ p) +:+ c.
Proof. intros ->. by rewrite sapp_assoc. Qed.

Lemma prefix_end (a : string) : a = a +:+ "".
Proof. by rewrite sapp_nil_r. Qed.

Ltac prefix_tac := repeat apply prefix_step; first [reflexivity | apply prefix_end].

Ltac occurs_search :=
  first [ apply occurs_stop; solve [prefix_tac] | apply occurs_skip; occurs_search ].

Ltac occurs_tac := eexists _, _; occurs_search.

(** ** Import lists: first occurrences, then sorted *)

Lemma indexOf_nonneg_or (l : list string) (e : string) :
  indexOf l e = (-1)%Z \/ (0 <= indexOf l e < Z.of_nat (length l))%Z.
Proof.
  induction l as [|x l IH]; simpl; [by left|].
  destruct (String.eqb x e); [right; lia|].
  destruct IH as [->|IH]; [by left|].
  destruct (Z.ltb_spec (indexOf l e) 0); [lia|right; lia].
Qed.

Lemma indexOf_elem (pre suf : list string) (e : string) :
  e ∈ pre -> (0 <= indexOf (pre ++ suf) e < Z.of_nat (length pre))%Z.
Proof.
  induction pre as [|x pre IH]; intros Hin; [by apply elem_of_nil in Hin|].
  simpl. destruct (String.eqb_spec x e) as [->|Hne]; [lia|].
  apply elem_of_cons in Hin as [->|Hin]; [done|].
  specialize (IH Hin). destruct (Z.ltb_spec (indexOf (pre ++ suf) e) 0); lia.
Qed.

Lemma indexOf_first (pre suf : list string) (e : string) :
  e ∉ pre -> indexOf (pre ++ e :: suf) e = Z.of_nat (length pre).
Proof.
  induction pre as [|x pre IH]; intros Hnin; simpl.
  - by rewrite String.eqb_refl.
  - apply not_elem_of_cons in Hnin as [Hne Hnin].
    destruct (String.eqb_spec x e) as [->|_]; [done|].
    rewrite (IH Hnin). destruct (Z.ltb_spec (Z.of_nat (length pre)) 0); lia.
Qed.

Lemma firsts_seen_equiv (s1 s2 l : list string) :
  (forall z, z ∈ s1 <-> z ∈ s2) -> firsts s1 l = firsts s2 l.
Proof.
  revert s1 s2. induction l as [|y l IH]; intros s1 s2 Heq; [reflexivity|].
  simpl. destruct (decide (y ∈ s1)) as [H1|H1]; destruct (decide (y ∈ s2)) as [H2|H2].
  - by apply IH.
  - by apply Heq in H1.
  - by apply Heq in H2.
  - f_equal. apply IH. intros z. rewrite !elem_of_app, Heq. reflexivity.
Qed.

Lemma filter_from_firsts (pre suf : list string) :
  filter_from (fun e idx => (indexOf (pre ++ suf) e =? Z.of_nat idx)%Z)
    (length pre) suf = firsts pre suf.
Proof.
  revert pre. induction suf as [|x suf IH]; intros pre; [reflexivity|].
  specialize (IH (pre ++ [x])). rewrite <- app_assoc, length_app in IH.
  simpl in IH. rewrite Nat.add_1_r in IH.
  simpl. rewrite IH. destruct (decide (x ∈ pre)) as [Hin|Hnin].
  - pose proof (indexOf_elem pre (x :: suf) x Hin) as Hlt.
    destruct (Z.eqb_spec (indexOf (pre ++ x :: suf) x) (Z.of_nat (length pre))); [lia|].
    apply firsts_seen_equiv. intros z.
    rewrite elem_of_app, list_elem_of_singleton.
    split; [intros [?| ->]; done|intros ?; by left].
  - by rewrite (indexOf_first pre suf x Hnin), Z.eqb_refl.
Qed.

Lemma dedup_firsts (l : list string) : dedup l = firsts [] l.
Proof. apply (filter_from_firsts [] l). Qed.

Lemma firsts_elem (seen l : list string) (x : string) :
  x ∈ firsts seen l <-> x ∈ l /\ x ∉ seen.
Proof.
  revert seen. induction l as [|y l IH]; intros seen; simpl.
  - split; [intros H; by apply elem_of_nil in H|intros [H _]; by apply elem_of_nil in H].
  - destruct (decide (y ∈ seen)) as [Hy|Hy].
    + rewrite IH, elem_of_cons. split; [intros [? ?]; split; [by right|done]|].
      intros [[->|H] Hn]; [done|by split].
    + rewrite elem_of_cons, IH, elem_of_cons, elem_of_app, list_elem_of_singleton.
      split.
      * intros [->|[H Hn]]; [by split; [left|]|]. split; [by right|]. tauto.
      * intros [[->|H] Hn]; [by left|].
        destruct (decide (x = y)) as [->|Hne]; [by left|right]. split; [done|]. tauto.
Qed.

Lemma firsts_NoDup (seen l : list string) : NoDup (firsts seen l).
Proof.
  revert seen. induction l as [|y l IH]; intros seen; simpl; [constructor|].
  destruct (decide (y ∈ seen)); [apply IH|].
  constructor; [|apply IH].
  rewrite firsts_elem, elem_of_app, list_elem_of_singleton. tauto.
Qed.

Lemma dedup_elem (l : list string) (x : string) : x ∈ dedup l <-> x ∈ l.
Proof.
  rewrite dedup_firsts, firsts_elem. split; [tauto|].
  intros H. split; [done|]. apply not_elem_of_nil.
Qed.

Lemma dedup_NoDup (l : list string) : NoDup (dedup l).
Proof. rewrite dedup_firsts. apply firsts_NoDup. Qed.

Lemma sort_sorted (l : list string) : StronglySorted String.le (sort l).
Proof. apply StronglySorted_merge_sort; apply _. Qed.

Lemma sort_perm (l : list string) : sort l ≡ₚ l.
Proof. apply merge_sort_Permutation. Qed.

(** Two lists with the same elements have the same sorted first
    occurrences. *)
Lemma sort_dedup_ext (l1 l2 : list string) :
  (forall x, x ∈ l1 <-> x ∈ l2) -> sort (dedup l1) = sort (dedup l2).
Proof.
  intros Heq. apply (StronglySorted_unique String.le); try apply sort_sorted.
  rewrite !sort_perm. apply NoDup_Permutation; try apply dedup_NoDup.
  intros x. rewrite !dedup_elem. apply Heq.
Qed.

Lemma sort_dedup_elem (l : list string) (x : string) :
  x ∈ sort (dedup l) <-> x ∈ l.
Proof. rewrite sort_perm. apply dedup_elem. Qed.

Lemma sort_dedup_NoDup (l : list string) : NoDup (sort (dedup l)).
Proof. rewrite sort_perm. apply dedup_NoDup. Qed.

Lemma rpcTypes_elem (rpcs : list ProtoRpc) (x : string) :
  x ∈ rpcTypes rpcs <->
  exists r, r ∈ rpcs /\ (x = Rpc.inType r \/ x = Rpc.outType r).
Proof.
  unfold rpcTypes. rewrite list_elem_of_In, in_flat_map. split.
  - intros (r & Hr & Hx). exists r. rewrite list_elem_of_In. split; [done|].
    simpl in Hx. destruct Hx as [<-|[<-|[]]]; [by right|by left].
  - intros (r & Hr & Hx). exists r. rewrite <- list_elem_of_In. split; [done|].
    simpl. destruct Hx as [->| ->]; [right; by left|by left].
Qed.

(** C7.  The import list of a list of RPCs is the list [L] of their
    [inType] and [outType] identifiers without duplicates and in ascending
    lexicographic order; both variants render exactly this list; the
    rendered text is the same for every permutation of the RPC list; and
    resolving the list [L] again gives the same text. *)
Theorem import_list_sorted_dedup_stable (rpcs : list ProtoRpc) (lib : string) :
  exists L : list string,
    generateImport (rpcTypes rpcs) lib =
      "import { " +:+ join ", " L +:+ " } from " +:+ dq +:+ "./" +:+ lib +:+ ".js" +:+ dq +:+ ";"
    /\ PerService.generateImports rpcs lib =
      "import {" +:+ join ", " L +:+ "} from " +:+ dq +:+ "./" +:+ lib +:+ ".js" +:+ dq +:+ ";"
    /\ NoDup L
    /\ StronglySorted String.le L
    /\ (forall x, x ∈ L <->
          exists r, r ∈ rpcs /\ (x = Rpc.inType r \/ x = Rpc.outType r))
    /\ (forall rpcs', rpcs' ≡ₚ rpcs ->
          generateImport (rpcTypes rpcs') lib = generateImport (rpcTypes rpcs) lib
          /\ PerService.generateImports rpcs' lib = PerService.generateImports rpcs lib)
    /\ sort (dedup L) = L
    /\ generateImport L lib = generateImport (rpcTypes rpcs) lib.
Proof.
  exists (sort (dedup (rpcTypes rpcs))).
  assert (Hidem : sort (dedup (sort (dedup (rpcTypes rpcs)))) = sort (dedup (rpcTypes rpcs))).
  { apply sort_dedup_ext. intros x. apply sort_dedup_elem. }
  split_and!.
  - reflexivity.
  - reflexivity.
  - apply sort_dedup_NoDup.
  - apply sort_sorted.
  - intros x. rewrite sort_dedup_elem. apply rpcTypes_elem.
  - intros rpcs' Hperm.
    assert (Heq : sort (dedup (rpcTypes rpcs')) = sort (dedup (rpcTypes rpcs))).
    { apply sort_dedup_ext. intros x. rewrite !rpcTypes_elem.
      split; intros (r & Hr & Hx); exists r; split; try done.
      - by rewrite <- Hperm.
      - by rewrite Hperm. }
    unfold generateImport, PerService.generateImports. rewrite Heq. done.
  - exact Hidem.
  - unfold generateImport. rewrite Hidem. reflexivity.
Qed.

(** ** Names across the artifacts *)

Lemma flat_map_split {A B} (f : A -> B) (g : A -> list B) (l : list A) (x : A)
    (r1 r2 : list B) (y : B) :
  x ∈ l -> g x = r1 ++ y :: r2 ->
  exists l1 l3,
    flat_map (fun a => f a :: g a) l = l1 ++ f x :: r1 ++ y :: l3.
Proof.
  intros (s1 & s2 & ->)%list_elem_of_split Hg.
  exists (flat_map (fun a => f a :: g a) s1),
         (r2 ++ flat_map (fun a => f a :: g a) s2).
  rewrite flat_map_app. simpl. rewrite Hg, <- app_assoc. reflexivity.
Qed.

Lemma mainSections_split (parse : ProtoParse) (genLib : string)
    (srv : ProtoService) (rpc : ProtoRpc) :
  srv ∈ services parse -> rpc ∈ Service.rpcs srv ->
  exists l1 l2 l3,
    mainSections parse genLib =
      l1 ++ addGroup srv :: l2 ++ addEndpoint srv rpc :: l3.
Proof.
  intros Hsrv (r1 & r2 & Hr)%list_elem_of_split.
  destruct (flat_map_split addGroup
              (fun s => map (addEndpoint s) (Service.rpcs s))
              (services parse) srv (map (addEndpoint srv) r1)
              (map (addEndpoint srv) r2) (addEndpoint srv rpc) Hsrv)
    as (l1 & l3 & HF).
  { rewrite Hr, map_app. reflexivity. }
  unfold mainSections. rewrite HF, !app_assoc.
  eexists _, _, _. reflexivity.
Qed.

Lemma clientParts_split (parse : ProtoParse) (genLib : string)
    (srv : ProtoService) (rpc : ProtoRpc) :
  srv ∈ services parse -> rpc ∈ Service.rpcs srv ->
  exists l1 l2 l3,
    clientParts parse genLib =
      l1 ++ clientClassOpen srv :: l2 ++ clientMethod srv rpc :: l3.
Proof.
  intros Hsrv (r1 & r2 & Hr)%list_elem_of_split.
  destruct (flat_map_split clientClassOpen
              (fun s => map (clientMethod s) (Service.rpcs s) ++ ["}"])
              (services parse) srv (map (clientMethod srv) r1)
              (map (clientMethod srv) r2 ++ ["}"]) (clientMethod srv rpc) Hsrv)
    as (l1 & l3 & HF).
  { rewrite Hr, map_app, <- app_assoc. reflexivity. }
  unfold clientParts. rewrite HF, !app_assoc.
  eexists _, _, _. reflexivity.
Qed.

Lemma stubSections_split (srv : ProtoService) (genLib : string) (rpc : ProtoRpc) :
  rpc ∈ Service.rpcs srv ->
  exists l1 l2 l3,
    stubSections srv genLib =
      l1 ++ ("export namespace " +:+ Service.name srv +:+ " {") :: l2 ++
      generateHandler rpc :: l3.
Proof.
  intros (r1 & r2 & Hr)%list_elem_of_split.
  unfold stubSections. rewrite Hr, map_app.
  eexists [_; _], (map generateHandler r1), (map generateHandler r2 ++ ["}"]).
  simpl. rewrite <- app_assoc. reflexivity.
Qed.

(** C1.  For every service [srv] of a model and every RPC [rpc] of it: the
    service module registers the group named after the service and then,
    on that group, the endpoint named after the RPC (an endpoint [R] of a
    group [S] listens on the subject [S.R]), whose handler calls
    [<rpcName>Handler] of the namespace of the service, which the module
    imports from the stub file; the client module has, in the class of the
    service, a method named after the RPC that sends its request to the
    subject [<serviceName>.<rpcName>]; the stub file of the service declares
    the function [<rpcName>Handler] in the namespace of the service. *)
Theorem names_agree_across_artifacts
    (parse : ProtoParse) (genLib : string) (srv : ProtoService) (rpc : ProtoRpc) :
  srv ∈ services parse ->
  rpc ∈ Service.rpcs srv ->
  let S := Service.name srv in
  let R := Rpc.name rpc in
  (exists a b c,
      mainText parse genLib =
        a +:+ ("const " +:+ toLowerCase S +:+ " = srv.addGroup(" +:+ dq +:+ S +:+ dq +:+ ");")
          +:+ b +:+ addEndpoint srv rpc +:+ c)
  /\ Occurs (toLowerCase S +:+ ".addEndpoint(" +:+ dq +:+ R +:+ dq +:+ ", (err, m) => {")
       (addEndpoint srv rpc)
  /\ Occurs ("  " +:+ S +:+ "." +:+ R +:+ "Handler(input)" +:+ nl) (addEndpoint srv rpc)
  /\ Occurs ("import { " +:+ S +:+ " } from " +:+ dq +:+ "./" +:+ toLowerCase S +:+ "_handlers.js" +:+ dq +:+ ";")
       (mainText parse genLib)
  /\ (exists a b c,
        clientText parse genLib =
          a +:+ ("export class " +:+ S +:+ "Client {") +:+ b +:+ clientMethod srv rpc +:+ c)
  /\ Occurs ("  async " +:+ R +:+ "(data: " +:+ Rpc.inType rpc +:+ "): Promise<" +:+ Rpc.outType rpc +:+ "> {" +:+ nl +:+
            "    const r = await this.nc.request(" +:+ dq +:+ S +:+ "." +:+ R +:+ dq +:+ ", ")
       (clientMethod srv rpc)
  /\ (exists a b c,
        stubsText srv genLib =
          a +:+ ("export namespace " +:+ S +:+ " {") +:+ b +:+
          ("export function " +:+ R +:+ "Handler(r: " +:+ Rpc.inType rpc +:+ "): Promise<" +:+ Rpc.outType rpc +:+ ">{") +:+ c).
Proof.
  intros Hsrv Hrpc S R. split_and!.
  - destruct (mainSections_split parse genLib srv rpc Hsrv Hrpc) as (l1 & l2 & l3 & H).
    unfold mainText. rewrite H. apply join_two.
  - unfold addEndpoint. occurs_tac.
  - unfold addEndpoint. occurs_tac.
  - unfold mainText. apply Occurs_join. unfold mainSections.
    rewrite !elem_of_app. do 3 right. left. apply list_elem_of_fmap.
    exists srv. split; [reflexivity|done].
  - destruct (clientParts_split parse genLib srv rpc Hsrv Hrpc) as (l1 & l2 & l3 & H).
    unfold clientText. rewrite H.
    destruct (join_two nl (clientClassOpen srv) (clientMethod srv rpc) l1 l2 l3)
      as (a & b & c & ->).
    unfold clientClassOpen. fold S.
    exists (a +:+ nl), ((nl +:+
  "  nc: NatsConnection;" +:+ nl +:+
  "  constructor(nc: NatsConnection) {" +:+ nl +:+
  "    this.nc = nc;" +:+ nl +:+
  "  }" +:+ nl) +:+ b), c. rewrite ?sapp_assoc. reflexivity.
  - unfold clientMethod. occurs_tac.
  - destruct (stubSections_split srv genLib rpc Hrpc) as (l1 & l2 & l3 & H).
    unfold stubsText. rewrite H.
    match goal with |- context [join nl (l1 ++ ?x :: l2 ++ ?y :: l3)] =>
      destruct (join_two nl x y l1 l2 l3) as (a & b & c & ->) end.
    unfold generateHandler. fold S R.
    exists a, (b +:+ nl +:+ "    "),
      (nl +:+
  "        // add your code here" +:+ nl +:+
  "        return Promise.reject(new Error(" +:+ dq +:+ "not implemented" +:+ dq +:+ "));" +:+ nl +:+
  "    }" +:+ nl +:+ c).
    rewrite ?sapp_assoc. reflexivity.
Qed.

Lemma names_agree_across_artifacts_witness :
  Occurs ("  async Add(data: AddRequest): Promise<CalcResponse> {" +:+ nl +:+
         "    const r = await this.nc.request(" +:+ dq +:+ "Calc.Add" +:+ dq +:+ ", ")
        (clientMethod calcService addRpc)
  /\ Occurs ("calc.addEndpoint(" +:+ dq +:+ "Add" +:+ dq +:+ ", (err, m) => {")
        (addEndpoint calcService addRpc)
  /\ Occurs ("  Calc.AddHandler(input)" +:+ nl) (addEndpoint calcService addRpc)
  /\ (exists a b c,
        stubsText calcService "service" =
          a +:+ "export namespace Calc {" +:+ b +:+
          "export function AddHandler(r: AddRequest): Promise<CalcResponse>{" +:+ c).
Proof.
  destruct (names_agree_across_artifacts calcModel "service" calcService addRpc)
    as (_ & H2 & H3 & _ & _ & H6 & H7).
  - apply list_elem_of_In. simpl. left. reflexivity.
  - apply list_elem_of_In. simpl. left. reflexivity.
  - split_and!; [exact H6|exact H2|exact H3|exact H7].
Defined.

(** The names agree in the per-service variant as well: the endpoint named
    after the RPC calls [<rpcName>Handler], which the service module
    imports by that name and the handlers file declares, and the client
    method of that name requests [<serviceName>.<rpcName>]. *)
Lemma PerService_names_agree (srv : ProtoService) (genLib : string) (rpc : ProtoRpc) :
  rpc ∈ Service.rpcs srv ->
  let S := Service.name srv in
  let R := Rpc.name rpc in
  Occurs (PerService.addEndpoint rpc) (PerService.mainText srv genLib)
  /\ Occurs ("srv.addEndpoint(" +:+ dq +:+ R +:+ dq +:+ ", (err, m) => {") (PerService.addEndpoint rpc)
  /\ Occurs ("  " +:+ R +:+ "Handler(input)" +:+ nl) (PerService.addEndpoint rpc)
  /\ Occurs (PerService.clientMethod srv rpc) (PerService.clientText srv genLib)
  /\ Occurs ("  async " +:+ R +:+ "(data: " +:+ Rpc.inType rpc +:+ "): Promise<" +:+ Rpc.outType rpc +:+ "> {" +:+ nl +:+
            "    const r = await this.nc.request(" +:+ dq +:+ S +:+ "." +:+ R +:+ dq +:+ ", ")
       (PerService.clientMethod srv rpc)
  /\ Occurs ("export function " +:+ R +:+ "Handler(r: " +:+ Rpc.inType rpc +:+ "): Promise<" +:+ Rpc.outType rpc +:+ ">{")
       (PerService.handlersText srv genLib).
Proof.
  intros Hrpc S R. split_and!.
  - apply Occurs_join. unfold PerService.mainSections. rewrite !elem_of_app.
    do 5 right. apply list_elem_of_fmap. by exists rpc.
  - unfold PerService.addEndpoint. occurs_tac.
  - unfold PerService.addEndpoint. occurs_tac.
  - apply Occurs_join. unfold PerService.clientParts. rewrite !elem_of_app.
    do 4 right. left. apply list_elem_of_fmap. by exists rpc.
  - unfold PerService.clientMethod. occurs_tac.
  - apply (Occurs_trans _ (PerService.generateHandler rpc)).
    + unfold PerService.generateHandler. occurs_tac.
    + apply Occurs_join. unfold PerService.handlerSections. rewrite !elem_of_app.
      do 2 right. apply list_elem_of_fmap. by exists rpc.
Qed.

(** ** The handler stubs *)



(** The per-service variant writes the same functions at the top level of
    the file: it opens no namespace. *)
Lemma PerService_handlers_at_top_level (service : ProtoService) (genLib : string) :
  PerService.handlersText service genLib =
    "// edit your services here" +:+ nl +:+
    PerService.generateImports (Service.rpcs service) genLib +:+
    join "" (map (fun h => nl +:+ PerService.generateHandler h) (Service.rpcs service)).
Proof.
  unfold PerService.handlersText, PerService.handlerSections.
  generalize (PerService.generateImports (Service.rpcs service) genLib) as i.
  intros i. simpl app. rewrite join_cons_ne by done. f_equal. f_equal.
  generalize (Service.rpcs service) as l. intros l.
  revert i. induction l as [|h l IH]; intros i; [by simpl; rewrite sapp_nil_r|].
  simpl map. rewrite join_cons_ne by done.
  by rewrite (IH (PerService.generateHandler h)), join_empty_cons, !sapp_assoc.
Qed.

Example PerService_calc_handlers_have_no_namespace :
  occursb "namespace" (PerService.handlersText calcService "service") = false
  /\ occursb "export namespace Calc {" (stubsText calcService "service") = true.
Proof. vm_compute. done. Qed.

(** ** The matcher *)

Lemma span_app (cls : ascii -> bool) (s : string) :
  s = (span cls s).1 +:+ (span cls s).2.
Proof.
  induction s as [|c s IH]; [reflexivity|]. simpl.
  destruct (cls c); [|reflexivity].
  destruct (span cls s) as [w r]. simpl in *. by rewrite sapp_cons, <- IH.
Qed.

Lemma span_allb (cls : ascii -> bool) (s : string) : allb cls (span cls s).1 = true.
Proof.
  induction s as [|c s IH]; [reflexivity|]. simpl.
  destruct (cls c) eqn:E; [|reflexivity].
  destruct (span cls s) as [w r]. simpl in *. by rewrite E.
Qed.

Lemma span_stop (cls : ascii -> bool) (s : string) :
  startsWith cls (span cls s).2 = false.
Proof.
  induction s as [|c s IH]; [reflexivity|]. simpl.
  destruct (cls c) eqn:E; [|by simpl].
  by destruct (span cls s) as [w r].
Qed.

(** A run followed by a character outside the class is the span. *)
Lemma span_run (cls : ascii -> bool) (w r : string) :
  allb cls w = true -> startsWith cls r = false -> span cls (w +:+ r) = (w, r).
Proof.
  intros Hw Hr. induction w as [|c w IH].
  - rewrite sapp_nil_l. destruct r as [|c r]; [reflexivity|].
    simpl in *. by rewrite Hr.
  - simpl in Hw. apply andb_true_iff in Hw as [Hc Hw].
    rewrite sapp_cons. simpl. rewrite Hc, (IH Hw). reflexivity.
Qed.

Lemma greedyPlus_sound cls next s w r :
  greedyPlus cls next s = Some (w, r) ->
  exists s2, s = w +:+ s2 /\ allb cls w = true /\ w <> "" /\ next s2 = Some r.
Proof.
  revert w r. induction s as [|c s IH]; intros w r; simpl; [done|].
  destruct (cls c) eqn:Hc; [|done].
  destruct (greedyPlus cls next s) as [[w' r']|] eqn:E.
  - intros [= <- <-]. destruct (IH _ _ eq_refl) as (s2 & -> & Hw & _ & Hn).
    exists s2. rewrite sapp_cons. simpl. by rewrite Hc.
  - destruct (next s) as [r'|] eqn:En; [|done]. intros [= <- <-].
    exists s. simpl. by rewrite Hc.
Qed.

Lemma lazyStar_sound cls next s w r :
  lazyStar cls next s = Some (w, r) ->
  exists s2, s = w +:+ s2 /\ allb cls w = true /\ next s2 = Some r.
Proof.
  revert w r. induction s as [|c s IH]; intros w r; simpl.
  - destruct (next "") eqn:En; [|done]. intros [= <- <-]. by exists "".
  - destruct (next (String c s)) eqn:En.
    + intros [= <- <-]. by exists (String c s).
    + destruct (cls c) eqn:Hc; [|done].
      destruct (lazyStar cls next s) as [[w' r']|] eqn:E; [|done].
      intros [= <- <-]. destruct (IH _ _ eq_refl) as (s2 & -> & Hw & Hn).
      exists s2. rewrite sapp_cons. simpl. by rewrite Hc.
Qed.

Lemma repeat_sound cls q next s w r :
  repeat_ cls q next s = Some (w, r) ->
  exists s2, s = w +:+ s2 /\ allb cls w = true /\ (q = OneOrMore -> w <> "") /\
    next s2 = Some r.
Proof.
  destruct q; simpl; intros H.
  - apply greedyPlus_sound in H as (s2 & ? & ? & ? & ?). by exists s2.
  - apply lazyStar_sound in H as (s2 & ? & ? & ?). by exists s2.
Qed.

(** What [rmatch] returns is a split of the text, the matched part is in
    the language of the pattern, and there is one capture for each group. *)
Lemma rmatch_sound (re : regex) (s : string) caps m rest :
  rmatch re s = Some (caps, m, rest) ->
  s = m +:+ rest /\ Lang re m /\ length caps = groups re.
Proof.
  revert s caps m rest. induction re as [|a re IH]; intros s caps m rest; simpl.
  - intros [= <- <- <-]. done.
  - destruct a as [l|cls q|cls q].
    + destruct (strip_prefix l s) as [s'|] eqn:E; [|done].
      apply strip_prefix_Some in E as ->.
      destruct (rmatch re s') as [[[caps' m'] rest']|] eqn:E2; [|done].
      intros [= <- <- <-]. destruct (IH _ _ _ _ E2) as (-> & HL & Hc).
      split_and!; [by rewrite sapp_assoc| |done]. by exists m'.
    + destruct (repeat_ cls q (rmatch re) s) as [[w [[caps' m'] rest']]|] eqn:E; [|done].
      intros [= <- <- <-].
      apply repeat_sound in E as (s2 & -> & Hw & Hq & E2).
      destruct (IH _ _ _ _ E2) as (-> & HL & Hc).
      split_and!; [by rewrite sapp_assoc| |done]. by exists w, m'.
    + destruct (repeat_ cls q (rmatch re) s) as [[w [[caps' m'] rest']]|] eqn:E; [|done].
      intros [= <- <- <-].
      apply repeat_sound in E as (s2 & -> & Hw & Hq & E2).
      destruct (IH _ _ _ _ E2) as (-> & HL & Hc).
      split_and!; [by rewrite sapp_assoc| |by simpl; rewrite Hc]. by exists w, m'.
Qed.

Lemma greedyPlus_complete cls next w r :
  allb cls w = true -> w <> "" -> is_Some (next r) ->
  is_Some (greedyPlus cls next (w +:+ r)).
Proof.
  intros Hw Hne Hn. induction w as [|c w IH]; [done|].
  simpl in Hw. apply andb_true_iff in Hw as [Hc Hw].
  rewrite sapp_cons. simpl. rewrite Hc.
  destruct (greedyPlus cls next (w +:+ r)) as [[w' r']|] eqn:E; [done|].
  destruct w as [|c' w].
  - rewrite sapp_nil_l in *. destruct Hn as [x ->]. done.
  - destruct (IH Hw) as [x Hx]; [done|]. done.
Qed.

Lemma lazyStar_complete cls next w r :
  allb cls w = true -> is_Some (next r) -> is_Some (lazyStar cls next (w +:+ r)).
Proof.
  intros Hw Hn. induction w as [|c w IH].
  - rewrite sapp_nil_l. destruct Hn as [x Hx]. destruct r; simpl; by rewrite Hx.
  - simpl in Hw. apply andb_true_iff in Hw as [Hc Hw].
    rewrite sapp_cons. simpl. destruct (next (String c (w +:+ r))); [done|].
    rewrite Hc. destruct (IH Hw) as [[w' r'] ->]. done.
Qed.

(** Every text of the language is matched, whatever follows it. *)
Lemma rmatch_complete (re : regex) (m rest : string) :
  Lang re m -> is_Some (rmatch re (m +:+ rest)).
Proof.
  revert m rest. induction re as [|a re IH]; intros m rest; simpl.
  - intros ->. done.
  - destruct a as [l|cls q|cls q].
    + intros (m' & -> & HL). rewrite sapp_assoc, strip_prefix_app.
      destruct (IH m' rest HL) as [[[caps' m2] rest'] ->]. done.
    + intros (w & m' & -> & Hw & Hq & HL). rewrite sapp_assoc.
      assert (is_Some (repeat_ cls q (rmatch re) (w +:+ m' +:+ rest))) as [[w' [[c2 m2] r2]] ->];
        [|done].
      destruct q; simpl.
      * apply greedyPlus_complete; [done|by apply Hq|by apply IH].
      * apply lazyStar_complete; [done|by apply IH].
    + intros (w & m' & -> & Hw & Hq & HL). rewrite sapp_assoc.
      assert (is_Some (repeat_ cls q (rmatch re) (w +:+ m' +:+ rest))) as [[w' [[c2 m2] r2]] ->];
        [|done].
      destruct q; simpl.
      * apply greedyPlus_complete; [done|by apply Hq|by apply IH].
      * apply lazyStar_complete; [done|by apply IH].
Qed.

Lemma search_eq (re : regex) (s : string) :
  search re s =
    match rmatch re s with
    | Some r => Some ("", r)
    | None =>
        match s with
        | String c s' =>
            match search re s' with
            | Some (pre, r) => Some (String c pre, r)
            | None => None
            end
        | EmptyString => None
        end
    end.
Proof. by destruct s. Qed.

Lemma search_Some_1 (re : regex) (s pre : string) caps m rest :
  search re s = Some (pre, (caps, m, rest)) ->
  s = pre +:+ m +:+ rest /\
  rmatch re (m +:+ rest) = Some (caps, m, rest) /\
  (forall p q, pre = p +:+ q -> q <> "" -> rmatch re (q +:+ m +:+ rest) = None).
Proof.
  revert pre. induction s as [|c s IH]; intros pre; rewrite search_eq.
  - destruct (rmatch re "") as [r|] eqn:E; [|done].
    intros [= <- ->]. destruct (rmatch_sound _ _ _ _ _ E) as (H & _).
    rewrite sapp_nil_l, <- H. split_and!; [done..|].
    intros p q Hp Hq. destruct p; [|done]. rewrite sapp_nil_l in Hp. by subst.
  - destruct (rmatch re (String c s)) as [r|] eqn:E.
    + intros [= <- ->]. destruct (rmatch_sound _ _ _ _ _ E) as (H & _).
      rewrite sapp_nil_l, <- H. split_and!; [done..|].
      intros p q Hp Hq. destruct p; [|done]. rewrite sapp_nil_l in Hp. by subst.
    + destruct (search re s) as [[pre' r']|] eqn:E2; [|done].
      intros [= <- ->]. destruct (IH pre' eq_refl) as (H1 & H2 & H3).
      split_and!; [by rewrite sapp_cons, <- H1|done|].
      intros p q Hp Hq. destruct p as [|c' p].
      * rewrite sapp_nil_l in Hp. subst q. by rewrite sapp_cons, <- H1.
      * rewrite sapp_cons in Hp. injection Hp as _ Hp. by apply (H3 p q).
Qed.

Lemma search_Some_2 (re : regex) (pre : string) caps m rest :
  rmatch re (m +:+ rest) = Some (caps, m, rest) ->
  (forall p q, pre = p +:+ q -> q <> "" -> rmatch re (q +:+ m +:+ rest) = None) ->
  search re (pre +:+ m +:+ rest) = Some (pre, (caps, m, rest)).
Proof.
  intros Hm. induction pre as [|c pre IH]; intros Hleft; rewrite search_eq.
  - rewrite sapp_nil_l, Hm. done.
  - rewrite (Hleft "" (String c pre)); [|done..]. rewrite sapp_cons, IH; [done|].
    intros p q Hp Hq. apply (Hleft (String c p) q); [by rewrite sapp_cons, Hp|done].
Qed.

(** [search] returns the leftmost match. *)
Lemma search_Some (re : regex) (s pre : string) caps m rest :
  search re s = Some (pre, (caps, m, rest)) <->
  s = pre +:+ m +:+ rest /\
  rmatch re (m +:+ rest) = Some (caps, m, rest) /\
  (forall p q, pre = p +:+ q -> q <> "" -> rmatch re (q +:+ m +:+ rest) = None).
Proof.
  split; [apply search_Some_1|]. intros (-> & H1 & H2). by apply search_Some_2.
Qed.

Lemma search_None (re : regex) (s : string) :
  search re s = None <-> forall p q, s = p +:+ q -> rmatch re q = None.
Proof.
  induction s as [|c s IH]; simpl.
  - destruct (rmatch re "") eqn:E.
    + split; [done|]. intros H. rewrite (H "" "") in E; done.
    + split; [|done]. intros _ p q H. destruct p; [|done].
      rewrite sapp_nil_l in H. by subst.
  - destruct (rmatch re (String c s)) eqn:E.
    + split; [done|]. intros H. rewrite (H "" (String c s)) in E; done.
    + destruct (search re s) as [[pre r]|] eqn:E2.
      * split; [done|]. intros H.
        assert (forall p q, s = p +:+ q -> rmatch re q = None) as Hn.
        { intros p q ->. apply (H (String c p) q). by rewrite sapp_cons. }
        apply IH in Hn. done.
      * split; [|done]. intros _ p q H. destruct p as [|c' p].
        -- rewrite sapp_nil_l in H. by subst.
        -- rewrite sapp_cons in H. injection H as _ ->.
           by apply (proj1 IH eq_refl p q).
Qed.

(** No match anywhere exactly when no part of the text is in the
    language of the pattern. *)
Lemma search_None_Lang (re : regex) (s : string) :
  search re s = None <->
  forall pre m post, s = pre +:+ m +:+ post -> ~ Lang re m.
Proof.
  rewrite search_None. split.
  - intros H pre m post -> HL.
    destruct (rmatch_complete re m post HL) as [r Hr].
    rewrite (H pre (m +:+ post)) in Hr; done.
  - intros H p q ->. destruct (rmatch re q) as [[[caps m] rest]|] eqn:E; [|done].
    destruct (rmatch_sound _ _ _ _ _ E) as (-> & HL & _).
    by destruct (H p m rest).
Qed.

(** The texts of the language of [rpcRE], spelled out. *)
Lemma Lang_rpcRE (m : string) :
  Lang rpcRE m <->
  exists ws1 name inT ws2 ws3 outT ws4,
    m = "rpc" +:+ ws1 +:+ name +:+ "(" +:+ inT +:+ ")" +:+ ws2 +:+
        "returns" +:+ ws3 +:+ "(" +:+ outT +:+ ")" +:+ ws4 +:+ "{}"
    /\ (ws1 <> "" /\ allb isSpace ws1 = true)
    /\ (name <> "" /\ allb isWord name = true)
    /\ (inT <> "" /\ allb isNonSpace inT = true)
    /\ (ws2 <> "" /\ allb isSpace ws2 = true)
    /\ (ws3 <> "" /\ allb isSpace ws3 = true)
    /\ (outT <> "" /\ allb isNonSpace outT = true)
    /\ (ws4 <> "" /\ allb isSpace ws4 = true).
Proof.
  unfold rpcRE. cbn [Lang]. split.
  - intros (m1 & -> & ws1 & m2 & -> & H1 & N1 & name & m3 & -> & H2 & N2 &
            m4 & -> & inT & m5 & -> & H3 & N3 & m6 & -> & ws2 & m7 & -> & H4 & N4 &
            m8 & -> & ws3 & m9 & -> & H5 & N5 & m10 & -> & outT & m11 & -> & H6 & N6 &
            m12 & -> & ws4 & m13 & -> & H7 & N7 & m14 & -> & ->).
    exists ws1, name, inT, ws2, ws3, outT, ws4. rewrite sapp_nil_r. auto 20.
  - intros (ws1 & name & inT & ws2 & ws3 & outT & ws4 & -> &
            [N1 H1] & [N2 H2] & [N3 H3] & [N4 H4] & [N5 H5] & [N6 H6] & [N7 H7]).
    repeat first [ eexists; split; [reflexivity|]
                 | eexists _, _; split; [reflexivity|]; split; [eassumption|]; split; [by intros _|] ].
    done.
Qed.

(** The texts of the language of [servicesRE], spelled out. *)
Lemma Lang_servicesRE (m : string) :
  Lang servicesRE m <->
  exists ws name body,
    m = "service" +:+ ws +:+ name +:+ body +:+ "}" +:+ nl +:+ "}"
    /\ (ws <> "" /\ allb isSpace ws = true)
    /\ (name <> "" /\ allb isWord name = true).
Proof.
  assert (Hany : forall s, allb isAny s = true).
  { induction s as [|c s IH]; [done|]. simpl. rewrite IH.
    unfold isAny, isNonSpace. by destruct (isSpace c). }
  unfold servicesRE. cbn [Lang]. split.
  - intros (m1 & -> & ws & m2 & -> & H1 & N1 & name & m3 & -> & H2 & N2 &
            body & m4 & -> & _ & _ & m5 & -> & ->).
    exists ws, name, body. rewrite sapp_nil_r. auto.
  - intros (ws & name & body & -> & [N1 H1] & [N2 H2]).
    eexists; split; [reflexivity|].
    eexists _, _; split; [reflexivity|]; split; [eassumption|]; split; [by intros _|].
    eexists _, _; split; [reflexivity|]; split; [eassumption|]; split; [by intros _|].
    eexists body, _; split; [reflexivity|]; split; [apply Hany|]; split; [done|].
    eexists; split; [|reflexivity]. done.
Qed.

(** A match of [servicesRE] is never empty, so the [while] loop over
    [exec] advances and [scan] is that loop. *)
Lemma servicesRE_match_nonempty (s : string) caps m rest :
  rmatch servicesRE s = Some (caps, m, rest) -> m <> "".
Proof.
  intros (_ & (m' & -> & _) & _)%rmatch_sound. done.
Qed.

(** ** Successive matches *)

Lemma scan_skip (re : regex) (u v : string) :
  scan re (String.length u) (u +:+ v) = scan re 0 v.
Proof. induction u as [|c u IH]; [reflexivity|]. simpl. exact IH. Qed.

Lemma scan_eq (re : regex) (s : string) :
  scan re 0 s =
    match rmatch re s with
    | Some (caps, m, rest) =>
        (caps, m, rest) ::
        match s with
        | String _ s' => scan re (String.length m - 1) s'
        | EmptyString => []
        end
    | None =>
        match s with
        | String _ s' => scan re 0 s'
        | EmptyString => []
        end
    end.
Proof. by destruct s. Qed.

(** [scan] is the loop of [exec] calls: the first match is the one
    [search] finds, and the scan goes on in the text after it (one
    character further when the match is empty). *)
Lemma scan_search (re : regex) (s : string) :
  scan re 0 s =
    match search re s with
    | None => []
    | Some (_, (caps, m, rest)) =>
        (caps, m, rest) ::
        match m with
        | EmptyString =>
            match rest with
            | String _ r => scan re 0 r
            | EmptyString => []
            end
        | _ => scan re 0 rest
        end
    end.
Proof.
  induction s as [|c s IH]; rewrite scan_eq, search_eq.
  - destruct (rmatch re "") as [[[caps m] rest]|] eqn:E; [|done].
    destruct (rmatch_sound _ _ _ _ _ E) as (H & _).
    destruct m; [|done]. rewrite sapp_nil_l in H. by subst.
  - destruct (rmatch re (String c s)) as [[[caps m] rest]|] eqn:E.
    + destruct (rmatch_sound _ _ _ _ _ E) as (H & _). f_equal.
      destruct m as [|c' m].
      * rewrite sapp_nil_l in H. by subst.
      * rewrite sapp_cons in H. injection H as _ ->. simpl.
        rewrite Nat.sub_0_r. apply scan_skip.
    + rewrite IH. by destruct (search re s) as [[pre [[caps m] rest]]|].
Qed.

Lemma scan_nil (re : regex) (s : string) : scan re 0 s = [] <-> search re s = None.
Proof.
  rewrite scan_search.
  destruct (search re s) as [[pre [[caps m] rest]]|]; split; done.
Qed.

Lemma matchG_None (re : regex) (s : string) :
  matchG re s = None <-> search re s = None.
Proof.
  unfold matchG. rewrite <- scan_nil. by destruct (scan re 0 s).
Qed.

(** Every element of a scan is a match of the pattern at some position. *)
Lemma scan_elem (re : regex) (k : nat) (s : string) (r : mres) :
  r ∈ scan re k s ->
  exists q, rmatch re q = Some r.
Proof.
  revert k. induction s as [|c s IH]; intros k.
  - destruct k; simpl; [|by intros ?%elem_of_nil].
    destruct (rmatch re "") as [[[caps m] rest]|] eqn:E; [|by intros ?%elem_of_nil].
    intros [->|?%elem_of_nil]%elem_of_cons; [|done]. by exists "".
  - destruct k; simpl; [|apply IH].
    destruct (rmatch re (String c s)) as [[[caps m] rest]|] eqn:E; [|apply IH].
    intros [->|H]%elem_of_cons; [by eexists|]. by apply IH in H.
Qed.

(** ** Matching the matched text again *)

Lemma greedyPlus_mono cls (next1 next2 : string -> option mres) s u :
  (forall x y, is_Some (next1 x) -> is_Some (next2 (x +:+ y))) ->
  is_Some (greedyPlus cls next1 s) -> is_Some (greedyPlus cls next2 (s +:+ u)).
Proof.
  intros Hn. induction s as [|c s IH]; simpl; [by intros [? ?]|].
  rewrite ?sapp_cons; simpl. destruct (cls c); [|done].
  destruct (greedyPlus cls next1 s) as [[w r]|] eqn:E.
  - intros _. destruct IH as [[w' r'] ->]; done.
  - destruct (next1 s) as [r|] eqn:En; [|by intros [? ?]]. intros _.
    destruct (greedyPlus cls next2 (s +:+ u)) as [[w' r']|]; [done|].
    destruct (Hn s u) as [r' ->]; done.
Qed.

Lemma lazyStar_mono cls (next1 next2 : string -> option mres) s u :
  (forall x y, is_Some (next1 x) -> is_Some (next2 (x +:+ y))) ->
  is_Some (lazyStar cls next1 s) -> is_Some (lazyStar cls next2 (s +:+ u)).
Proof.
  intros Hn. induction s as [|c s IH].
  - simpl. destruct (next1 "") as [r|] eqn:E; [|by intros [? ?]]. intros _.
    rewrite sapp_nil_l. destruct (Hn "" u) as [r' Hr']; [by rewrite E|].
    rewrite sapp_nil_l in Hr'. destruct u; simpl; by rewrite Hr'.
  - rewrite ?sapp_cons; simpl.
    destruct (next2 (String c (s +:+ u))) as [r2|] eqn:E2; [done|].
    destruct (next1 (String c s)) as [r|] eqn:E.
    + destruct (Hn (String c s) u) as [r' Hr']; [by rewrite E|].
      rewrite sapp_cons in Hr'. by simplify_eq.
    + destruct (cls c); [|by intros [? ?]].
      destruct (lazyStar cls next1 s) as [[w r]|]; [|by intros [? ?]].
      intros _. destruct IH as [[w' r'] ->]; done.
Qed.

(** A pattern that matches a text matches every extension of it. *)
Lemma rmatch_mono (re : regex) (s u : string) :
  is_Some (rmatch re s) -> is_Some (rmatch re (s +:+ u)).
Proof.
  revert s u. induction re as [|a re IH]; intros s u; simpl; [done|].
  destruct a as [l|cls q|cls q].
  - destruct (strip_prefix l s) as [s'|] eqn:E; [|by intros [? ?]].
    apply strip_prefix_Some in E as ->. rewrite sapp_assoc, strip_prefix_app.
    destruct (rmatch re s') as [[[caps m] rest]|] eqn:E2; [|by intros [? ?]].
    intros _. destruct (IH s' u) as [[[c2 m2] r2] ->]; [by rewrite E2|done].
  - destruct (repeat_ cls q (rmatch re) s) as [[w [[caps m] rest]]|] eqn:E;
      [|by intros [? ?]].
    intros _.
    assert (is_Some (repeat_ cls q (rmatch re) (s +:+ u))) as [[w' [[c2 m2] r2]] ->];
      [|done].
    destruct q; simpl in *.
    + apply (greedyPlus_mono cls (rmatch re)); [apply IH|by rewrite E].
    + apply (lazyStar_mono cls (rmatch re)); [apply IH|by rewrite E].
  - destruct (repeat_ cls q (rmatch re) s) as [[w [[caps m] rest]]|] eqn:E;
      [|by intros [? ?]].
    intros _.
    assert (is_Some (repeat_ cls q (rmatch re) (s +:+ u))) as [[w' [[c2 m2] r2]] ->];
      [|done].
    destruct q; simpl in *.
    + apply (greedyPlus_mono cls (rmatch re)); [apply IH|by rewrite E].
    + apply (lazyStar_mono cls (rmatch re)); [apply IH|by rewrite E].
Qed.

Lemma lazyStar_eq cls next s :
  lazyStar cls next s =
    match next s with
    | Some r => Some ("", r)
    | None =>
        match s with
        | String c s' =>
            if cls c then
              match lazyStar cls next s' with
              | Some (w, r) => Some (String c w, r)
              | None => None
              end
            else None
        | EmptyString => None
        end
    end.
Proof. by destruct s. Qed.

Section Rematch.
Variable re : regex.
Hypothesis IHre : forall s caps m rest,
  rmatch re s = Some (caps, m, rest) -> rmatch re m = Some (caps, m, "").

Lemma greedyPlus_rematch cls s w caps m rest :
  greedyPlus cls (rmatch re) s = Some (w, (caps, m, rest)) ->
  greedyPlus cls (rmatch re) (w +:+ m) = Some (w, (caps, m, "")).
Proof.
  revert w. induction s as [|c s IH]; intros w; simpl; [done|].
  destruct (cls c) eqn:Hc; [|done].
  destruct (greedyPlus cls (rmatch re) s) as [[w1 r1]|] eqn:E.
  - intros [= <- ->]. rewrite sapp_cons. simpl. rewrite Hc, (IH w1 eq_refl). done.
  - destruct (rmatch re s) as [r|] eqn:En; [|done]. intros [= <- ->].
    rewrite sapp_cons, sapp_nil_l. simpl. rewrite Hc.
    destruct (rmatch_sound _ _ _ _ _ En) as (Hs & _).
    destruct (greedyPlus cls (rmatch re) m) as [x|] eqn:E2.
    + destruct (greedyPlus_mono cls (rmatch re) (rmatch re) m rest) as [y Hy].
      * intros x' y'. apply rmatch_mono.
      * by rewrite E2.
      * rewrite <- Hs, E in Hy. done.
    + by rewrite (IHre _ _ _ _ En).
Qed.

Lemma lazyStar_rematch cls s w caps m rest :
  lazyStar cls (rmatch re) s = Some (w, (caps, m, rest)) ->
  lazyStar cls (rmatch re) (w +:+ m) = Some (w, (caps, m, "")).
Proof.
  revert w. induction s as [|c s IH]; intros w; rewrite lazyStar_eq.
  - destruct (rmatch re "") as [r|] eqn:En; [|done]. intros [= <- ->].
    rewrite sapp_nil_l, lazyStar_eq. by rewrite (IHre _ _ _ _ En).
  - destruct (rmatch re (String c s)) as [r|] eqn:En.
    + intros [= <- ->]. rewrite sapp_nil_l, lazyStar_eq. by rewrite (IHre _ _ _ _ En).
    + destruct (cls c) eqn:Hc; [|done].
      destruct (lazyStar cls (rmatch re) s) as [[w1 r1]|] eqn:E; [|done].
      intros [= <- ->]. rewrite sapp_cons, lazyStar_eq.
      destruct (lazyStar_sound _ _ _ _ _ E) as (s2 & Hs & _ & Hn).
      destruct (rmatch_sound _ _ _ _ _ Hn) as (Hs2 & _).
      destruct (rmatch re (String c (w1 +:+ m))) as [x|] eqn:E2.
      * destruct (rmatch_mono re (String c (w1 +:+ m)) rest) as [y Hy]; [by rewrite E2|].
        rewrite sapp_cons, sapp_assoc, <- Hs2, <- Hs, En in Hy. done.
      * by rewrite Hc, (IH w1 eq_refl).
Qed.

Lemma repeat_rematch cls q s w caps m rest :
  repeat_ cls q (rmatch re) s = Some (w, (caps, m, rest)) ->
  repeat_ cls q (rmatch re) (w +:+ m) = Some (w, (caps, m, "")).
Proof. destruct q; [apply greedyPlus_rematch|apply lazyStar_rematch]. Qed.

End Rematch.

(** Matching the matched text alone gives the same match. *)
Lemma rmatch_rematch (re : regex) (s : string) caps m rest :
  rmatch re s = Some (caps, m, rest) -> rmatch re m = Some (caps, m, "").
Proof.
  revert s caps m rest. induction re as [|a re IH]; intros s caps m rest; simpl.
  - by intros [= <- <- <-].
  - destruct a as [l|cls q|cls q].
    + destruct (strip_prefix l s) as [s'|] eqn:E; [|done].
      destruct (rmatch re s') as [[[caps' m'] rest']|] eqn:E2; [|done].
      intros [= <- <- <-]. by rewrite strip_prefix_app, (IH _ _ _ _ E2).
    + destruct (repeat_ cls q (rmatch re) s) as [[w [[caps' m'] rest']]|] eqn:E; [|done].
      intros [= <- <- <-]. by rewrite (repeat_rematch re IH _ _ _ _ _ _ _ E).
    + destruct (repeat_ cls q (rmatch re) s) as [[w [[caps' m'] rest']]|] eqn:E; [|done].
      intros [= <- <- <-]. by rewrite (repeat_rematch re IH _ _ _ _ _ _ _ E).
Qed.

(** The fields of an RPC are the three groups of its line: the second
    match of the line, in [rpcOfLine], never fails. *)
Lemma rpcOfLine_defined (blk : string) (lines : list string) (line : string) :
  matchG rpcRE blk = Some lines -> line ∈ lines ->
  exists n i o,
    search rpcLineRE line = Some ("", ([n; i; o], line, "")) /\
    rpcOfLine line = Rpc.mk n i o.
Proof.
  unfold matchG. destruct (scan rpcRE 0 blk) as [|r0 ms] eqn:E; [done|].
  intros [= <-] Hin. change (line ∈ matched <$> (r0 :: ms)) in Hin.
  apply list_elem_of_fmap in Hin as (r & -> & Hr).
  rewrite <- E in Hr. apply scan_elem in Hr as (q & Hq).
  destruct r as [[caps m] rest].
  destruct (rmatch_sound _ _ _ _ _ Hq) as (_ & _ & Hlen).
  apply rmatch_rematch in Hq.
  destruct caps as [|n [|i [|o [|? ?]]]]; try done.
  exists n, i, o. unfold rpcOfLine, rpcLineRE, matched. simpl.
  rewrite search_eq, Hq. done.
Qed.

(** ** Greedy runs that never give back *)

Section Longest.
Variable cls : ascii -> bool.
Variable next : string -> option mres.
Hypothesis Hnext : forall c x,
  cls c = true -> is_Some (next (String c x)) -> is_Some (next x).

Lemma next_chain (w r : string) :
  allb cls w = true -> next r = None -> next (w +:+ r) = None.
Proof.
  intros Hw Hr. induction w as [|c w IH]; [done|].
  simpl in Hw. apply andb_true_iff in Hw as [Hc Hw]. rewrite sapp_cons.
  destruct (next (String c (w +:+ r))) as [x|] eqn:E; [|done].
  destruct (Hnext c (w +:+ r) Hc) as [y Hy]; [by rewrite E|].
  rewrite (IH Hw) in Hy. done.
Qed.

(** When a shorter run cannot succeed where the longest fails, the greedy
    repetition takes the longest run. *)
Lemma greedyPlus_longest (s : string) :
  greedyPlus cls next s =
    match (span cls s).1 with
    | EmptyString => None
    | w => match next (span cls s).2 with Some r => Some (w, r) | None => None end
    end.
Proof.
  induction s as [|c s IH]; [done|]. simpl.
  destruct (cls c) eqn:Hc; [|done]. rewrite IH.
  pose proof (span_app cls s) as Happ. pose proof (span_allb cls s) as Hall.
  destruct (span cls s) as [w r]. simpl in *.
  destruct w as [|c' w].
  - rewrite sapp_nil_l in Happ. subst r. by destruct (next s).
  - destruct (next r) as [x|] eqn:E; [done|].
    rewrite Happ, (next_chain _ _ Hall E). done.
Qed.

End Longest.

Lemma space_not_word (c : ascii) : isSpace c = true -> isWord c = false.
Proof.
  destruct c as [[] [] [] [] [] [] [] []]; vm_compute; congruence.
Qed.

Lemma rmatch_any_star (x : string) :
  rmatch [Cap isAny LazyStar] x = Some ([""], "", x).
Proof. simpl. rewrite lazyStar_eq. done. Qed.

Lemma rmatch_word_any (x : string) :
  rmatch [Cap isWord OneOrMore; Cap isAny LazyStar] x =
    match (span isWord x).1 with
    | EmptyString => None
    | w => Some ([w; ""], w, (span isWord x).2)
    end.
Proof.
  change (rmatch [Cap isWord OneOrMore; Cap isAny LazyStar] x) with
    (match greedyPlus isWord (rmatch [Cap isAny LazyStar]) x with
     | Some (w, (caps, m, rest)) => Some (w :: caps, w +:+ m, rest)
     | None => None
     end).
  rewrite greedyPlus_longest.
  - destruct (span isWord x).1 as [|c w]; [done|].
    rewrite rmatch_any_star, sapp_nil_r. done.
  - intros c y _ _. by rewrite rmatch_any_star.
Qed.

(** [packageRE] at the start of a text: what [declAt] reads. *)
Lemma rmatch_packageRE (s : string) :
  rmatch packageRE s =
    match declAt "package" s with
    | Some (ws, id, rest) => Some ([id; ""], "package" +:+ ws +:+ id, rest)
    | None => None
    end.
Proof.
  unfold declAt.
  change (rmatch packageRE s) with
    (match strip_prefix "package" s with
     | Some s' =>
         match
           match greedyPlus isSpace (rmatch [Cap isWord OneOrMore; Cap isAny LazyStar]) s' with
           | Some (w, (caps, m, rest)) => Some (caps, w +:+ m, rest)
           | None => None
           end
         with
         | Some (caps, m, rest) => Some (caps, "package" +:+ m, rest)
         | None => None
         end
     | None => None
     end).
  destruct (strip_prefix "package" s) as [s1|]; [|done].
  rewrite greedyPlus_longest.
  - destruct (span isSpace s1) as [ws s2]. cbn [fst snd].
    destruct ws as [|c ws]; [by destruct (span isWord s2)|].
    rewrite rmatch_word_any. destruct (span isWord s2) as [id rest]. cbn [fst snd].
    by destruct id.
  - intros c x Hc [r Hr]. rewrite rmatch_word_any in Hr. cbn [span] in Hr.
    by rewrite (space_not_word c Hc) in Hr.
Qed.

Lemma declAt_Some (kw s ws id rest : string) :
  declAt kw s = Some (ws, id, rest) <->
  s = kw +:+ ws +:+ id +:+ rest /\
  ws <> "" /\ allb isSpace ws = true /\ id <> "" /\ allb isWord id = true /\
  startsWith isWord rest = false.
Proof.
  unfold declAt. split.
  - destruct (strip_prefix kw s) as [s1|] eqn:E; [|done].
    apply strip_prefix_Some in E as ->.
    pose proof (span_app isSpace s1) as H1. pose proof (span_allb isSpace s1) as H2.
    destruct (span isSpace s1) as [ws' s2]. simpl in *.
    pose proof (span_app isWord s2) as H3. pose proof (span_allb isWord s2) as H4.
    pose proof (span_stop isWord s2) as H5.
    destruct (span isWord s2) as [id' rest']. simpl in *.
    destruct ws'; [done|]. destruct id'; [done|]. intros [= <- <- <-].
    by rewrite H1, H3.
  - intros (-> & Hws & Hs & Hid & Hw & Hr). rewrite strip_prefix_app.
    rewrite (span_run isSpace ws (id +:+ rest) Hs).
    + rewrite (span_run isWord id rest Hw Hr). destruct ws; [done|]. by destruct id.
    + destruct id as [|c id]; [done|]. rewrite sapp_cons. simpl in *.
      apply andb_true_iff in Hw as [Hc _].
      destruct (isSpace c) eqn:E; [|done]. by rewrite (space_not_word c E) in Hc.
Qed.

Lemma declAt_package_None (q : string) :
  declAt "package" q = None <-> ~ StartsPackageDecl q.
Proof.
  split.
  - intros Hn (ws & c & tail & -> & Hws & Hs & Hc).
    pose proof (span_app isWord (String c tail)) as H3.
    pose proof (span_allb isWord (String c tail)) as H4.
    pose proof (span_stop isWord (String c tail)) as H5.
    destruct (span isWord (String c tail)) as [id rest] eqn:E. simpl in *.
    assert (declAt "package" ("package" +:+ ws +:+ id +:+ rest) = Some (ws, id, rest)) as Hd.
    { apply declAt_Some. split_and!; try done.
      rewrite Hc in E. destruct (span isWord tail). by simplify_eq. }
    rewrite <- H3, Hn in Hd. done.
  - intros Hn. destruct (declAt "package" q) as [[[ws id] rest]|] eqn:E; [|done].
    apply declAt_Some in E as (-> & Hws & Hs & Hid & Hw & Hr). destruct Hn.
    destruct id as [|c id]; [done|]. exists ws, c, (id +:+ rest).
    rewrite sapp_cons. simpl in Hw. apply andb_true_iff in Hw as [Hc _]. done.
Qed.

(** ** The loop of [parseProto] *)

Lemma servicesOf_None (ms : list mres) :
  servicesOf ms = None <->
  exists b, b ∈ ms /\ matchG rpcRE (matched b) = None.
Proof.
  induction ms as [|r ms IH]; simpl.
  - split; [done|]. by intros (b & ?%elem_of_nil & _).
  - unfold serviceOf at 1. destruct (matchG rpcRE (matched r)) as [lines|] eqn:E.
    + destruct (servicesOf ms) as [ss|].
      * split; [done|]. intros (b & [->|Hb]%elem_of_cons & Hn); [congruence|].
        assert (Some ss = None) as H by (apply IH; by exists b). done.
      * split; [|done]. intros _. destruct (proj1 IH eq_refl) as (b & Hb & Hn).
        exists b. split; [by right|done].
    + split; [|done]. intros _. exists r. split; [by left|done].
Qed.

Lemma servicesLoop_named (ms : list mres) (r : ProtoParse) :
  packageName r <> "" ->
  servicesLoop ms r =
    match servicesOf ms with
    | Some ss => inr (mkParse (packageName r) (services r ++ ss))
    | None => inl noRpcEntries
    end.
Proof.
  revert r. induction ms as [|[[caps m0] rest] ms IH]; intros r Hne; simpl.
  - rewrite app_nil_r. by destruct r.
  - unfold serviceOf, matched, captures. simpl.
    destruct (matchG rpcRE m0) as [lines|]; [|done].
    destruct (String.eqb_spec (packageName r) "") as [?|_]; [done|].
    rewrite IH by done. simpl.
    destruct (servicesOf ms) as [ss|]; [|done]. by rewrite <- app_assoc.
Qed.

Lemma servicesLoop_unnamed (b : mres) (ms : list mres) (r : ProtoParse) :
  packageName r = "" -> services r = [] ->
  servicesLoop (b :: ms) r =
    match matchG rpcRE (matched b) with
    | None => inl noRpcEntries
    | Some _ => inl undefinedName
    end.
Proof.
  intros Hp Hs. destruct b as [[caps m0] rest]. simpl. unfold matched. simpl.
  destruct (matchG rpcRE m0) as [lines|]; [|done].
  rewrite Hp. simpl. unfold firstServiceName. by rewrite Hs.
Qed.

Lemma PerService_servicesLoop (ms : list mres) (acc : list ProtoService) :
  PerService.servicesLoop ms acc =
    match servicesOf ms with
    | Some ss => inr (acc ++ ss)
    | None => inl noRpcEntries
    end.
Proof.
  revert acc. induction ms as [|[[caps m0] rest] ms IH]; intros acc; simpl.
  - by rewrite app_nil_r.
  - unfold serviceOf, matched, captures. simpl.
    destruct (matchG rpcRE m0) as [lines|]; [|done].
    rewrite IH. destruct (servicesOf ms) as [ss|]; [|done]. by rewrite <- app_assoc.
Qed.

Lemma packageStage_services (text : string) : services (packageStage text) = [].
Proof. unfold packageStage. by destruct (search packageRE text). Qed.

Lemma packageStage_found (text pre : string) caps m rest :
  search packageRE text = Some (pre, (caps, m, rest)) ->
  exists ws id,
    text = pre +:+ "package" +:+ ws +:+ id +:+ rest /\
    declAt "package" ("package" +:+ ws +:+ id +:+ rest) = Some (ws, id, rest) /\
    caps = [id; ""] /\ m = "package" +:+ ws +:+ id /\
    packageName (packageStage text) = id.
Proof.
  intros Hs. unfold packageStage. rewrite Hs. simpl.
  apply search_Some_1 in Hs as (-> & Hm & _).
  rewrite rmatch_packageRE in Hm.
  destruct (declAt "package" (m +:+ rest)) as [[[ws id] rest']|] eqn:E; [|done].
  injection Hm as <- <- <-. exists ws, id.
  rewrite !sapp_assoc in *. done.
Qed.

Lemma packageStage_named (text : string) :
  search packageRE text <> None -> packageName (packageStage text) <> "".
Proof.
  destruct (search packageRE text) as [[pre [[caps m] rest]]|] eqn:E; [|done].
  intros _. destruct (packageStage_found _ _ _ _ _ E) as (ws & id & _ & Hd & _ & _ & ->).
  by apply declAt_Some in Hd as (_ & _ & _ & ? & _).
Qed.

Lemma packageStage_unnamed (text : string) :
  search packageRE text = None -> packageStage text = mkParse "" [].
Proof. unfold packageStage. by intros ->. Qed.

Lemma serviceOf_rpcs (b : mres) (s : ProtoService) :
  serviceOf b = Some s -> Service.rpcs s <> [].
Proof.
  unfold serviceOf, matchG. destruct (scan rpcRE 0 (matched b)) as [|r ms]; [done|].
  by intros [= <-].
Qed.

Lemma servicesOf_rpcs (ms : list mres) (ss : list ProtoService) (s : ProtoService) :
  servicesOf ms = Some ss -> s ∈ ss -> Service.rpcs s <> [].
Proof.
  revert ss. induction ms as [|b ms IH]; intros ss; simpl.
  - intros [= <-] ?%elem_of_nil. done.
  - destruct (serviceOf b) as [s0|] eqn:E; [|done].
    destruct (servicesOf ms) as [ss0|]; [|done].
    intros [= <-] [->|Hin]%elem_of_cons; [by eapply serviceOf_rpcs|by eapply IH].
Qed.

(** A model that [parseProto] returns has no service without RPCs, and
    its services are those of the scan, in the order of the text. *)
Lemma parsed_services_have_rpcs (text : string) (r : ProtoParse) :
  parseProtoText text = inr r ->
  servicesOf (scan servicesRE 0 text) = Some (services r)
  /\ (forall s, s ∈ services r -> Service.rpcs s <> []).
Proof.
  unfold parseProtoText. destruct (search packageRE text) as [x|] eqn:Hp.
  - rewrite servicesLoop_named by (apply packageStage_named; by rewrite Hp).
    destruct (servicesOf _) as [ss|] eqn:E; [|done]. intros [= <-]. simpl.
    rewrite packageStage_services. simpl. split; [done|].
    intros s Hs. by apply (servicesOf_rpcs _ _ _ E Hs).
  - rewrite (packageStage_unnamed _ Hp).
    destruct (scan servicesRE 0 text) as [|b ms]; [|rewrite servicesLoop_unnamed by done;
                                                     by destruct (matchG _ _)].
    intros [= <-]. simpl. split; [done|]. by intros s ?%elem_of_nil.
Qed.

(** ** Reading and parsing the schema file *)

Lemma bind_inr {A B} (m : io A) (k : A -> io B) (w w' : world) (b : B) :
  bind m k w = (inr b, w') ->
  exists a w1, m w = (inr a, w1) /\ k a w1 = (inr b, w').
Proof.
  unfold bind. destruct (m w) as [[e|a] w1]; [done|]. intros H. by exists a, w1.
Qed.

Lemma parseProto_reads (filePath : string) (w : world) :
  parseProto filePath w =
    (match fs w !! filePath with
     | Some (File d) => parseProtoText d
     | Some Dir => inl (IsADirectory filePath)
     | None => inl (NotFound filePath)
     end, w).
Proof.
  unfold parseProto, bind, readTextFile.
  destruct (fs w !! filePath) as [[d|]|]; try done.
  by destruct (parseProtoText d).
Qed.

Lemma PerService_parseProto_reads (filePath : string) (w : world) :
  PerService.parseProto filePath w =
    (match fs w !! filePath with
     | Some (File d) => PerService.parseProtoText d
     | Some Dir => inl (IsADirectory filePath)
     | None => inl (NotFound filePath)
     end, w).
Proof.
  unfold PerService.parseProto, bind, readTextFile.
  destruct (fs w !! filePath) as [[d|]|]; try done.
  by destruct (PerService.parseProtoText d).
Qed.

(** When the text of the schema does not parse, the run throws the
    exception of [parseProto] and nothing has been written. *)
Lemma run_parse_failure {P : PathLib} (flags : Flags) (w : world) (d : string) (e : exn) :
  proto flags <> "" ->
  fs w !! proto flags = Some (File d) ->
  parseProtoText d = inl e ->
  run flags w = (inl e, mkWorld (fs w) (force flags) (trace w)).
Proof.
  intros Hp Hd He. unfold run. unfold bind at 1. unfold setClobber at 1.
  destruct (String.eqb_spec (proto flags) "") as [?|_]; [done|].
  unfold bind at 1. rewrite parseProto_reads. cbn [fs clobber trace].
  by rewrite Hd, He.
Qed.

(** The schema of the README: one service, two RPCs. *)
Example parse_calc : parseProtoText calcProto = inr calcModel.
Proof. vm_compute. reflexivity. Qed.

Example scan_calc :
  scan servicesRE 0 calcProto =
    [(["Calc";
       " {" +:+ nl +:+ "  rpc Add(AddRequest) returns (CalcResponse) {}" +:+ nl +:+
       "  rpc Average(AverageRequest) returns (CalcResponse) {"],
      "service Calc {" +:+ nl +:+ "  rpc Add(AddRequest) returns (CalcResponse) {}" +:+ nl +:+
      "  rpc Average(AverageRequest) returns (CalcResponse) {}" +:+ nl +:+ "}",
      nl)].
Proof. vm_compute. reflexivity. Qed.

Example rpc_line_groups :
  search rpcLineRE "rpc Add(AddRequest) returns (CalcResponse) {}" =
    Some ("", (["Add"; "AddRequest"; "CalcResponse"],
               "rpc Add(AddRequest) returns (CalcResponse) {}", "")).
Proof. vm_compute. reflexivity. Qed.

(** C2, as the code has it.  A schema text no part of which is a service
    declaration is parsed without error: the model has the package name of
    the package stage and no service (the per-service variant returns the
    empty list). *)
Theorem no_service_gives_empty_model (text : string) :
  (forall pre m post, text = pre +:+ m +:+ post -> ~ Lang servicesRE m) ->
  parseProtoText text = inr (mkParse (packageName (packageStage text)) [])
  /\ PerService.parseProtoText text = inr [].
Proof.
  intros H%search_None_Lang%scan_nil.
  unfold parseProtoText, PerService.parseProtoText. rewrite H. simpl.
  pose proof (packageStage_services text). by destruct (packageStage text); simplify_eq/=.
Qed.

Lemma no_service_gives_empty_model_witness :
  parseProtoText noServiceProto = inr (mkParse "Calc" [])
  /\ PerService.parseProtoText noServiceProto = inr [].
Proof.
  apply (no_service_gives_empty_model noServiceProto).
  apply search_None_Lang. vm_compute. reflexivity.
Defined.

(** C2, as stated, fails: this schema has no service declaration, and its
    extraction returns a model with an empty service list. *)
Lemma no_service_is_not_an_error :
  search servicesRE noServiceProto = None
  /\ (forall pre m post, noServiceProto = pre +:+ m +:+ post -> ~ Lang servicesRE m)
  /\ parseProtoText noServiceProto = inr (mkParse "Calc" [])
  /\ PerService.parseProtoText noServiceProto = inr [].
Proof.
  assert (search servicesRE noServiceProto = None) as H by (vm_compute; reflexivity).
  split_and!; [done|by apply search_None_Lang|vm_compute; reflexivity..].
Qed.

(** Without a package line and with a service block, extraction throws:
    the error for missing [rpc] lines when the first block has none, the
    [TypeError] of the package back-fill otherwise. *)
Lemma missing_package_always_throws (text : string) :
  search packageRE text = None ->
  scan servicesRE 0 text <> [] ->
  parseProtoText text = inl noRpcEntries \/ parseProtoText text = inl undefinedName.
Proof.
  intros Hp Hs. unfold parseProtoText. rewrite (packageStage_unnamed _ Hp).
  destruct (scan servicesRE 0 text) as [|b ms]; [done|].
  rewrite servicesLoop_unnamed by done.
  destruct (matchG rpcRE (matched b)); [by right|by left].
Qed.

(** C3, on the code.  The schema [noPackageProto] has one service block,
    [Calc], with an [rpc] line, and no package declaration; its extraction
    throws the [TypeError] of [r.services?.[0].name] instead of returning a
    model whose package name is [Calc]. *)
Theorem missing_package_throws_TypeError :
  search packageRE noPackageProto = None
  /\ map captures (scan servicesRE 0 noPackageProto) =
       [["Calc"; " {" +:+ nl +:+ "  rpc Add(AddRequest) returns (CalcResponse) {"]]
  /\ servicesOf (scan servicesRE 0 noPackageProto) =
       Some [Service.mk "Calc" [Rpc.mk "Add" "AddRequest" "CalcResponse"]]
  /\ parseProtoText noPackageProto = inl undefinedName.
Proof. vm_compute. done. Qed.

Lemma no_rpc_line (blk : string) :
  (forall pre m post, blk = pre +:+ m +:+ post -> ~ Lang rpcRE m) <->
  matchG rpcRE blk = None.
Proof. by rewrite matchG_None, search_None_Lang. Qed.

(** C6.  When one of the service blocks that the scan finds has no part of
    the shape [rpc <name>(<inType>) returns (<outType>) {}], extraction
    throws and returns no model, and a run on that text stops there, with
    nothing written.  The exception is the one for missing
    [rpc] entries in the per-service variant, and in [generator.ts] when
    the text has a package declaration or the block is the first one; a
    text without a package declaration whose first block has [rpc] lines
    already stopped at that block, with the [TypeError] of the package
    back-fill. *)
Theorem service_block_without_rpc_throws (text : string) (blk : mres) :
  blk ∈ scan servicesRE 0 text ->
  (forall pre m post, matched blk = pre +:+ m +:+ post -> ~ Lang rpcRE m) ->
  (exists e, parseProtoText text = inl e)
  /\ (is_Some (search packageRE text) -> parseProtoText text = inl noRpcEntries)
  /\ (head (scan servicesRE 0 text) = Some blk -> parseProtoText text = inl noRpcEntries)
  /\ PerService.parseProtoText text = inl noRpcEntries
  /\ (forall (P : PathLib) flags w,
        proto flags <> "" -> fs w !! proto flags = Some (File text) ->
        exists e, run flags w = (inl e, mkWorld (fs w) (force flags) (trace w))).
Proof.
  intros Hblk Hno%no_rpc_line.
  assert (servicesOf (scan servicesRE 0 text) = None) as Hnone.
  { apply servicesOf_None. by exists blk. }
  assert (is_Some (search packageRE text) -> parseProtoText text = inl noRpcEntries) as Hnamed.
  { intros [x Hx]. unfold parseProtoText. rewrite servicesLoop_named, Hnone; [done|].
    apply packageStage_named. by rewrite Hx. }
  assert (head (scan servicesRE 0 text) = Some blk ->
          parseProtoText text = inl noRpcEntries) as Hfirst.
  { intros Hhd. destruct (search packageRE text) as [x|] eqn:Hp; [by apply Hnamed|].
    unfold parseProtoText. rewrite (packageStage_unnamed _ Hp).
    destruct (scan servicesRE 0 text) as [|b ms]; [done|]. simpl in Hhd.
    injection Hhd as ->. by rewrite servicesLoop_unnamed, Hno. }
  assert (exists e, parseProtoText text = inl e) as (e & He).
  { destruct (search packageRE text) as [x|] eqn:Hp.
    - exists noRpcEntries. by apply Hnamed.
    - destruct (missing_package_always_throws text Hp) as [->| ->]; [|by eexists..].
      intros Hnil. rewrite Hnil in Hblk. by apply elem_of_nil in Hblk. }
  split_and!; [by exists e|done|done| |].
  - unfold PerService.parseProtoText. by rewrite PerService_servicesLoop, Hnone.
  - intros P flags w Hp Hd. exists e. by apply (run_parse_failure flags w text).
Qed.

Lemma service_block_without_rpc_throws_witness :
  (exists e, parseProtoText emptyBlockProto = inl e)
  /\ (is_Some (search packageRE emptyBlockProto) ->
      parseProtoText emptyBlockProto = inl noRpcEntries)
  /\ (head (scan servicesRE 0 emptyBlockProto) =
        Some (["Feed"; " {" +:+ nl +:+ "  rpc Watch(WatchRequest) returns (stream Tick) {" +:+ nl +:+ "  "],
              "service Feed {" +:+ nl +:+ "  rpc Watch(WatchRequest) returns (stream Tick) {" +:+ nl +:+ "  }" +:+ nl +:+ "}",
              nl) ->
      parseProtoText emptyBlockProto = inl noRpcEntries)
  /\ PerService.parseProtoText emptyBlockProto = inl noRpcEntries
  /\ (forall (P : PathLib) flags w,
        proto flags <> "" -> fs w !! proto flags = Some (File emptyBlockProto) ->
        exists e, run flags w = (inl e, mkWorld (fs w) (force flags) (trace w))).
Proof.
  apply (service_block_without_rpc_throws emptyBlockProto).
  - vm_compute. apply list_elem_of_In. right. left. reflexivity.
  - apply no_rpc_line. vm_compute. reflexivity.
Defined.

(** ** The package name *)

(** C10.  The package name that [parseProto] reads is the identifier of
    the first place in the text, whatever precedes it, where the letters
    [package] are followed by white space and a word character: the
    longest run of word characters after the white space.  When the text
    has no such place the name is empty after this stage.  A model that
    [parseProto] returns carries the name of this stage. *)
Theorem package_name_is_first_unanchored_match (text : string) :
  (forall pre ws id rest,
      text = pre +:+ "package" +:+ ws +:+ id +:+ rest ->
      ws <> "" -> allb isSpace ws = true ->
      id <> "" -> allb isWord id = true ->
      startsWith isWord rest = false ->
      (forall p q, text = p +:+ q ->
         String.length p < String.length pre -> ~ StartsPackageDecl q) ->
      packageName (packageStage text) = id)
  /\ ((forall p q, text = p +:+ q -> ~ StartsPackageDecl q) ->
      packageName (packageStage text) = "")
  /\ (forall r, parseProtoText text = inr r ->
      packageName r = packageName (packageStage text)).
Proof.
  split_and!.
  - intros pre ws id rest -> Hws Hs Hid Hw Hr Hfirst.
    assert (search packageRE (pre +:+ ("package" +:+ ws +:+ id) +:+ rest) =
            Some (pre, ([id; ""], "package" +:+ ws +:+ id, rest))) as Hsearch.
    { apply search_Some_2.
      - rewrite rmatch_packageRE, !sapp_assoc.
        by rewrite (proj2 (declAt_Some "package" _ ws id rest)).
      - intros p q -> Hq. rewrite rmatch_packageRE.
        rewrite (proj2 (declAt_package_None _)); [done|].
        apply (Hfirst p); [by rewrite !sapp_assoc|].
        rewrite slength_app. destruct q; [done|]. simpl. lia. }
    rewrite !sapp_assoc in Hsearch.
    by destruct (packageStage_found _ _ _ _ _ Hsearch) as (ws' & id' & _ & _ & [= <-] & _ & ->).
  - intros Hnone. rewrite packageStage_unnamed; [done|].
    apply search_None. intros p q ->. rewrite rmatch_packageRE.
    by rewrite (proj2 (declAt_package_None q) (Hnone p q eq_refl)).
  - intros r. unfold parseProtoText.
    destruct (search packageRE text) as [x|] eqn:Hp.
    + rewrite servicesLoop_named by (apply packageStage_named; by rewrite Hp).
      destruct (servicesOf _); [|done]. by intros [= <-].
    + rewrite (packageStage_unnamed _ Hp).
      destruct (scan servicesRE 0 text) as [|b ms]; [by intros [= <-]|].
      rewrite servicesLoop_unnamed by done. by destruct (matchG _ _).
Qed.

(** The match is not anchored: a comment, the inside of a service block
    and the end of a longer word all give the package name. *)
Example package_name_from_a_comment :
  packageName (packageStage ("// package  notes" +:+ nl +:+ "package Calc;")) = "notes".
Proof. vm_compute. reflexivity. Qed.

Example package_name_inside_a_service_block :
  packageName
    (packageStage ("service Calc {" +:+ nl +:+ "  // see package docs" +:+ nl +:+
                   "  rpc Add(A) returns (B) {}" +:+ nl +:+ "}" +:+ nl)) = "docs".
Proof. vm_compute. reflexivity. Qed.

Example package_name_after_repackage :
  packageName (packageStage ("option note = 'repackage later';" +:+ nl)) = "later".
Proof. vm_compute. reflexivity. Qed.

Example package_name_skips_a_place_without_identifier :
  packageName (packageStage ("// package : see below" +:+ nl +:+ "package Calc;")) = "Calc".
Proof. vm_compute. reflexivity. Qed.

(** ** Runs *)

Lemma save_inr (p d : string) (w w' : world) (u : unit) :
  save p d w = (inr u, w') ->
  w' = mkWorld (<[p := File d]> (fs w)) (clobber w) (trace w ++ [Wrote p d]).
Proof. unfold save. destruct (fs w !! p) as [[?|]|]; by intros [= <-]. Qed.

Lemma copy_inr (a b : string) (w w' : world) (u : unit) :
  copy a b w = (inr u, w') ->
  exists d, fs w !! a = Some (File d) /\
    w' = mkWorld (<[b := File d]> (fs w)) (clobber w) (trace w ++ [Wrote b d]).
Proof.
  intros (d & w1 & Hr & Hs)%bind_inr. unfold readTextFile in Hr.
  destruct (fs w !! a) as [[d'|]|] eqn:E; try done. injection Hr as <- <-.
  exists d'. split; [done|]. by apply save_inr in Hs.
Qed.




(** C5.  When the output directory exists and the force flag is off, the
    run throws and leaves the file store and the trace as they were: no
    directory is made, no file is written (the copy of the schema
    included), nothing is logged; this holds in both variants.  The
    exception is [<outDir> exists --force to overwrite] whenever the
    [--proto] flag is given and the schema file is read and parsed; a
    missing flag, an unreadable file or a parse error is reported first. *)
Theorem existing_output_without_force_is_rejected
    {P : PathLib} (flags : Flags) (w : world) :
  is_Some (fs w !! out flags) ->
  force flags = false ->
  (exists e,
     run flags w = (inl e, mkWorld (fs w) false (trace w))
     /\ (forall d parse,
           proto flags <> "" ->
           fs w !! proto flags = Some (File d) ->
           parseProtoText d = inr parse ->
           e = Error (out flags +:+ " exists --force to overwrite")))
  /\ (exists e,
     PerService.run flags w = (inl e, mkWorld (fs w) false (trace w))
     /\ (forall d services,
           proto flags <> "" ->
           fs w !! proto flags = Some (File d) ->
           PerService.parseProtoText d = inr services ->
           e = Error (out flags +:+ " exists --force to overwrite"))).
Proof.
  intros Hex Hforce. split.
  - unfold run. unfold bind at 1. unfold setClobber at 1. rewrite Hforce.
    destruct (String.eqb_spec (proto flags) "") as [Hp|Hp].
    { eexists. split; [reflexivity|]. intros d parse Hne. done. }
    unfold bind at 1. rewrite parseProto_reads. cbn [fs clobber trace].
    destruct (fs w !! proto flags) as [[d|]|] eqn:Hd.
    + destruct (parseProtoText d) as [e|parse] eqn:Hparse.
      * eexists. split; [reflexivity|]. intros d' parse' _ [= <-]. congruence.
      * unfold bind at 1. unfold exists_ at 1. cbn [fs clobber trace].
        rewrite bool_decide_true by done.
        unfold bind at 1. unfold bind at 1. unfold getClobber at 1.
        cbn [fs clobber trace negb]. unfold throw.
        eexists. split; [reflexivity|]. done.
    + eexists. split; [reflexivity|]. intros d' parse' _ [=].
    + eexists. split; [reflexivity|]. intros d' parse' _ [=].
  - unfold PerService.run. unfold bind at 1. unfold setClobber at 1. rewrite Hforce.
    destruct (String.eqb_spec (proto flags) "") as [Hp|Hp].
    { eexists. split; [reflexivity|]. intros d parse Hne. done. }
    unfold bind at 1. rewrite PerService_parseProto_reads. cbn [fs clobber trace].
    destruct (fs w !! proto flags) as [[d|]|] eqn:Hd.
    + destruct (PerService.parseProtoText d) as [e|parse] eqn:Hparse.
      * eexists. split; [reflexivity|]. intros d' parse' _ [= <-]. congruence.
      * unfold bind at 1. unfold exists_ at 1. cbn [fs clobber trace].
        rewrite bool_decide_true by done.
        unfold bind at 1. unfold bind at 1. unfold getClobber at 1.
        cbn [fs clobber trace negb]. unfold throw.
        eexists. split; [reflexivity|]. done.
    + eexists. split; [reflexivity|]. intros d' parse' _ [=].
    + eexists. split; [reflexivity|]. intros d' parse' _ [=].
Qed.

Lemma existing_output_without_force_is_rejected_witness :
  run (P:=simplePath) plainFlags editedWorld =
    (inl (Error "out exists --force to overwrite"), editedWorld)
  /\ PerService.run (P:=simplePath) plainFlags editedWorld =
    (inl (Error "out exists --force to overwrite"), editedWorld).
Proof.
  destruct (existing_output_without_force_is_rejected (P:=simplePath)
              plainFlags editedWorld) as [(e & He & Hmsg) (e' & He' & Hmsg')].
  - vm_compute. eexists. reflexivity.
  - reflexivity.
  - rewrite He, He'.
    rewrite (Hmsg calcProto calcModel); [|done|reflexivity|vm_compute; reflexivity].
    rewrite (Hmsg' calcProto [calcService]); [|done|reflexivity|vm_compute; reflexivity].
    split; reflexivity.
Defined.

(** C4, on the code.  A forced run over an output directory that holds an
    edited [calc_handlers.ts] for the service [Calc] looks for
    [Calc_handlers.ts], finds no such file, takes no back-up, and replaces
    the edited file by a fresh stub: the edits are lost. *)
Theorem forced_run_overwrites_edited_stub_without_backup :
  let r := run (P:=simplePath) forcedFlags editedWorld in
  fs editedWorld !! "out/calc_handlers.ts" = Some (File editedStub)
  /\ r.1 = inr 0%Z
  /\ fs r.2 !! "out/Calc_handlers.ts" = None
  /\ fs r.2 !! "out/calc_handlers.bak" = None
  /\ fs r.2 !! "out/calc_handlers.ts" = Some (File (stubsText calcService "service"))
  /\ occursb editedStub (stubsText calcService "service") = false
  /\ Forall (fun ev => match ev with Wrote _ d => String.eqb d editedStub = false | _ => True end)
       (trace r.2).
Proof. vm_compute. split_and!; try done. repeat constructor. Qed.

(** The back-up is taken when the name of the service is in lower case. *)
Example forced_run_backs_up_lower_case_service :
  let r := run (P:=simplePath) forcedFlags lowerWorld in
  r.1 = inr 0%Z
  /\ fs r.2 !! "out/calc_handlers.bak" = Some (File editedStub).
Proof. vm_compute. done. Qed.



(** One write of [package.json], with one service and with two. *)
Example one_manifest_write_whatever_the_services :
  length (filter (fun ev => wroteTo "out/package.json" ev = true)
            (trace (run (P:=simplePath) forcedFlags editedWorld).2)) = 1
  /\ length (filter (fun ev => wroteTo "out/package.json" ev = true)
            (trace (run (P:=simplePath) plainFlags twoServicesWorld).2)) = 1
  /\ map Service.name
       (match parseProtoText twoServicesProto with inr p => services p | inl _ => [] end) =
       ["Calc"; "Stats"].
Proof. vm_compute. done. Qed.

(** The per-service variant lists no transport library in its manifest. *)
Example PerService_manifest_has_no_nats :
  exists deps,
    prop "dependencies" (PerService.pkg (P:=simplePath) "service.proto") = Some (JObject deps)
    /\ get "ts-proto" deps = Some (JString "^1.137.0")
    /\ get "typescript" deps = Some (JString "^4.9.4")
    /\ get "nats" deps = None.
Proof. eexists. split; [reflexivity|]. done. Qed.

(** A run on a schema without a service completes and writes the service
    and client modules of an empty model. *)
Example run_without_service_completes :
  let w := mkWorld (<["service.proto" := File noServiceProto]> ∅) false [] in
  let r := run (P:=simplePath) plainFlags w in
  r.1 = inr 0%Z
  /\ is_Some (fs r.2 !! "out/calc_service.ts")
  /\ is_Some (fs r.2 !! "out/calc_clients.ts")
  /\ is_Some (fs r.2 !! "out/package.json").
Proof. vm_compute. split_and!; try done; by eexists. Qed.


(** The artifacts of the README's schema: the handlers [AddHandler] and
    [AverageHandler], the endpoints [Add] and [Average] of the group
    [Calc], and the class [CalcClient] with the methods [Add] and
    [Average] requesting [Calc.Add] and [Calc.Average]. *)
Example calc_artifacts :
  let r := run (P:=simplePath) plainFlags
             (mkWorld (<["service.proto" := File calcProto]> ∅) false []) in
  r.1 = inr 0%Z
  /\ map fst (map_to_list (fs r.2)) ≡ₚ
       ["service.proto"; "out"; "out/service.proto"; "out/calc_handlers.ts";
        "out/calc_service.ts"; "out/calc_clients.ts"; "out/package.json";
        "out/tsconfig.json"]
  /\ fs r.2 !! "out/calc_handlers.ts" = Some (File (stubsText calcService "service"))
  /\ forallb (fun p => occursb p (stubsText calcService "service"))
       ["export namespace Calc {";
        "export function AddHandler(r: AddRequest): Promise<CalcResponse>{";
        "export function AverageHandler(r: AverageRequest): Promise<CalcResponse>{"] = true
  /\ forallb (fun p => occursb p (mainText calcModel "service"))
       ["const calc = srv.addGroup(" +:+ dq +:+ "Calc" +:+ dq +:+ ");";
        "calc.addEndpoint(" +:+ dq +:+ "Add" +:+ dq;
        "calc.addEndpoint(" +:+ dq +:+ "Average" +:+ dq;
        "AddRequest.decode(m?.data)"; "AverageRequest.decode(m?.data)";
        "CalcResponse.encode(o).finish()"] = true
  /\ forallb (fun p => occursb p (clientText calcModel "service"))
       ["export class CalcClient {";
        "async Add(data: AddRequest): Promise<CalcResponse> {";
        "async Average(data: AverageRequest): Promise<CalcResponse> {";
        "this.nc.request(" +:+ dq +:+ "Calc.Add" +:+ dq;
        "this.nc.request(" +:+ dq +:+ "Calc.Average" +:+ dq;
        "return CalcResponse.decode(r.data);"] = true.
Proof.
  vm_compute. split_and!; try done.
  apply NoDup_Permutation; [repeat (constructor; [set_solver|]); constructor| |].
  - repeat (constructor; [set_solver|]); constructor.
  - intros x. set_solver.
Qed.
(** ** The model and the text *)

Lemma rmatch_LangC (re : regex) (s : string) caps m rest :
  rmatch re s = Some (caps, m, rest) -> LangC re caps m.
Proof.
  revert s caps m rest. induction re as [|a re IH]; intros s caps m rest; simpl.
  - by intros [= <- <- <-].
  - destruct a as [l|cls q|cls q].
    + destruct (strip_prefix l s) as [s'|] eqn:E; [|done].
      destruct (rmatch re s') as [[[caps' m'] rest']|] eqn:E2; [|done].
      intros [= <- <- <-]. exists m'. split; [done|]. by eapply IH.
    + destruct (repeat_ cls q (rmatch re) s) as [[w [[caps' m'] rest']]|] eqn:E; [|done].
      intros [= <- <- <-].
      apply repeat_sound in E as (s2 & -> & Hw & Hq & E2).
      exists w, m'. split_and!; try done. by eapply IH.
    + destruct (repeat_ cls q (rmatch re) s) as [[w [[caps' m'] rest']]|] eqn:E; [|done].
      intros [= <- <- <-].
      apply repeat_sound in E as (s2 & -> & Hw & Hq & E2).
      exists w, caps', m'. split_and!; try done. by eapply IH.
Qed.

Lemma LangC_rpcRE (caps : list string) (m : string) :
  LangC rpcRE caps m ->
  exists n i o, caps = [n; i; o] /\ IsRpcLine (Rpc.mk n i o) m.
Proof.
  unfold rpcRE. cbn [LangC].
  intros (m1 & -> & ws1 & m2 & -> & H1 & N1 & name & c2 & m3 & -> & -> & H2 & N2 &
          m4 & -> & inT & c3 & m5 & -> & -> & H3 & N3 & m6 & -> & ws2 & m7 & -> & H4 & N4 &
          m8 & -> & ws3 & m9 & -> & H5 & N5 & m10 & -> & outT & c4 & m11 & -> & -> & H6 & N6 &
          m12 & -> & ws4 & m13 & -> & H7 & N7 & m14 & -> & -> & ->).
  exists name, inT, outT. split; [done|].
  exists ws1, ws2, ws3, ws4. rewrite sapp_nil_r. unfold spaces, identifier, typeName.
  simpl. auto 20.
Qed.

Lemma sapp_split (a b c d : string) :
  a +:+ b = c +:+ d -> String.length c <= String.length a ->
  exists k, a = c +:+ k /\ d = k +:+ b.
Proof.
  revert a. induction c as [|x c IH]; intros a H Hlen.
  - exists a. by rewrite !sapp_nil_l in *.
  - destruct a as [|y a]; [simpl in Hlen; lia|].
    rewrite !sapp_cons in H. injection H as <- H. simpl in Hlen.
    destruct (IH a H) as (k & -> & ->); [lia|]. exists k. by rewrite sapp_cons.
Qed.

(** A lazy repetition stops at the first place where what follows it
    matches. *)
Lemma lazyStar_first cls next s w r :
  lazyStar cls next s = Some (w, r) ->
  exists s2, s = w +:+ s2 /\
    forall p q, w = p +:+ q -> q <> "" -> next (q +:+ s2) = None.
Proof.
  revert w. induction s as [|c s IH]; intros w; rewrite lazyStar_eq.
  - destruct (next "") as [r0|]; [|done]. intros [= <- <-]. exists "".
    split; [done|]. intros [|? ?] q; [|done]. rewrite sapp_nil_l. by intros <-.
  - destruct (next (String c s)) as [r0|] eqn:En.
    + intros [= <- <-]. exists (String c s). split; [done|].
      intros [|? ?] q; [|done]. rewrite sapp_nil_l. by intros <-.
    + destruct (cls c); [|done].
      destruct (lazyStar cls next s) as [[w' r']|] eqn:E; [|done]. intros [= <- <-].
      destruct (IH w' eq_refl) as (s2 & -> & Hmin). exists s2. split; [done|].
      intros [|x p] q Hpq Hq.
      * rewrite sapp_nil_l in Hpq. subst q. by rewrite sapp_cons.
      * rewrite sapp_cons in Hpq. injection Hpq as _ Hpq. by apply Hmin with p.
Qed.

(** A match of [servicesRE]: the header, the whole identifier as the
    name, and the text up to the first [closing]. *)
Lemma rmatch_servicesRE_shape (s : string) caps m rest :
  rmatch servicesRE s = Some (caps, m, rest) ->
  exists ws name body,
    caps = [name; body]
    /\ m = "service" +:+ ws +:+ name +:+ body +:+ closing
    /\ spaces ws /\ identifier name
    /\ startsWith isWord body = false
    /\ (forall p q, body +:+ closing = p +:+ closing +:+ q -> q = "").
Proof.
  unfold servicesRE. cbn [rmatch repeat_]. fold closing.
  destruct (strip_prefix "service" s) as [s1|]; [|done].
  destruct (greedyPlus isSpace _ s1) as [[ws [[caps1 m1] rest1]]|] eqn:E1; [|done].
  intros [= <- <- <-].
  apply greedyPlus_sound in E1 as (s2 & -> & Hws & Hws0 & E2).
  match type of E2 with
  | match greedyPlus isWord ?n s2 with _ => _ end = _ =>
      assert (forall c x, isWord c = true -> is_Some (n (String c x)) -> is_Some (n x))
        as Hnext
  end.
  { intros c x Hc [r Hr]. rewrite lazyStar_eq in Hr.
    assert (strip_prefix closing (String c x) = None) as Hnone.
    { destruct c as [[] [] [] [] [] [] [] []]; try done; by vm_compute in Hc. }
    rewrite Hnone in Hr.
    replace (isAny c) with true in Hr
      by (unfold isAny, isNonSpace; by destruct (isSpace c)).
    destruct (lazyStar isAny _ x) as [[w' [[? ?] ?]]|]; [by eexists|done]. }
  rewrite (greedyPlus_longest _ _ Hnext) in E2.
  pose proof (span_allb isWord s2) as Hname. pose proof (span_stop isWord s2) as Hstop.
  destruct (span isWord s2) as [name s3]. cbn [fst snd] in *.
  destruct name as [|c name]; [done|].
  destruct (lazyStar isAny _ s3) as [[body [[caps3 m3] rest3]]|] eqn:E3; [|done].
  injection E2 as <- <- <-.
  pose proof E3 as E3'. apply lazyStar_first in E3' as (s4 & -> & Hmin).
  apply lazyStar_sound in E3 as (s4' & Hs4 & _ & E4).
  destruct (strip_prefix closing s4') as [s5|] eqn:E5; [|done].
  injection E4 as <- <- <-. apply strip_prefix_Some in E5 as ->.
  assert (s4 = closing +:+ s5) as ->.
  { clear -Hs4. induction body as [|c body IH]; [done|].
    rewrite !sapp_cons in Hs4. injection Hs4 as Hs4. by apply IH. }
  exists ws, (String c name), body. rewrite !sapp_nil_r.
  split_and!; try done.
  - destruct body; [done|]. by rewrite sapp_cons in Hstop.
  - intros p q Hpq. destruct q as [|cq q]; [done|]. exfalso.
    destruct (sapp_split body closing p (closing +:+ String cq q) Hpq) as (k & -> & Hk).
    { apply (f_equal String.length) in Hpq. rewrite !slength_app in Hpq. simpl in *. lia. }
    assert (k <> "") as Hk0.
    { intros ->. rewrite sapp_nil_l in Hk. apply (f_equal String.length) in Hk.
      rewrite slength_app in Hk. simpl in Hk. lia. }
    specialize (Hmin p k eq_refl Hk0).
    replace (k +:+ closing +:+ s5) with (closing +:+ (String cq q +:+ s5)) in Hmin
      by (by rewrite <- (sapp_assoc closing), Hk, sapp_assoc).
    by rewrite strip_prefix_app in Hmin.
Qed.

(** The successive matches of a pattern whose matches are never empty. *)
Lemma scan_Scanned (re : regex) (s : string) :
  (forall x caps m rest, rmatch re x = Some (caps, m, rest) -> m <> "") ->
  Scanned re s (map matched (scan re 0 s)).
Proof.
  intros Hne. remember (String.length s) as n eqn:Hn. revert s Hn.
  induction n as [n IH] using lt_wf_ind. intros s ->.
  rewrite scan_search. destruct (search re s) as [[pre [[caps m] rest]]|] eqn:E.
  - apply search_Some_1 in E as (-> & Hm & Hpre).
    pose proof (Hne _ _ _ _ Hm) as Hm0.
    destruct (rmatch_sound _ _ _ _ _ Hm) as (_ & HL & _).
    assert (map matched
              ((caps, m, rest) ::
               match m with
               | "" => match rest with String _ r => scan re 0 r | "" => [] end
               | _ => scan re 0 rest
               end) = m :: map matched (scan re 0 rest)) as ->.
    { by destruct m. }
    constructor; [done|done| |].
    + intros p q x y -> Hq Hxy HLx.
      specialize (Hpre p q eq_refl Hq).
      destruct (rmatch_complete re x y HLx) as [r Hr]. rewrite <- Hxy in Hr. congruence.
    + eapply IH; [|reflexivity]. rewrite !slength_app.
      destruct m; [done|]. simpl. lia.
  - constructor. by apply search_None_Lang.
Qed.

Lemma rpcRE_match_nonempty (s : string) caps m rest :
  rmatch rpcRE s = Some (caps, m, rest) -> m <> "".
Proof. intros (_ & (m' & -> & _) & _)%rmatch_sound. done. Qed.

Lemma serviceOf_block (b : mres) (s : ProtoService) (q : string) :
  rmatch servicesRE q = Some b -> serviceOf b = Some s ->
  IsServiceBlock s (matched b).
Proof.
  destruct b as [[caps m] rest]. intros Hq.
  apply rmatch_servicesRE_shape in Hq
    as (ws & name & body & -> & -> & Hws & Hid & Hbody & Hfirst).
  unfold serviceOf, matched, captures. cbn [fst snd nth].
  set (blk := "service" +:+ ws +:+ name +:+ body +:+ closing).
  destruct (matchG rpcRE blk) as [lines|] eqn:E; [|done]. intros [= <-].
  exists ws, body, lines. cbn [Service.name Service.rpcs].
  assert (lines = map matched (scan rpcRE 0 blk) /\ lines <> []) as [Hl Hne].
  { unfold matchG in E. destruct (scan rpcRE 0 blk); [done|]. by injection E as <-. }
  split_and!; try done.
  - rewrite Hl. apply scan_Scanned, rpcRE_match_nonempty.
  - apply Forall2_fmap_l, Forall_Forall2_diag, Forall_forall. intros line Hline.
    unfold compose. destruct (rpcOfLine_defined _ _ _ E Hline) as (n & i & o & Hs & ->).
    apply search_Some_1 in Hs as (_ & Hm & _). rewrite sapp_nil_r in Hm.
    apply rmatch_LangC, LangC_rpcRE in Hm as (n' & i' & o' & [= <- <- <-] & H). done.
Qed.

Lemma servicesOf_blocks (ms : list mres) (ss : list ProtoService) :
  (forall b, b ∈ ms -> exists q, rmatch servicesRE q = Some b) ->
  servicesOf ms = Some ss ->
  Forall2 IsServiceBlock ss (map matched ms).
Proof.
  revert ss. induction ms as [|b ms IH]; intros ss Hall; simpl.
  - intros [= <-]. constructor.
  - destruct (serviceOf b) as [s|] eqn:Es; [|done].
    destruct (servicesOf ms) as [ss'|]; [|done]. intros [= <-]. constructor.
    + destruct (Hall b) as (q & Hq); [by left|]. by eapply serviceOf_block.
    + apply IH; [|done]. intros b' Hb'. apply Hall. by right.
Qed.

(** X1.  The services of a model that [parseProto] returns are the
    successive service blocks of the text, from left to right and without
    overlap: no block starts before the first one or between two of them,
    none is left after the last one.  Each service has the name of its
    block's header, and its RPCs are the successive RPC lines inside the
    block, in order, with the name, the input type and the output type
    written there; it has at least one. *)
Theorem parsed_model_follows_the_text (text : string) (r : ProtoParse) :
  parseProtoText text = inr r ->
  exists blocks : list string,
    Scanned servicesRE text blocks
    /\ Forall2 IsServiceBlock (services r) blocks.
Proof.
  intros [Hs _]%parsed_services_have_rpcs.
  exists (map matched (scan servicesRE 0 text)). split.
  - apply scan_Scanned, servicesRE_match_nonempty.
  - apply servicesOf_blocks; [|done]. intros b Hb. by eapply scan_elem.
Qed.

Lemma parsed_model_follows_the_text_witness :
  exists blocks : list string,
    Scanned servicesRE calcProto blocks
    /\ Forall2 IsServiceBlock [calcService] blocks.
Proof.
  apply (parsed_model_follows_the_text calcProto calcModel). vm_compute. reflexivity.
Defined.

Lemma search_package_decl (text : string) :
  is_Some (search packageRE text) <->
  exists p q, text = p +:+ q /\ StartsPackageDecl q.
Proof.
  split.
  - intros [[pre [[caps m] rest]] H].
    apply search_Some_1 in H as (-> & Hm & _). exists pre, (m +:+ rest). split; [done|].
    rewrite rmatch_packageRE in Hm.
    destruct (declAt "package" (m +:+ rest)) as [[[ws id] rest']|] eqn:E; [|done].
    apply declAt_Some in E as (-> & Hws0 & Hws & Hid0 & Hid & _).
    destruct id as [|c id]; [done|]. simpl in Hid. apply andb_true_iff in Hid as [Hc _].
    exists ws, c, (id +:+ rest'). by rewrite sapp_cons.
  - intros (p & q & -> & Hq). destruct (search packageRE (p +:+ q)) eqn:E; [by eexists|].
    exfalso. pose proof (proj1 (search_None _ _) E p q eq_refl) as Hn.
    rewrite rmatch_packageRE in Hn.
    destruct (declAt "package" q) as [[[ws id] rest']|] eqn:E2; [done|].
    by apply declAt_package_None in E2.
Qed.

(** X2.  For a text with a package declaration the two variants of
    [parseProto] agree: one fails exactly when the other does, with the
    same exception, and the services of the model that [generator.ts]
    returns are the list the per-service variant returns. *)
Theorem variants_parse_the_same_services (text p q : string) :
  text = p +:+ q -> StartsPackageDecl q ->
  (forall e, parseProtoText text = inl e <-> PerService.parseProtoText text = inl e)
  /\ (forall r, parseProtoText text = inr r ->
        PerService.parseProtoText text = inr (services r))
  /\ (forall ss, PerService.parseProtoText text = inr ss ->
        parseProtoText text = inr (mkParse (packageName (packageStage text)) ss)).
Proof.
  intros Htext Hq.
  assert (is_Some (search packageRE text)) as Hs.
  { apply search_package_decl. by exists p, q. }
  unfold parseProtoText, PerService.parseProtoText.
  rewrite servicesLoop_named by (apply packageStage_named; by destruct Hs as [? ->]).
  rewrite PerService_servicesLoop, packageStage_services.
  destruct (servicesOf (scan servicesRE 0 text)) as [ss|]; simpl.
  - split_and!; [done|by intros r [= <-]|by intros ? [= <-]].
  - split_and!; [by intros e; split; intros [= <-]|done|done].
Qed.

Lemma variants_parse_the_same_services_witness :
  PerService.parseProtoText calcProto = inr [calcService].
Proof.
  destruct (variants_parse_the_same_services calcProto
              ("syntax = 'proto3';" +:+ nl)
              ("package Calc;" +:+ nl +:+ "service Calc {" +:+ nl +:+
               "  rpc Add(AddRequest) returns (CalcResponse) {}" +:+ nl +:+
               "  rpc Average(AverageRequest) returns (CalcResponse) {}" +:+ nl +:+
               "}" +:+ nl)) as (_ & H & _).
  - vm_compute. reflexivity.
  - exists " ", "C"%char, ("alc;" +:+ nl +:+ "service Calc {" +:+ nl +:+
               "  rpc Add(AddRequest) returns (CalcResponse) {}" +:+ nl +:+
               "  rpc Average(AverageRequest) returns (CalcResponse) {}" +:+ nl +:+
               "}" +:+ nl).
    vm_compute. split_and!; done.
  - apply (H calcModel). vm_compute. reflexivity.
Defined.

(** X3.  A model with at least one service is returned only for a text
    that holds a package declaration, and its package name is the
    identifier of the first one: the fall-back to the name of the first
    service never supplies the package name of a returned model. *)
Theorem model_with_services_has_a_declared_package (text : string) (r : ProtoParse) :
  parseProtoText text = inr r ->
  services r <> [] ->
  exists pre ws rest,
    text = pre +:+ "package" +:+ ws +:+ packageName r +:+ rest
    /\ spaces ws /\ identifier (packageName r)
    /\ startsWith isWord rest = false
    /\ (forall p q, text = p +:+ q -> String.length p < String.length pre ->
          ~ StartsPackageDecl q).
Proof.
  intros Hr Hne.
  destruct (search packageRE text) as [[pre [[caps m] rest]]|] eqn:E.
  - destruct (packageStage_found _ _ _ _ _ E) as (ws & id & Htext & Hd & -> & -> & Hid).
    apply declAt_Some in Hd as (_ & Hws0 & Hws & Hid0 & Hidw & Hrest).
    assert (packageName r = id) as ->.
    { revert Hr. unfold parseProtoText.
      rewrite servicesLoop_named by (rewrite Hid; done).
      destruct (servicesOf _); [|done]. intros [= <-]. done. }
    exists pre, ws, rest. split_and!; try done.
    intros p q Hpq Hlen Hdecl.
    apply search_Some_1 in E as (Ht & _ & Hpre).
    assert (exists q1, pre = p +:+ q1 /\ q1 <> "" /\ q = q1 +:+ ("package" +:+ ws +:+ id) +:+ rest)
      as (q1 & -> & Hq1 & ->).
    { clear -Hpq Ht Hlen. rewrite Ht in Hpq. clear Ht.
      revert p Hpq Hlen. induction pre as [|c pre IH]; intros p Hpq Hlen; [simpl in Hlen; lia|].
      destruct p as [|c' p].
      - exists (String c pre). rewrite sapp_nil_l in Hpq. by rewrite sapp_nil_l.
      - rewrite !sapp_cons in Hpq. injection Hpq as <- Hpq. simpl in Hlen.
        destruct (IH p Hpq) as (q1 & -> & ? & ->); [lia|]. exists q1. by rewrite sapp_cons. }
    specialize (Hpre p q1 eq_refl Hq1). rewrite rmatch_packageRE in Hpre.
    destruct (declAt "package" _) as [[[? ?] ?]|] eqn:E2; [done|].
    by apply declAt_package_None in E2.
  - exfalso. revert Hr. unfold parseProtoText. rewrite (packageStage_unnamed _ E).
    destruct (scan servicesRE 0 text) as [|b ms].
    + intros [= <-]. done.
    + rewrite servicesLoop_unnamed by done. by destruct (matchG _ _).
Qed.

Lemma model_with_services_has_a_declared_package_witness :
  exists pre ws rest,
    calcProto = pre +:+ "package" +:+ ws +:+ "Calc" +:+ rest
    /\ spaces ws /\ identifier "Calc"
    /\ startsWith isWord rest = false
    /\ (forall p q, calcProto = p +:+ q -> String.length p < String.length pre ->
          ~ StartsPackageDecl q).
Proof.
  apply (model_with_services_has_a_declared_package calcProto calcModel).
  - vm_compute. reflexivity.
  - done.
Defined.

(** ** The names in a model *)

Lemma servicesOf_elem (ms : list mres) (ss : list ProtoService) (s : ProtoService) :
  servicesOf ms = Some ss -> s ∈ ss -> exists b, b ∈ ms /\ serviceOf b = Some s.
Proof.
  revert ss. induction ms as [|b ms IH]; intros ss; simpl.
  - intros [= <-] ?%elem_of_nil. done.
  - destruct (serviceOf b) as [s0|] eqn:E; [|done].
    destruct (servicesOf ms) as [ss0|]; [|done].
    intros [= <-] [->|Hin]%elem_of_cons.
    + exists b. split; [by left|done].
    + destruct (IH _ eq_refl Hin) as (b' & Hb' & Hs). exists b'. split; [by right|done].
Qed.

Lemma scanned_service_name (text : string) (ss : list ProtoService) (s : ProtoService) :
  servicesOf (scan servicesRE 0 text) = Some ss -> s ∈ ss ->
  allb isWord (Service.name s) = true.
Proof.
  intros Hss Hs. destruct (servicesOf_elem _ _ _ Hss Hs) as (b & Hb & Hsb).
  apply scan_elem in Hb as (q & Hq).
  destruct (serviceOf_block _ _ _ Hq Hsb) as (ws & body & lines & _ & _ & [_ H] & _).
  done.
Qed.

(** The names of a model that [parseProto] returns are made of word
    characters. *)
Lemma parsed_names_are_words (text : string) (r : ProtoParse) :
  parseProtoText text = inr r ->
  allb isWord (packageName r) = true
  /\ (forall s, s ∈ services r -> allb isWord (Service.name s) = true).
Proof.
  intros Hr. destruct (parsed_services_have_rpcs _ _ Hr) as [Hss _]. split.
  - revert Hr. unfold parseProtoText.
    destruct (search packageRE text) as [[pre [[caps m] rest]]|] eqn:E.
    + destruct (packageStage_found _ _ _ _ _ E) as (ws & id & _ & Hd & _ & _ & Hid).
      apply declAt_Some in Hd as (_ & _ & _ & Hid0 & Hw & _).
      rewrite servicesLoop_named by (by rewrite Hid).
      destruct (servicesOf _); [|done]. intros [= <-]. simpl. by rewrite Hid.
    + rewrite (packageStage_unnamed _ E).
      destruct (scan servicesRE 0 text) as [|b ms].
      * by intros [= <-].
      * rewrite servicesLoop_unnamed by done. by destruct (matchG _ _).
  - intros s Hs. by eapply scanned_service_name.
Qed.

Lemma PerService_parsed_names_are_words (text : string) (ss : list ProtoService) :
  PerService.parseProtoText text = inr ss ->
  forall s, s ∈ ss -> allb isWord (Service.name s) = true.
Proof.
  unfold PerService.parseProtoText. rewrite PerService_servicesLoop.
  destruct (servicesOf _) as [ss'|] eqn:E; [|done]. intros [= <-] s Hs.
  by eapply scanned_service_name.
Qed.

(** ** What a run may touch *)

#[local] Ltac word_ok :=
  first
    [ assumption
    | match goal with
      | H : forall s, _ -> allb isWord (Service.name s) = true |- _ =>
          apply H; assumption
      end ].

#[local] Ltac name_ok :=
  first
    [ assumption
    | left; reflexivity
    | right; left; reflexivity
    | right; right; left; reflexivity
    | right; right; right; eexists _, _;
      split; [|split; [|reflexivity]]; [word_ok|solve [repeat constructor]] ].

Section Confined.
Context {P : PathLib}.
Variable sfx : list string.
Variables outDir protoPath : string.

Lemma Within_refl (w : world) : Within sfx outDir protoPath w w.
Proof.
  split_and!; [done|done|]. exists []. by rewrite app_nil_r.
Qed.

Lemma Within_trans (w1 w2 w3 : world) :
  Within sfx outDir protoPath w1 w2 -> Within sfx outDir protoPath w2 w3 ->
  Within sfx outDir protoPath w1 w3.
Proof.
  intros (F1 & K1 & evs1 & T1 & E1) (F2 & K2 & evs2 & T2 & E2). split_and!.
  - intros p H1 H2. by rewrite F2, F1.
  - intros p Hp. by apply K2, K1.
  - exists (evs1 ++ evs2). rewrite T2, T1, app_assoc. split; [done|].
    by apply Forall_app.
Qed.

Lemma confined_ret {A} (a : A) : Confined sfx outDir protoPath (ret a).
Proof. intros w. apply Within_refl. Qed.

Lemma confined_throw {A} (e : exn) : Confined sfx outDir protoPath (throw (A:=A) e).
Proof. intros w. apply Within_refl. Qed.

(** [k] needs to be confined only on the values that [m] returns. *)
Lemma confined_bind_post {A B} (Q : A -> Prop) (m : io A) (k : A -> io B) :
  Confined sfx outDir protoPath m ->
  (forall w a w', m w = (inr a, w') -> Q a) ->
  (forall a, Q a -> Confined sfx outDir protoPath (k a)) ->
  Confined sfx outDir protoPath (bind m k).
Proof.
  intros Hm HQ Hk w. unfold bind. specialize (Hm w). specialize (HQ w).
  destruct (m w) as [[e|a] w1]; [done|].
  eapply Within_trans; [exact Hm|]. apply Hk. by eapply HQ.
Qed.

Lemma confined_bind {A B} (m : io A) (k : A -> io B) :
  Confined sfx outDir protoPath m ->
  (forall a, Confined sfx outDir protoPath (k a)) ->
  Confined sfx outDir protoPath (bind m k).
Proof.
  intros Hm Hk. apply (confined_bind_post (fun _ => True)); auto.
Qed.

Lemma confined_catch {A} (m : io A) (h : exn -> io A) :
  Confined sfx outDir protoPath m ->
  (forall e, Confined sfx outDir protoPath (h e)) ->
  Confined sfx outDir protoPath (catch m h).
Proof.
  intros Hm Hh w. unfold catch. specialize (Hm w).
  destruct (m w) as [[e|a] w1]; [|done].
  eapply Within_trans; [exact Hm|apply Hh].
Qed.

Lemma confined_console_log (line : string) :
  Confined sfx outDir protoPath (console_log line).
Proof.
  intros w. split_and!; [done|done|]. by exists [Log line]; repeat constructor.
Qed.

Lemma confined_console_error (line : string) :
  Confined sfx outDir protoPath (console_error line).
Proof.
  intros w. split_and!; [done|done|]. by exists [LogError line]; repeat constructor.
Qed.

Lemma confined_setClobber (b : bool) : Confined sfx outDir protoPath (setClobber b).
Proof.
  intros w. split_and!; [done|done|]. exists []. by rewrite app_nil_r.
Qed.

Lemma confined_getClobber : Confined sfx outDir protoPath getClobber.
Proof. intros w. apply Within_refl. Qed.

Lemma confined_exists (path : string) : Confined sfx outDir protoPath (exists_ path).
Proof. intros w. apply Within_refl. Qed.

Lemma confined_readTextFile (path : string) :
  Confined sfx outDir protoPath (readTextFile path).
Proof.
  intros w. unfold readTextFile. destruct (fs w !! path) as [[d|]|]; apply Within_refl.
Qed.

Lemma confined_mkdir : Confined sfx outDir protoPath (mkdir outDir).
Proof.
  intros w. unfold mkdir. destruct (fs w !! outDir) eqn:E; [apply Within_refl|].
  split_and!; cbn [fs trace snd].
  - intros p Hp _. by rewrite lookup_insert_ne.
  - intros p Hp. destruct (decide (outDir = p)) as [->|Hne].
    + rewrite E in Hp. by destruct Hp.
    + by rewrite lookup_insert_ne.
  - exists [MadeDir outDir]. split; [done|]. by repeat constructor.
Qed.

Lemma confined_save (x data : string) :
  OutputName sfx protoPath x ->
  Confined sfx outDir protoPath (save (path_join outDir x) data).
Proof.
  intros Hx w. unfold save.
  destruct (fs w !! path_join outDir x) as [[d|]|] eqn:E; [|apply Within_refl|].
  all: split_and!; cbn [fs trace snd].
  all: try (intros p _ Hp; rewrite lookup_insert_ne; [done|]; intros <-; by eapply Hp).
  all: try (intros p Hp; destruct (decide (path_join outDir x = p)) as [<-|Hne];
            [rewrite lookup_insert_eq; by eexists|by rewrite lookup_insert_ne]).
  all: exists [Wrote (path_join outDir x) data]; split; [done|];
       repeat constructor; by exists x.
Qed.

Lemma confined_copy (a x : string) :
  OutputName sfx protoPath x ->
  Confined sfx outDir protoPath (copy a (path_join outDir x)).
Proof.
  intros Hx. apply confined_bind; [apply confined_readTextFile|].
  intros d. by apply confined_save.
Qed.

Lemma confined_forOf {A} (l : list A) (body : A -> io unit) :
  (forall x, x ∈ l -> Confined sfx outDir protoPath (body x)) ->
  Confined sfx outDir protoPath (forOf l body).
Proof.
  induction l as [|x l IH]; intros Hbody; simpl; [apply confined_ret|].
  apply confined_bind; [apply Hbody; by left|]. intros _. apply IH.
  intros y Hy. apply Hbody. by right.
Qed.

Lemma confined_backupHandlers (s : ProtoService) :
  "_handlers.bak" ∈ sfx ->
  allb isWord (Service.name s) = true ->
  Confined sfx outDir protoPath (backupHandlers outDir s).
Proof.
  intros Hsfx Hs. unfold backupHandlers.
  apply confined_bind; [apply confined_exists|]. intros e.
  apply confined_bind; [apply confined_getClobber|]. intros c.
  destruct (e && c); [|apply confined_ret].
  apply confined_bind; [|intros _; apply confined_console_log].
  apply confined_copy. right. right. right. by eexists _, _.
Qed.

Lemma confined_parseProto (filePath : string) :
  Confined sfx outDir protoPath (parseProto filePath).
Proof. intros w. rewrite parseProto_reads. apply Within_refl. Qed.

Lemma confined_PerService_parseProto (filePath : string) :
  Confined sfx outDir protoPath (PerService.parseProto filePath).
Proof. intros w. rewrite PerService_parseProto_reads. apply Within_refl. Qed.

End Confined.

#[local] Ltac confined :=
  repeat first
    [ apply confined_ret | apply confined_throw | apply confined_console_log
    | apply confined_console_error | apply confined_setClobber
    | apply confined_getClobber | apply confined_exists | apply confined_mkdir
    | apply confined_parseProto | apply confined_PerService_parseProto
    | apply confined_backupHandlers; [solve [repeat constructor]|word_ok]
    | apply confined_copy; [name_ok]
    | apply confined_save; [name_ok]
    | apply confined_forOf; intros ? ?
    | apply confined_catch; [|intros ?]
    | apply confined_bind; [|intros ?]
    | match goal with |- Confined _ _ _ (if ?b then _ else _) => destruct b end ].

Lemma run_confined {P : PathLib} (flags : Flags) :
  Confined suffixes (out flags) (proto flags) (run flags).
Proof.
  unfold run. apply confined_bind; [apply confined_setClobber|]. intros _.
  destruct (String.eqb (proto flags) ""); [apply confined_throw|].
  apply (confined_bind_post _ _ _
           (fun parse => allb isWord (packageName parse) = true
              /\ forall s, s ∈ services parse -> allb isWord (Service.name s) = true)).
  - apply confined_parseProto.
  - intros w parse w' H. rewrite parseProto_reads in H. injection H as H _.
    destruct (fs w !! proto flags) as [[d|]|]; try done.
    by apply parsed_names_are_words in H.
  - intros parse [Hp Hs].
    unfold generateStubs, generateMain, generateClient, generateNodePackage,
      generateTscConfig, saveJSON. confined.
Qed.

Lemma PerService_run_confined {P : PathLib} (flags : Flags) :
  Confined perServiceSuffixes (out flags) (proto flags) (PerService.run flags).
Proof.
  unfold PerService.run. apply confined_bind; [apply confined_setClobber|]. intros _.
  destruct (String.eqb (proto flags) ""); [apply confined_throw|].
  apply (confined_bind_post _ _ _
           (fun ss => forall s, s ∈ ss -> allb isWord (Service.name s) = true)).
  - apply confined_PerService_parseProto.
  - intros w ss w' H. rewrite PerService_parseProto_reads in H. injection H as H _.
    destruct (fs w !! proto flags) as [[d|]|]; try done.
    by apply (PerService_parsed_names_are_words _ _ H).
  - intros ss Hs.
    unfold PerService.generateHandlers, PerService.generateMain,
      PerService.generateClient, PerService.generateNodePackage,
      generateTscConfig, saveJSON. confined.
Qed.


(** X4.  Whatever the flags and the file store, and whether the run
    completes or throws, a run changes nothing but its output directory
    and the files with an output name directly under it: every other
    path holds afterwards what it held before (the schema file it read
    included, when it lies elsewhere), no path that existed is removed,
    and the only events the run adds are the creation of the output
    directory, writes of files with an output name, and console lines. *)
Theorem run_changes_nothing_but_its_output_files
    {P : PathLib} (flags : Flags) (w : world) :
  (forall p, p <> out flags ->
     (forall x, OutputName suffixes (proto flags) x -> p <> path_join (out flags) x) ->
     fs (run flags w).2 !! p = fs w !! p)
  /\ (forall p, is_Some (fs w !! p) -> is_Some (fs (run flags w).2 !! p))
  /\ (exists evs, trace (run flags w).2 = trace w ++ evs
        /\ Forall (outputEvent suffixes (out flags) (proto flags)) evs).
Proof. exact (run_confined flags w). Qed.

(** X5.  The same holds of the per-service variant, with its own file
    names. *)
Theorem PerService_run_changes_nothing_but_its_output_files
    {P : PathLib} (flags : Flags) (w : world) :
  (forall p, p <> out flags ->
     (forall x, OutputName perServiceSuffixes (proto flags) x ->
        p <> path_join (out flags) x) ->
     fs (PerService.run flags w).2 !! p = fs w !! p)
  /\ (forall p, is_Some (fs w !! p) -> is_Some (fs (PerService.run flags w).2 !! p))
  /\ (exists evs, trace (PerService.run flags w).2 = trace w ++ evs
        /\ Forall (outputEvent perServiceSuffixes (out flags) (proto flags)) evs).
Proof. exact (PerService_run_confined flags w). Qed.

(** ** The files of a completed run *)

Lemma sapp_suffix_inj (a b s t : string) :
  String.length s = String.length t -> a +:+ s = b +:+ t -> a = b /\ s = t.
Proof.
  intros Hlen. revert b. induction a as [|c a IH]; intros b H.
  - destruct b as [|c' b]; [by rewrite !sapp_nil_l in H|].
    apply (f_equal String.length) in H. rewrite sapp_nil_l, slength_app in H.
    simpl in H. lia.
  - destruct b as [|c' b].
    + apply (f_equal String.length) in H. rewrite sapp_nil_l, slength_app in H.
      simpl in H. lia.
    + rewrite !sapp_cons in H. injection H as <- H.
      destruct (IH b H) as [-> ->]. done.
Qed.

(** Two names that end differently are different. *)
Lemma names_differ (a b s1 s2 t1 t2 : string) :
  String.length s2 = String.length t2 -> s2 <> t2 ->
  a +:+ s1 +:+ s2 <> b +:+ t1 +:+ t2.
Proof.
  intros Hlen Hne H. rewrite <- !sapp_assoc in H.
  apply sapp_suffix_inj in H as [_ H]; done.
Qed.

(** the ways to split a generated name so that the last four characters
    tell it from the others *)
#[local] Ltac split_name k :=
  first [ k "_handler" "s.ts" | k "_servic" "e.ts" | k "_client" "s.ts"
        | k "_clien" "t.ts" | k "_handlers" ".bak"
        | k "_handle" "rs.ts" | k "_clien" "ts.ts" ].

#[local] Ltac split_fixed k :=
  first [ k "package." "json" | k "tsconfig." "json" ].

#[local] Ltac names_ne :=
  first
    [ done
    | split_name ltac:(fun a1 a2 =>
        split_name ltac:(fun b1 b2 => apply (names_differ _ _ a1 a2 b1 b2); done))
    | split_fixed ltac:(fun a1 a2 =>
        split_name ltac:(fun b1 b2 => apply (names_differ "" _ a1 a2 b1 b2); done))
    | split_name ltac:(fun a1 a2 =>
        split_fixed ltac:(fun b1 b2 => apply (names_differ _ "" a1 a2 b1 b2); done)) ].

Section Artifacts.
Context {P : PathLib}.
Variables outDir genLib protoPath : string.
Hypothesis join_inj : forall a b,
  OutputName suffixes protoPath a -> OutputName suffixes protoPath b ->
  path_join outDir a = path_join outDir b -> a = b.

Lemma lookup_other (x y : string) (n : node) (m : gmap string node) :
  OutputName suffixes protoPath x -> OutputName suffixes protoPath y -> x <> y ->
  <[path_join outDir x := n]> m !! path_join outDir y = m !! path_join outDir y.
Proof.
  intros Hx Hy Hne. rewrite lookup_insert_ne; [done|]. intros H. by apply join_inj in H.
Qed.

Lemma stubName_ok (s : ProtoService) :
  allb isWord (Service.name s) = true -> OutputName suffixes protoPath (stubName s).
Proof. intros Hw. name_ok. Qed.

Lemma bakName_ok (s : ProtoService) :
  allb isWord (Service.name s) = true -> OutputName suffixes protoPath (bakName s).
Proof. intros Hw. name_ok. Qed.

Lemma backupHandlers_fs (s : ProtoService) (w w' : world) (u : unit) :
  backupHandlers outDir s w = (inr u, w') ->
  clobber w' = clobber w
  /\ (fs w' = fs w \/ exists d, fs w' = <[path_join outDir (bakName s) := File d]> (fs w))
  /\ (forall d, clobber w = true ->
        fs w !! path_join outDir (Service.name s +:+ "_handlers.ts") = Some (File d) ->
        fs w' = <[path_join outDir (bakName s) := File d]> (fs w)).
Proof.
  unfold backupHandlers. intros (e & w2 & He & Hb)%bind_inr.
  injection He as <- <-. apply bind_inr in Hb as (c & w2 & Hc & Hb).
  injection Hc as <- <-.
  destruct (bool_decide (is_Some (fs w !! _))) eqn:Hex; cbn [andb] in Hb.
  - destruct (clobber w) eqn:Hc.
    + apply bind_inr in Hb as (u2 & w2 & (d & Hd & ->)%copy_inr & Hlog).
      unfold console_log, emit in Hlog. injection Hlog as <- <-. cbn [fs clobber].
      split_and!; [done|right; by exists d|]. intros d' _ Hd'.
      rewrite Hd in Hd'. by injection Hd' as <-.
    + injection Hb as <- <-. split_and!; [done|by left|done].
  - injection Hb as <- <-. split_and!; [done|by left|].
    intros d _ Hd. apply bool_decide_eq_false in Hex. destruct Hex. by eexists.
Qed.

Lemma body_fs (s : ProtoService) (w w' : world) (u : unit) :
  allb isWord (Service.name s) = true ->
  stubStep outDir genLib s w = (inr u, w') ->
  clobber w' = clobber w
  /\ fs w' !! path_join outDir (stubName s) = Some (File (stubsText s genLib))
  /\ (forall x, OutputName suffixes protoPath x -> x <> stubName s -> x <> bakName s ->
        fs w' !! path_join outDir x = fs w !! path_join outDir x)
  /\ (forall d, clobber w = true ->
        fs w !! path_join outDir (Service.name s +:+ "_handlers.ts") = Some (File d) ->
        fs w' !! path_join outDir (bakName s) = Some (File d)).
Proof.
  intros Hw. unfold stubStep. intros (u1 & w1 & Hb & Hg)%bind_inr.
  unfold generateStubs in Hg. apply save_inr in Hg as ->. cbn [fs clobber].
  apply backupHandlers_fs in Hb as (Hc & Hb & Hbak).
  pose proof (stubName_ok s Hw) as Hs1. pose proof (bakName_ok s Hw) as Hs2.
  fold (stubName s). split_and!.
  - done.
  - by rewrite lookup_insert_eq.
  - intros x Hx Hx1 Hx2. rewrite lookup_other by done.
    destruct Hb as [->|(d & ->)]; [done|]. by rewrite lookup_other.
  - intros d Hcl Hd. rewrite lookup_other; [|done|done|unfold stubName, bakName; names_ne].
    rewrite (Hbak d Hcl Hd). by rewrite lookup_insert_eq.
Qed.

Lemma loop_fs (l : list ProtoService) (w w' : world) (u : unit) :
  (forall s, s ∈ l -> allb isWord (Service.name s) = true) ->
  forOf l (stubStep outDir genLib) w = (inr u, w') ->
  clobber w' = clobber w
  /\ (forall x, OutputName suffixes protoPath x ->
        (forall s, s ∈ l -> x <> stubName s /\ x <> bakName s) ->
        fs w' !! path_join outDir x = fs w !! path_join outDir x)
  /\ (NoDup (map (fun s => toLowerCase (Service.name s)) l) ->
      forall s, s ∈ l ->
        fs w' !! path_join outDir (stubName s) = Some (File (stubsText s genLib))).
Proof.
  revert w. induction l as [|s0 l IH]; intros w Hw; simpl.
  - intros [= _ <-]. split_and!; [done|done|]. by intros _ s ?%elem_of_nil.
  - intros (u1 & w1 & H0 & Hl)%bind_inr.
    destruct (body_fs _ _ _ _ (Hw s0 ltac:(by left)) H0) as (Hc & Hstub & Hframe & _).
    destruct (IH w1 (fun s Hs => Hw s ltac:(by right)) Hl) as (IHc & IHframe & IHstubs).
    split_and!.
    + congruence.
    + intros x Hx Hne. rewrite IHframe; [|done|intros s Hs; apply Hne; by right].
      destruct (Hne s0) as [? ?]; [by left|]. by apply Hframe.
    + intros [Hnotin Hnd]%NoDup_cons s [->|Hs]%elem_of_cons; [|by apply IHstubs].
      rewrite IHframe; [done|by apply stubName_ok, Hw; left|].
      intros s' Hs'. split.
      * intros [Heq _]%sapp_suffix_inj; [|done]. apply Hnotin.
        rewrite Heq. apply list_elem_of_fmap. by exists s'.
      * unfold stubName, bakName. names_ne.
Qed.

Lemma loop_backup (l : list ProtoService) (w w' : world) (u : unit)
    (s : ProtoService) (d : string) :
  (forall s, s ∈ l -> allb isWord (Service.name s) = true) ->
  forOf l (stubStep outDir genLib) w = (inr u, w') ->
  NoDup (map (fun s => toLowerCase (Service.name s)) l) ->
  s ∈ l ->
  toLowerCase (Service.name s) = Service.name s ->
  clobber w = true ->
  fs w !! path_join outDir (Service.name s +:+ "_handlers.ts") = Some (File d) ->
  fs w' !! path_join outDir (bakName s) = Some (File d).
Proof.
  intros Hw Hloop Hnd Hs Hlow. revert w Hloop.
  induction l as [|s0 l IH]; intros w; simpl; [by apply elem_of_nil in Hs|].
  intros (u1 & w1 & H0 & Hl)%bind_inr Hc Hd.
  apply NoDup_cons in Hnd as [Hnotin Hnd].
  destruct (body_fs _ _ _ _ (Hw s0 ltac:(by left)) H0) as (Hc1 & _ & Hframe & Hbak).
  assert (forall s, s ∈ l -> allb isWord (Service.name s) = true) as Hw'
    by (intros s' Hs'; apply Hw; by right).
  apply elem_of_cons in Hs as [->|Hs].
  - destruct (loop_fs _ _ _ _ Hw' Hl) as (_ & Hframe' & _). rewrite Hframe'.
    + by apply Hbak.
    + by apply bakName_ok, Hw; left.
    + intros s' Hs'. split.
      * unfold stubName, bakName. names_ne.
      * intros [Heq _]%sapp_suffix_inj; [|done]. apply Hnotin.
        rewrite Heq. apply list_elem_of_fmap. by exists s'.
  - apply (IH Hw' Hnd Hs w1 Hl); [congruence|].
    rewrite <- Hlow. rewrite Hframe; [by rewrite Hlow|by apply stubName_ok, Hw; right| |].
    + intros [Heq _]%sapp_suffix_inj; [|done]. apply Hnotin.
      rewrite <- Heq. apply list_elem_of_fmap. by exists s.
    + unfold stubName, bakName. names_ne.
Qed.

End Artifacts.

(** What a completed run went through: the schema was read and parsed,
    the world before the loop holds the copy of the schema, the loop
    ran, and the four last files were written. *)
Lemma completed_run_steps {P : PathLib} (flags : Flags) (w w' : world) (z : Z) :
  run flags w = (inr z, w') ->
  exists d parse w1 w2 u,
    fs w !! proto flags = Some (File d)
    /\ parseProtoText d = inr parse
    /\ clobber w1 = force flags
    /\ (fs w1 = fs w \/ fs w !! out flags = None /\ fs w1 = <[out flags := Dir]> (fs w))
    /\ (is_Some (fs w !! out flags) -> force flags = true)
    /\ forOf (services parse)
         (fun s => backupHandlers (out flags) s ;;
                   generateStubs (out flags) s (genLibOf (proto flags)))
         (mkWorld (<[path_join (out flags) (basename (proto flags)) := File d]> (fs w1))
            (clobber w1) (trace w1 ++ [Wrote (path_join (out flags) (basename (proto flags))) d]))
       = (inr u, w2)
    /\ fs w' =
         <[path_join (out flags) "tsconfig.json" := File (stringify tscConfig)]>
           (<[path_join (out flags) "package.json" := File (stringify (pkg (proto flags)))]>
              (<[path_join (out flags) (toLowerCase (packageName parse) +:+ "_clients.ts") :=
                   File (clientText parse (genLibOf (proto flags)))]>
                 (<[path_join (out flags) (toLowerCase (packageName parse) +:+ "_service.ts") :=
                      File (mainText parse (genLibOf (proto flags)))]> (fs w2)))).
Proof.
  intros Hrun.
  unfold run in Hrun. apply bind_inr in Hrun as (u0 & w0 & Hset & Hrun).
  injection Hset as <- <-.
  destruct (String.eqb (proto flags) ""); [done|].
  apply bind_inr in Hrun as (parse & w1 & Hparse & Hrun).
  rewrite parseProto_reads in Hparse. cbn [fs] in Hparse.
  injection Hparse as Hparse <-.
  destruct (fs w !! proto flags) as [[d|]|] eqn:Hd; try done.
  apply bind_inr in Hrun as (e & w1 & He & Hrun). injection He as <- <-.
  apply bind_inr in Hrun as (u1 & w1 & Hdir & Hrun). cbn [fs] in Hdir.
  assert (clobber w1 = force flags
          /\ (fs w1 = fs w \/ fs w !! out flags = None /\ fs w1 = <[out flags := Dir]> (fs w))
          /\ (is_Some (fs w !! out flags) -> force flags = true)
          /\ fs w1 !! proto flags = Some (File d)) as (Hc1 & Hfs1 & Hf & Hd1).
  { destruct (bool_decide (is_Some (fs w !! out flags))) eqn:Hex.
    - apply bind_inr in Hdir as (c & w2 & Hc & Hdir). injection Hc as <- <-.
      cbn [clobber] in Hdir. destruct (force flags) eqn:Hforce; [|done].
      injection Hdir as <- <-. cbn [fs clobber]. split_and!; [done|by left|done|done].
    - unfold catch, mkdir in Hdir. cbn [fs clobber trace] in Hdir.
      destruct (fs w !! out flags) eqn:Ho; [done|]. injection Hdir as <- <-.
      cbn [fs clobber]. split_and!; [done|by right|by intros [? ?]|].
      rewrite lookup_insert_ne; [done|]. intros Heq. by rewrite Heq, Hd in Ho. }
  apply bind_inr in Hrun as (u2 & w2 & (d' & Hd' & ->)%copy_inr & Hrun).
  rewrite Hd1 in Hd'. injection Hd' as <-.
  apply bind_inr in Hrun as (u3 & w3 & Hloop & Hrun).
  apply bind_inr in Hrun as (u4 & w4 & ->%save_inr & Hrun).
  apply bind_inr in Hrun as (u5 & w5 & ->%save_inr & Hrun).
  apply bind_inr in Hrun as (u6 & w6 & ->%save_inr & Hrun).
  apply bind_inr in Hrun as (u7 & w7 & ->%save_inr & Hrun).
  apply bind_inr in Hrun as (u8 & w8 & Hlog & Hrun).
  unfold console_log, emit in Hlog. injection Hlog as <- <-.
  injection Hrun as _ <-. cbn [fs].
  exists d, parse, w1, w3, u3. split_and!; done.
Qed.

Lemma completed_run_files
    {P : PathLib} (flags : Flags) (w w' : world) (z : Z) (d : string) (parse : ProtoParse) :
  run flags w = (inr z, w') ->
  fs w !! proto flags = Some (File d) ->
  parseProtoText d = inr parse ->
  (forall a b,
     OutputName suffixes (proto flags) a -> OutputName suffixes (proto flags) b ->
     path_join (out flags) a = path_join (out flags) b -> a = b) ->
  let genLib := genLibOf (proto flags) in
  let file x := fs w' !! path_join (out flags) x in
  file "tsconfig.json" = Some (File (stringify tscConfig))
  /\ file "package.json" = Some (File (stringify (pkg (proto flags))))
  /\ file (toLowerCase (packageName parse) +:+ "_clients.ts") =
       Some (File (clientText parse genLib))
  /\ file (toLowerCase (packageName parse) +:+ "_service.ts") =
       Some (File (mainText parse genLib))
  /\ (NoDup (map (fun s => toLowerCase (Service.name s)) (services parse)) ->
      forall s, s ∈ services parse ->
        file (toLowerCase (Service.name s) +:+ "_handlers.ts") =
          Some (File (stubsText s genLib)))
  /\ (basename (proto flags) ∉ generatedNames parse ->
      file (basename (proto flags)) = Some (File d)).
Proof.
  intros Hrun Hd Hparse Hinj.
  destruct (completed_run_steps _ _ _ _ Hrun)
    as (d' & parse' & w1 & w2 & u & Hd' & Hparse' & _ & _ & _ & Hloop & Hfs).
  rewrite Hd in Hd'. injection Hd' as <-.
  rewrite Hparse in Hparse'. injection Hparse' as <-.
  destruct (parsed_names_are_words _ _ Hparse) as [Hp Hs].
  apply (loop_fs _ _ _ Hinj) in Hloop as (_ & Hframe & Hstubs); [|done].
  cbn [fs] in Hframe.
  assert (OutputName suffixes (proto flags) "tsconfig.json") as Ots by name_ok.
  assert (OutputName suffixes (proto flags) "package.json") as Opk by name_ok.
  assert (OutputName suffixes (proto flags)
            (toLowerCase (packageName parse) +:+ "_clients.ts")) as Ocl by name_ok.
  assert (OutputName suffixes (proto flags)
            (toLowerCase (packageName parse) +:+ "_service.ts")) as Osv by name_ok.
  cbn zeta. rewrite Hfs. split_and!.
  - by rewrite lookup_insert_eq.
  - rewrite (lookup_other _ _ Hinj) by done. by rewrite lookup_insert_eq.
  - rewrite !(lookup_other _ _ Hinj) by (first [assumption|names_ne]).
    by rewrite lookup_insert_eq.
  - rewrite !(lookup_other _ _ Hinj) by (first [assumption|names_ne]).
    by rewrite lookup_insert_eq.
  - intros Hnd s Hs'.
    assert (OutputName suffixes (proto flags)
              (toLowerCase (Service.name s) +:+ "_handlers.ts")) as Ost by name_ok.
    rewrite !(lookup_other _ _ Hinj) by (first [assumption|names_ne]).
    by apply Hstubs.
  - intros Hnot. unfold generatedNames in Hnot.
    rewrite !not_elem_of_app, !not_elem_of_cons in Hnot.
    destruct Hnot as (Hn1 & Hn2 & Hn3 & Hn4 & Hn5 & Hn6 & _).
    assert (OutputName suffixes (proto flags) (basename (proto flags))) as Obn by name_ok.
    rewrite !(lookup_other _ _ Hinj) by (first [assumption|congruence]).
    rewrite Hframe; [by rewrite lookup_insert_eq|done|].
    intros s Hs'. split; intros Heq.
    + apply Hn1. rewrite Heq. apply list_elem_of_fmap. by exists s.
    + apply Hn2. rewrite Heq. apply list_elem_of_fmap. by exists s.
Qed.

(** X6.  When a run completes, and the path library gives different
    paths to different output names under the output directory, the file
    store holds there: [tsconfig.json] and [package.json] with the text
    of their objects, the client module and the service module of the
    model, named after the package in lower case; the stub file of every
    service, when no two services have the same name up to case; and the
    copy of the schema, when its base name is none of the generated
    names. *)
Theorem completed_run_leaves_the_artifacts
    {P : PathLib} (flags : Flags) (w w' : world) (z : Z) :
  run flags w = (inr z, w') ->
  (forall a b,
     OutputName suffixes (proto flags) a -> OutputName suffixes (proto flags) b ->
     path_join (out flags) a = path_join (out flags) b -> a = b) ->
  exists d parse,
    let genLib := genLibOf (proto flags) in
    let file x := fs w' !! path_join (out flags) x in
    fs w !! proto flags = Some (File d)
    /\ parseProtoText d = inr parse
    /\ file "tsconfig.json" = Some (File (stringify tscConfig))
    /\ file "package.json" = Some (File (stringify (pkg (proto flags))))
    /\ file (toLowerCase (packageName parse) +:+ "_clients.ts") =
         Some (File (clientText parse genLib))
    /\ file (toLowerCase (packageName parse) +:+ "_service.ts") =
         Some (File (mainText parse genLib))
    /\ (NoDup (map (fun s => toLowerCase (Service.name s)) (services parse)) ->
        forall s, s ∈ services parse ->
          file (toLowerCase (Service.name s) +:+ "_handlers.ts") =
            Some (File (stubsText s genLib)))
    /\ (basename (proto flags) ∉ generatedNames parse ->
        file (basename (proto flags)) = Some (File d)).
Proof.
  intros Hrun Hinj.
  destruct (completed_run_steps _ _ _ _ Hrun) as (d & parse & _ & _ & _ & Hd & Hparse & _).
  exists d, parse. cbn zeta. split; [done|]. split; [done|].
  by apply (completed_run_files flags w w' z d parse).
Qed.

Lemma completed_run_leaves_the_artifacts_witness :
  fs (run (P:=simplePath) plainFlags twoServicesWorld).2 !! "out/tsconfig.json" =
    Some (File (stringify tscConfig))
  /\ fs (run (P:=simplePath) plainFlags twoServicesWorld).2 !! "out/package.json" =
    Some (File (stringify (pkg (P:=simplePath) "service.proto"))).
Proof.
  destruct (completed_run_leaves_the_artifacts (P:=simplePath) plainFlags twoServicesWorld
              (run (P:=simplePath) plainFlags twoServicesWorld).2 0%Z)
    as (d & parse & _ & _ & Hts & Hpkg & _).
  - vm_compute. reflexivity.
  - intros a b _ _ H. simpl in H. by injection H.
  - split; [exact Hts|exact Hpkg].
Defined.

Lemma forced_run_backup
    {P : PathLib} (flags : Flags) (w w' : world) (z : Z) (text : string)
    (parse : ProtoParse) (s : ProtoService) (edited : string) :
  run flags w = (inr z, w') ->
  force flags = true ->
  fs w !! proto flags = Some (File text) ->
  parseProtoText text = inr parse ->
  (forall a b,
     OutputName suffixes (proto flags) a -> OutputName suffixes (proto flags) b ->
     path_join (out flags) a = path_join (out flags) b -> a = b) ->
  s ∈ services parse ->
  NoDup (map (fun s => toLowerCase (Service.name s)) (services parse)) ->
  toLowerCase (Service.name s) = Service.name s ->
  basename (proto flags) <> Service.name s +:+ "_handlers.ts" ->
  fs w !! path_join (out flags) (Service.name s +:+ "_handlers.ts") = Some (File edited) ->
  fs w' !! path_join (out flags) (Service.name s +:+ "_handlers.bak") = Some (File edited).
Proof.
  intros Hrun Hforce Htext Hp Hinj Hs Hnd Hlow Hbase Hedit.
  destruct (completed_run_steps _ _ _ _ Hrun)
    as (d & parse' & w1 & w2 & u & Hd & Hparse & Hc1 & Hfs1 & _ & Hloop & Hfs).
  rewrite Htext in Hd. injection Hd as <-.
  rewrite Hp in Hparse. injection Hparse as <-.
  destruct (parsed_names_are_words _ _ Hp) as [Hpw Hsw].
  assert (OutputName suffixes (proto flags) (Service.name s +:+ "_handlers.ts")) as Ost.
  { rewrite <- Hlow. specialize (Hsw s Hs). name_ok. }
  assert (OutputName suffixes (proto flags) (Service.name s +:+ "_handlers.bak")) as Obk.
  { rewrite <- Hlow. specialize (Hsw s Hs). name_ok. }
  assert (OutputName suffixes (proto flags) (basename (proto flags))) as Obn by name_ok.
  apply (loop_backup _ _ _ Hinj _ _ _ _ s edited) in Hloop; try done.
  2:{ cbn [clobber]. congruence. }
  2:{ cbn [fs]. rewrite (lookup_other _ _ Hinj) by done.
      destruct Hfs1 as [->|[Hnone ->]]; [done|].
      rewrite lookup_insert_ne; [done|]. intros Heq. by rewrite Heq, Hedit in Hnone. }
  rewrite Hfs. unfold bakName in Hloop. rewrite Hlow in Hloop.
  assert (OutputName suffixes (proto flags) "tsconfig.json") as Ots by name_ok.
  assert (OutputName suffixes (proto flags) "package.json") as Opk by name_ok.
  assert (OutputName suffixes (proto flags)
            (toLowerCase (packageName parse) +:+ "_clients.ts")) as Ocl by name_ok.
  assert (OutputName suffixes (proto flags)
            (toLowerCase (packageName parse) +:+ "_service.ts")) as Osv by name_ok.
  rewrite !(lookup_other _ _ Hinj) by (first [assumption|names_ne]).
  exact Hloop.
Qed.

(** X7.  A forced run that completes keeps the earlier stub file of a
    service whose name is in lower case: when no two services have the
    same name up to case and the schema is not itself named like the stub
    file, the text that [<name>_handlers.ts] held before the run is in
    [<name>_handlers.bak] afterwards, and the stub file holds the fresh
    stubs. *)
Theorem forced_run_backs_up_the_stubs_of_a_lower_case_service
    {P : PathLib} (flags : Flags) (w w' : world) (z : Z) :
  run flags w = (inr z, w') ->
  force flags = true ->
  (forall a b,
     OutputName suffixes (proto flags) a -> OutputName suffixes (proto flags) b ->
     path_join (out flags) a = path_join (out flags) b -> a = b) ->
  exists text parse,
    fs w !! proto flags = Some (File text)
    /\ parseProtoText text = inr parse
    /\ forall s edited,
        s ∈ services parse ->
        NoDup (map (fun s => toLowerCase (Service.name s)) (services parse)) ->
        toLowerCase (Service.name s) = Service.name s ->
        basename (proto flags) <> Service.name s +:+ "_handlers.ts" ->
        fs w !! path_join (out flags) (Service.name s +:+ "_handlers.ts") =
          Some (File edited) ->
        fs w' !! path_join (out flags) (Service.name s +:+ "_handlers.bak") =
          Some (File edited)
        /\ fs w' !! path_join (out flags) (Service.name s +:+ "_handlers.ts") =
          Some (File (stubsText s (genLibOf (proto flags)))).
Proof.
  intros Hrun Hforce Hinj.
  destruct (completed_run_steps _ _ _ _ Hrun)
    as (text & parse & _ & _ & _ & Htext & Hparse & _).
  exists text, parse. split; [done|]. split; [done|].
  intros s edited Hs Hnd Hlow Hbase Hedit. split.
  - by eapply forced_run_backup.
  - destruct (completed_run_files flags w w' z text parse Hrun Htext Hparse Hinj)
      as (_ & _ & _ & _ & Hstubs & _).
    rewrite <- Hlow at 1. by apply Hstubs.
Qed.

Lemma forced_run_backs_up_the_stubs_of_a_lower_case_service_witness :
  fs (run (P:=simplePath) forcedFlags lowerWorld).2 !! "out/calc_handlers.bak" =
    Some (File editedStub).
Proof.
  destruct (forced_run_backs_up_the_stubs_of_a_lower_case_service (P:=simplePath)
              forcedFlags lowerWorld (run (P:=simplePath) forcedFlags lowerWorld).2 0%Z)
    as (text & parse & Htext & Hparse & H).
  - vm_compute. reflexivity.
  - reflexivity.
  - intros a b _ _ Hab. simpl in Hab. by injection Hab.
  - injection Htext as <-.
    assert (parse = mkParse "calc" [Service.mk "calc" [addRpc]]) as ->.
    { vm_compute in Hparse. by injection Hparse as <-. }
    destruct (H (Service.mk "calc" [addRpc]) editedStub) as [Hbak _].
    + by left.
    + repeat constructor. by intros ?%elem_of_nil.
    + reflexivity.
    + done.
    + reflexivity.
    + exact Hbak.
Defined.

(** ** The import line of the service and client modules *)

Lemma allTypes_elem (ss : list ProtoService) (x : string) :
  x ∈ flat_map (fun s => rpcTypes (Service.rpcs s)) ss <->
  exists s r, s ∈ ss /\ r ∈ Service.rpcs s /\ (x = Rpc.inType r \/ x = Rpc.outType r).
Proof.
  rewrite list_elem_of_In, in_flat_map. split.
  - intros (s & Hs%list_elem_of_In & (r & Hr & Hx)%list_elem_of_In%rpcTypes_elem).
    by exists s, r.
  - intros (s & r & Hs & Hr & Hx). exists s. split; [by apply list_elem_of_In|].
    apply list_elem_of_In, rpcTypes_elem. by exists r.
Qed.

(** X8.  The import line that the service module and the client module
    share lists the input and output types of all RPCs of all services,
    each once and in ascending order.  It covers what every stub file
    imports, it does not depend on the order of the services, for a model
    with one service it is the import line of that service's stub file,
    and for a model without services it imports nothing. *)
Theorem module_imports_cover_the_stub_imports (parse : ProtoParse) (lib : string) :
  exists L : list string,
    generateAllProtoImports parse lib =
      "import { " +:+ join ", " L +:+ " } from " +:+ dq +:+ "./" +:+ lib +:+ ".js" +:+ dq +:+ ";"
    /\ NoDup L
    /\ StronglySorted String.le L
    /\ (forall x, x ∈ L <->
          exists s r, s ∈ services parse /\ r ∈ Service.rpcs s
            /\ (x = Rpc.inType r \/ x = Rpc.outType r))
    /\ (forall s, s ∈ services parse ->
          exists Ls,
            generateServiceImports s lib =
              "import { " +:+ join ", " Ls +:+ " } from " +:+ dq +:+ "./" +:+ lib +:+ ".js" +:+ dq +:+ ";"
            /\ Ls ⊆ L)
    /\ (forall parse', services parse' ≡ₚ services parse ->
          generateAllProtoImports parse' lib = generateAllProtoImports parse lib)
    /\ (forall s, services parse = [s] ->
          generateAllProtoImports parse lib = generateServiceImports s lib)
    /\ (services parse = [] -> L = [])
    /\ Occurs (generateAllProtoImports parse lib) (mainText parse lib)
    /\ Occurs (generateAllProtoImports parse lib) (clientText parse lib).
Proof.
  exists (sort (dedup (flat_map (fun s => rpcTypes (Service.rpcs s)) (services parse)))).
  split_and!.
  - reflexivity.
  - apply sort_dedup_NoDup.
  - apply sort_sorted.
  - intros x. rewrite sort_dedup_elem. apply allTypes_elem.
  - intros s Hs. exists (sort (dedup (rpcTypes (Service.rpcs s)))). split; [reflexivity|].
    intros x. rewrite !sort_dedup_elem, allTypes_elem.
    intros (r & Hr & Hx)%rpcTypes_elem. by exists s, r.
  - intros parse' Hperm. unfold generateAllProtoImports, generateImport.
    do 2 f_equal. f_equal. apply sort_dedup_ext. intros x. rewrite !allTypes_elem.
    split; intros (s & r & Hs & H); exists s, r; split; try done.
    + by rewrite <- Hperm.
    + by rewrite Hperm.
  - intros s Hs. unfold generateAllProtoImports, generateServiceImports.
    rewrite Hs. simpl. by rewrite app_nil_r.
  - intros ->. done.
  - apply Occurs_join. unfold mainSections. set_solver.
  - apply Occurs_join. unfold clientParts. set_solver.
Qed.

(** ** The layout of the service module and of the client module *)

Lemma join_lines (x : string) (l : list string) :
  join nl (x :: l) = x +:+ join "" (map (fun y => nl +:+ y) l).
Proof.
  revert x. induction l as [|y l IH]; intros x.
  - simpl. by rewrite sapp_nil_r.
  - rewrite join_cons_ne by done. rewrite IH. cbn [map].
    by rewrite join_empty_cons, sapp_assoc.
Qed.





(** ** Failures before the output directory is looked at *)

(** X11.  [run] checks, in this order and before it looks at the output
    directory: that [--proto] is not empty, that the schema file can be
    read, that its text parses.  The first check that fails decides the
    exception, whatever the state of the output directory and of the
    force flag; nothing is written or logged, only [clobber] has taken
    the value of the force flag. *)
Theorem run_reports_the_first_failed_check {P : PathLib} (flags : Flags) (w : world) :
  (proto flags = "" ->
     run flags w =
       (inl (Error "--proto is required"), mkWorld (fs w) (force flags) (trace w)))
  /\ (proto flags <> "" -> fs w !! proto flags = None ->
     run flags w =
       (inl (NotFound (proto flags)), mkWorld (fs w) (force flags) (trace w)))
  /\ (proto flags <> "" -> fs w !! proto flags = Some Dir ->
     run flags w =
       (inl (IsADirectory (proto flags)), mkWorld (fs w) (force flags) (trace w)))
  /\ (forall text e,
        proto flags <> "" -> fs w !! proto flags = Some (File text) ->
        parseProtoText text = inl e ->
        run flags w = (inl e, mkWorld (fs w) (force flags) (trace w))).
Proof.
  split_and!.
  - intros Hp. unfold run. unfold bind at 1. unfold setClobber at 1.
    by rewrite Hp.
  - intros Hp Hd. unfold run. unfold bind at 1. unfold setClobber at 1.
    destruct (String.eqb_spec (proto flags) ""); [done|].
    unfold bind at 1. rewrite parseProto_reads. cbn [fs]. by rewrite Hd.
  - intros Hp Hd. unfold run. unfold bind at 1. unfold setClobber at 1.
    destruct (String.eqb_spec (proto flags) ""); [done|].
    unfold bind at 1. rewrite parseProto_reads. cbn [fs]. by rewrite Hd.
  - intros text e Hp Hd He. unfold run. unfold bind at 1. unfold setClobber at 1.
    destruct (String.eqb_spec (proto flags) ""); [done|].
    unfold bind at 1. rewrite parseProto_reads. cbn [fs]. by rewrite Hd, He.
Qed.

(** ** Copying a file *)


(** ** The files of a completed run of the per-service variant *)

Section PerServiceArtifacts.
Context {P : PathLib}.
Variables outDir genLib protoPath : string.
Hypothesis join_inj : forall a b,
  OutputName perServiceSuffixes protoPath a -> OutputName perServiceSuffixes protoPath b ->
  path_join outDir a = path_join outDir b -> a = b.

#[local] Abbreviation low s := (toLowerCase (Service.name s)).

Lemma PerService_lookup_other (x y : string) (n : node) (m : gmap string node) :
  OutputName perServiceSuffixes protoPath x -> OutputName perServiceSuffixes protoPath y ->
  x <> y ->
  <[path_join outDir x := n]> m !! path_join outDir y = m !! path_join outDir y.
Proof.
  intros Hx Hy Hne. rewrite lookup_insert_ne; [done|]. intros H. by apply join_inj in H.
Qed.

Lemma PerService_body_fs (s : ProtoService) (w w' : world) (u : unit) :
  allb isWord (Service.name s) = true ->
  perServiceStep outDir genLib s w = (inr u, w') ->
  fs w' !! path_join outDir (low s +:+ "_handlers.ts") =
    Some (File (PerService.handlersText s genLib))
  /\ fs w' !! path_join outDir (low s +:+ "_service.ts") =
    Some (File (PerService.mainText s genLib))
  /\ fs w' !! path_join outDir (low s +:+ "_client.ts") =
    Some (File (PerService.clientText s genLib))
  /\ (forall x, OutputName perServiceSuffixes protoPath x ->
        x <> low s +:+ "_handlers.ts" -> x <> low s +:+ "_service.ts" ->
        x <> low s +:+ "_client.ts" -> x <> low s +:+ "_handlers.bak" ->
        fs w' !! path_join outDir x = fs w !! path_join outDir x).
Proof.
  intros Hw. unfold perServiceStep. intros (u1 & w1 & Hb & Hg)%bind_inr.
  apply bind_inr in Hg as (u2 & w2 & ->%save_inr & Hg).
  apply bind_inr in Hg as (u3 & w3 & ->%save_inr & Hg).
  apply save_inr in Hg as ->. cbn [fs].
  assert (OutputName perServiceSuffixes protoPath (low s +:+ "_handlers.ts")) as O1
    by name_ok.
  assert (OutputName perServiceSuffixes protoPath (low s +:+ "_service.ts")) as O2
    by name_ok.
  assert (OutputName perServiceSuffixes protoPath (low s +:+ "_client.ts")) as O3
    by name_ok.
  assert (OutputName perServiceSuffixes protoPath (low s +:+ "_handlers.bak")) as O4
    by name_ok.
  split_and!.
  - rewrite !PerService_lookup_other by (first [assumption|names_ne]).
    by rewrite lookup_insert_eq.
  - rewrite !PerService_lookup_other by (first [assumption|names_ne]).
    by rewrite lookup_insert_eq.
  - by rewrite lookup_insert_eq.
  - intros x Hx Hx1 Hx2 Hx3 Hx4.
    rewrite !PerService_lookup_other by (first [assumption|congruence]).
    unfold backupHandlers in Hb. apply bind_inr in Hb as (e & w2 & He & Hb).
    injection He as <- <-. apply bind_inr in Hb as (c & w2 & Hc & Hb).
    injection Hc as <- <-. destruct (_ && _).
    + apply bind_inr in Hb as (u4 & w4 & (d & _ & ->)%copy_inr & Hlog).
      unfold console_log, emit in Hlog. injection Hlog as <- <-. cbn [fs].
      by rewrite PerService_lookup_other by (first [assumption|congruence]).
    + by injection Hb as <- <-.
Qed.

Lemma PerService_loop_frame (l : list ProtoService) (w w' : world) (u : unit) :
  (forall s, s ∈ l -> allb isWord (Service.name s) = true) ->
  forOf l (perServiceStep outDir genLib) w = (inr u, w') ->
  forall x, OutputName perServiceSuffixes protoPath x ->
    (forall s, s ∈ l ->
       x <> low s +:+ "_handlers.ts" /\ x <> low s +:+ "_service.ts" /\
       x <> low s +:+ "_client.ts" /\ x <> low s +:+ "_handlers.bak") ->
    fs w' !! path_join outDir x = fs w !! path_join outDir x.
Proof.
  revert w. induction l as [|s1 l IH]; intros w Hw; simpl.
  - by intros [= _ <-].
  - intros (u1 & w1 & H0 & Hl)%bind_inr x Hx Hne.
    rewrite (IH w1 (fun s Hs => Hw s ltac:(by right)) Hl x Hx)
      by (intros s Hs; apply Hne; by right).
    destruct (PerService_body_fs _ _ _ _ (Hw s1 ltac:(by left)) H0) as (_ & _ & _ & Hf).
    destruct (Hne s1) as (? & ? & ? & ?); [by left|]. by apply Hf.
Qed.

Lemma PerService_loop_fs (l : list ProtoService) (w w' : world) (u : unit) :
  (forall s, s ∈ l -> allb isWord (Service.name s) = true) ->
  forOf l (perServiceStep outDir genLib) w = (inr u, w') ->
  NoDup (map (fun s => low s) l) ->
  forall s, s ∈ l ->
    fs w' !! path_join outDir (low s +:+ "_handlers.ts") =
      Some (File (PerService.handlersText s genLib))
    /\ fs w' !! path_join outDir (low s +:+ "_service.ts") =
      Some (File (PerService.mainText s genLib))
    /\ fs w' !! path_join outDir (low s +:+ "_client.ts") =
      Some (File (PerService.clientText s genLib)).
Proof.
  revert w. induction l as [|s0 l IH]; intros w Hw; simpl.
  - by intros _ _ s ?%elem_of_nil.
  - intros (u1 & w1 & H0 & Hl)%bind_inr [Hnotin Hnd]%NoDup_cons s Hs.
    assert (forall s, s ∈ l -> allb isWord (Service.name s) = true) as Hw'
      by (intros s' Hs'; apply Hw; by right).
    apply elem_of_cons in Hs as [->|Hs]; [|by eapply IH].
    pose proof (Hw s0 ltac:(by left)) as Hw0.
    destruct (PerService_body_fs _ _ _ _ Hw0 H0) as (H1 & H2 & H3 & _).
    assert (forall s a b, s ∈ l -> low s0 +:+ a = low s +:+ b -> a <> b) as Hother.
    { intros s a b Hs Heq ->. apply sapp_suffix_inj in Heq as [Heq _]; [|done].
      apply Hnotin. rewrite Heq. apply list_elem_of_fmap. by exists s. }
    rewrite !(PerService_loop_frame _ _ _ _ Hw' Hl); [done| | | | | |].
    all: try name_ok.
    all: intros s Hs; split_and!; intros Heq; try (by eapply Hother);
      revert Heq; names_ne.
Qed.

End PerServiceArtifacts.

(** X13.  When a run of the per-service variant completes, and the path
    library gives different paths to different output names under the
    output directory, the file store holds there [tsconfig.json] and
    [package.json] with the text of their objects and, when no two
    services have the same name up to case, for every service its
    handlers file, its service module and its client module, named after
    the service in lower case. *)
Theorem PerService_completed_run_leaves_three_files_per_service
    {P : PathLib} (flags : Flags) (w w' : world) (z : Z) :
  PerService.run flags w = (inr z, w') ->
  (forall a b,
     OutputName perServiceSuffixes (proto flags) a ->
     OutputName perServiceSuffixes (proto flags) b ->
     path_join (out flags) a = path_join (out flags) b -> a = b) ->
  exists d services,
    let genLib := genLibOf (proto flags) in
    let file x := fs w' !! path_join (out flags) x in
    fs w !! proto flags = Some (File d)
    /\ PerService.parseProtoText d = inr services
    /\ file "tsconfig.json" = Some (File (stringify tscConfig))
    /\ file "package.json" = Some (File (stringify (PerService.pkg (proto flags))))
    /\ (NoDup (map (fun s => toLowerCase (Service.name s)) services) ->
        forall s, s ∈ services ->
          file (toLowerCase (Service.name s) +:+ "_handlers.ts") =
            Some (File (PerService.handlersText s genLib))
          /\ file (toLowerCase (Service.name s) +:+ "_service.ts") =
            Some (File (PerService.mainText s genLib))
          /\ file (toLowerCase (Service.name s) +:+ "_client.ts") =
            Some (File (PerService.clientText s genLib))).
Proof.
  intros Hrun Hinj.
  unfold PerService.run in Hrun. apply bind_inr in Hrun as (u0 & w0 & Hset & Hrun).
  injection Hset as <- <-.
  destruct (String.eqb (proto flags) ""); [done|].
  apply bind_inr in Hrun as (services & w1 & Hparse & Hrun).
  rewrite PerService_parseProto_reads in Hparse. cbn [fs] in Hparse.
  injection Hparse as Hparse <-.
  destruct (fs w !! proto flags) as [[d|]|] eqn:Hd; try done.
  pose proof (PerService_parsed_names_are_words _ _ Hparse) as Hw.
  apply bind_inr in Hrun as (e & w1 & He & Hrun). injection He as <- <-.
  apply bind_inr in Hrun as (u1 & w1 & Hdir & Hrun).
  apply bind_inr in Hrun as (u2 & w2 & _ & Hrun).
  apply bind_inr in Hrun as (u3 & w3 & Hloop & Hrun).
  pose proof (PerService_loop_fs _ _ _ Hinj _ _ _ _ Hw Hloop) as Hfiles.
  apply bind_inr in Hrun as (u6 & w6 & ->%save_inr & Hrun).
  apply bind_inr in Hrun as (u7 & w7 & ->%save_inr & Hrun).
  apply bind_inr in Hrun as (u8 & w8 & Hlog & Hrun).
  unfold console_log, emit in Hlog. injection Hlog as <- <-.
  injection Hrun as _ <-. cbn [fs].
  assert (OutputName perServiceSuffixes (proto flags) "tsconfig.json") as Ots by name_ok.
  assert (OutputName perServiceSuffixes (proto flags) "package.json") as Opk by name_ok.
  exists d, services. cbn zeta. split_and!; try done.
  - by rewrite lookup_insert_eq.
  - rewrite (PerService_lookup_other _ _ Hinj) by done. by rewrite lookup_insert_eq.
  - intros Hnd s Hs. destruct (Hfiles Hnd s Hs) as (H1 & H2 & H3).
    specialize (Hw s Hs).
    assert (OutputName perServiceSuffixes (proto flags)
              (toLowerCase (Service.name s) +:+ "_handlers.ts")) as O1 by name_ok.
    assert (OutputName perServiceSuffixes (proto flags)
              (toLowerCase (Service.name s) +:+ "_service.ts")) as O2 by name_ok.
    assert (OutputName perServiceSuffixes (proto flags)
              (toLowerCase (Service.name s) +:+ "_client.ts")) as O3 by name_ok.
    rewrite !(PerService_lookup_other _ _ Hinj) by (first [assumption|names_ne]).
    done.
Qed.

Lemma PerService_completed_run_leaves_three_files_per_service_witness :
  fs (PerService.run (P:=simplePath) plainFlags twoServicesWorld).2 !! "out/tsconfig.json" =
    Some (File (stringify tscConfig))
  /\ fs (PerService.run (P:=simplePath) plainFlags twoServicesWorld).2 !! "out/package.json" =
    Some (File (stringify (PerService.pkg (P:=simplePath) "service.proto"))).
Proof.
  destruct (PerService_completed_run_leaves_three_files_per_service (P:=simplePath)
              plainFlags twoServicesWorld
              (PerService.run (P:=simplePath) plainFlags twoServicesWorld).2 0%Z)
    as (d & parse & _ & _ & Hts & Hpkg & _).
  - vm_compute. reflexivity.
  - intros a b _ _ H. simpl in H. by injection H.
  - split; [exact Hts|exact Hpkg].
Defined.

(** ** Running again over the output of a run *)



(** ** The service module of the per-service variant *)

(** X15.  In the per-service variant the service module is the banner,
    the import of the handlers, the import line of the schema types, the
    import of the transport library, the code that creates the service
    and one endpoint registration per RPC, in the order of the model.
    The handlers are imported by name, one [<rpc>Handler] per RPC, from
    the handlers file of the service; the endpoint of an RPC calls the
    handler of that name, and the handlers file exports it. *)
Theorem PerService_service_module_imports_what_it_calls
    (srv : ProtoService) (genLib : string) :
  PerService.mainText srv genLib =
    PerService.mainBanner srv +:+ nl +:+
    PerService.generateHandlerImport (Service.name srv) (Service.rpcs srv) +:+ nl +:+
    PerService.generateImports (Service.rpcs srv) genLib +:+ nl +:+
    "import { connect, ServiceError } from " +:+ dq +:+ "nats" +:+ dq +:+ ";" +:+ nl +:+
    PerService.createService srv +:+
    join "" (map (fun rpc => nl +:+ PerService.addEndpoint rpc) (Service.rpcs srv))
  /\ PerService.generateHandlerImport (Service.name srv) (Service.rpcs srv) =
       "import {" +:+
       join ", " (map (fun r => Rpc.name r +:+ "Handler") (Service.rpcs srv)) +:+
       "} from " +:+ dq +:+ "./" +:+ toLowerCase (Service.name srv) +:+ "_handlers.js" +:+
       dq +:+ ";"
  /\ forall rpc, rpc ∈ Service.rpcs srv ->
       Rpc.name rpc +:+ "Handler" ∈
         map (fun r => Rpc.name r +:+ "Handler") (Service.rpcs srv)
       /\ Occurs ("  " +:+ Rpc.name rpc +:+ "Handler(input)" +:+ nl)
            (PerService.addEndpoint rpc)
       /\ Occurs ("export function " +:+ Rpc.name rpc +:+ "Handler(r: " +:+
                  Rpc.inType rpc +:+ "): Promise<" +:+ Rpc.outType rpc +:+ ">{")
            (PerService.handlersText srv genLib).
Proof.
  split_and!.
  - unfold PerService.mainText, PerService.mainSections. cbn [app].
    rewrite join_lines. cbn [map]. rewrite !join_empty_cons, map_map.
    by rewrite !sapp_assoc.
  - reflexivity.
  - intros rpc Hrpc.
    destruct (PerService_names_agree srv genLib rpc Hrpc) as (_ & _ & H3 & _ & _ & H6).
    split_and!; [|done|done].
    apply (list_elem_of_fmap_2 (fun r => Rpc.name r +:+ "Handler")). done.
Qed.
